(** * Kemono/Coomer downloader: extraction, verification gate, resumable
      transfer, failure ledger and pipeline producer.

    A shallow embedding of the core of the downloader
    ([src/download_utils.py], [src/failure_handlers.py],
    [src/batch_file_downloader.py], [src/post_extractor.py],
    [src/parallel_extract_download.py]) together with the properties the
    specification states about it.

    Conventions.
    - Python [str] values are [string]s; a character is a code point below
      256.  Python [int]s are [Z].
    - The file system is a finite map from paths to contents.  Whatever the
      code asks of the outside world (HTTP answers, failures of file
      operations that do not depend on the map, the progress of the other
      threads) is an explicit input of the function that asks for it.
    - Requests, sleeps and log lines are recorded in a trace of events. *)

From Stdlib Require Import ZArith Lia Bool List Ascii String.
From stdpp Require Import base gmap sets list strings pretty sorting.

Open Scope Z_scope.

(* ===================================================================== *)
(** * Python strings *)
(* ===================================================================== *)

Module PyStr.

Definition LF : ascii := "010"%char.
Definition CR : ascii := "013"%char.

(** The one-character string ["\n"]. *)
Definition nl : string := String LF "".

(** [str.isspace] on one character, for the code points below 256:
    TAB, LF, VT, FF, CR, FS, GS, RS, US, SPACE, NEL and NBSP. *)
Definition isspace (c : ascii) : bool :=
  let n := nat_of_ascii c in
  ((9 <=? n)%nat && (n <=? 13)%nat) || ((28 <=? n)%nat && (n <=? 32)%nat)
  || (n =? 133)%nat || (n =? 160)%nat.

Fixpoint lstrip (s : string) : string :=
  match s with
  | "" => ""
  | String c s' => if isspace c then lstrip s' else s
  end.

Fixpoint rstrip (s : string) : string :=
  match s with
  | "" => ""
  | String c s' =>
      match rstrip s' with
      | "" => if isspace c then "" else String c ""
      | r => String c r
      end
  end.

(** [s.strip()] *)
Definition strip (s : string) : string := rstrip (lstrip s).

(** Python truthiness of a string. *)
Definition truthy (s : string) : bool :=
  match s with "" => false | _ => true end.

(** Text-mode reading with [newline=None]: ["\r\n"] and a lone ["\r"]
    both arrive as ["\n"].  [pending_cr] is the decoder's flag: the
    previous character was a ["\r"], already delivered as ["\n"]. *)
Fixpoint universal_newlines (pending_cr : bool) (s : string) : string :=
  match s with
  | "" => ""
  | String c s' =>
      if Ascii.eqb c CR then String LF (universal_newlines true s')
      else if Ascii.eqb c LF then
        if pending_cr then universal_newlines false s'
        else String LF (universal_newlines false s')
      else String c (universal_newlines false s')
  end.

(** Iterating over a text file: the lines, each with its terminating
    ["\n"] except possibly the last. *)
Fixpoint readlines (s : string) : list string :=
  match s with
  | "" => []
  | String c s' =>
      if Ascii.eqb c LF then nl :: readlines s'
      else match readlines s' with
           | [] => [String c ""]
           | l :: ls => String c l :: ls
           end
  end.

(** [for line in open(path, "r")] on a file holding [text]. *)
Definition file_lines (text : string) : list string :=
  readlines (universal_newlines false text).

Fixpoint all_chars (p : ascii → bool) (s : string) : bool :=
  match s with
  | "" => true
  | String c s' => p c && all_chars p s'
  end.

(** Every character of [s] satisfies [p]. *)
Definition every (p : ascii → bool) (s : string) : Prop :=
  all_chars p s = true.

(** The character is not [c]. *)
Definition is_not (c : ascii) (x : ascii) : bool := negb (Ascii.eqb x c).

(** The string does not start with white space. *)
Definition starts_clear (s : string) : Prop :=
  match s with "" => True | String c _ => isspace c = false end.

(** [s.split(sep)] for a one-character separator: always at least one
    part. *)
Fixpoint split (sep : ascii) (s : string) : list string :=
  match s with
  | "" => [""]
  | String c s' =>
      if Ascii.eqb c sep then "" :: split sep s'
      else match split sep s' with
           | [] => [String c ""]
           | part :: parts => String c part :: parts
           end
  end.

(** [sep in s] for a one-character [sep]. *)
Fixpoint contains (sep : ascii) (s : string) : bool :=
  match s with
  | "" => false
  | String c s' => Ascii.eqb c sep || contains sep s'
  end.

Definition digit_value (c : ascii) : option Z :=
  let n := nat_of_ascii c in
  if (48 <=? n)%nat && (n <=? 57)%nat then Some (Z.of_nat n - 48) else None.

(** [str.isdigit] on one character below 256: the decimal digits and
    the superscripts 1, 2 and 3. *)
Definition isdigit_char (c : ascii) : bool :=
  let n := nat_of_ascii c in
  ((48 <=? n)%nat && (n <=? 57)%nat)
  || (n =? 178)%nat || (n =? 179)%nat || (n =? 185)%nat.

(** [s.isdigit()] *)
Definition isdigit (s : string) : bool := truthy s && all_chars isdigit_char s.

(** The digits of a decimal literal, single underscores allowed between
    digits.  [after_digit] says the previous character was a digit. *)
Fixpoint int_digits (acc : Z) (after_digit : bool) (s : string) : option Z :=
  match s with
  | "" => if after_digit then Some acc else None
  | String c s' =>
      match digit_value c with
      | Some d => int_digits (10 * acc + d) true s'
      | None =>
          if Ascii.eqb c "_"%char && after_digit
          then int_digits acc false s'
          else None
      end
  end.

(** [int(s)]: surrounding white space, an optional sign, decimal
    digits.  [None] stands for [ValueError].  (The interpreter's limit
    on the number of digits is not modelled.) *)
Definition int (s : string) : option Z :=
  match strip s with
  | String "+" r => int_digits 0 false r
  | String "-" r => Z.opp <$> int_digits 0 false r
  | r => int_digits 0 false r
  end.

(** [str(n)] for an [int]. *)
Definition str (n : Z) : string := pretty n.

(** [range(0, stop, step)] for a positive [step]. *)
Definition range0 (stop step : Z) : list Z :=
  (λ i, Z.of_nat i * step) <$> seq 0 (Z.to_nat ((stop + step - 1) / step)).

(** [math.ceil(d / k)], the quotient taken exactly.  Python divides
    into a float: for [k = 50] and [d] of absolute value below [2^53]
    the float has the ceiling of the exact quotient; for larger [d] it
    may not, and beyond the range of floats the division raises
    [OverflowError]. *)
Definition ceil_div (d k : Z) : Z := - ((- d) / k).

End PyStr.

(* ===================================================================== *)
(** * failure_handlers.py: the failure ledger *)
(* ===================================================================== *)

Module FailureHandlers.
Import PyStr.

Definition FAILED_DOWNLOAD_LOG_FILENAME : string := "failed_downloads.txt".

(** [sorted(failed_links)]: the elements of the set in increasing order
    of [str] comparison (code point by code point). *)
Definition sorted (failed_links : gset string) : list string :=
  merge_sort String.le (elements failed_links).

(** The stripped non-blank lines of a text, in file order. *)
Definition stripped_lines (text : string) : list string :=
  strip <$> filter (λ line, truthy (strip line) = true) (file_lines text).

(** [load_failed_downloads]: no file gives the empty set. *)
Definition load_failed_downloads
    (files : gmap string string) (file_path : string) : gset string :=
  match files !! file_path with
  | Some text => list_to_set (stripped_lines text)
  | None => ∅
  end.

(** What the [for link in sorted(...): f.write(f"{link}\n")] loop writes. *)
Definition ledger_text (links : list string) : string :=
  foldr (λ link rest, link +:+ nl +:+ rest) "" links.

(** [save_failed_downloads]: the file is opened with ["w"] and rewritten
    whole.  (The text is the one a POSIX system stores; where ["\n"] is
    stored as ["\r\n"], reading gives the same lines.) *)
Definition save_failed_downloads
    (failed_links : gset string) (file_path : string)
    (files : gmap string string) : gmap string string :=
  <[file_path := ledger_text (sorted failed_links)]> files.

Definition add_failed_download
    (link : string) (file_path : string)
    (files : gmap string string) : gmap string string :=
  let failed_links := load_failed_downloads files file_path in
  save_failed_downloads ({[link]} ∪ failed_links) file_path files.

Definition remove_failed_download
    (link : string) (file_path : string)
    (files : gmap string string) : gmap string string :=
  let failed_links := load_failed_downloads files file_path in
  save_failed_downloads (failed_links ∖ {[link]}) file_path files.

(** A ledger entry that reads back as itself: no line break inside,
    nothing to strip, not empty. *)
Definition clean (e : string) : Prop :=
  every (is_not CR) e ∧ every (is_not LF) e ∧ strip e = e ∧ e ≠ "".

End FailureHandlers.

(* ===================================================================== *)
(** * Records *)
(* ===================================================================== *)

Module Records.

(** A reference to a file of a post: [{"name": ..., "url": ...}]. *)
Record file_ref := { name : string; url : string }.

(** One extracted post, as [process_posts] builds it. *)
Record post := {
  id : string;
  user : string;
  service : string;
  title : string;
  link : string;
  page : Z;
  offset : Z;
  post_files : list file_ref
}.

End Records.

(* ===================================================================== *)
(** * The outside world: HTTP answers and events *)
(* ===================================================================== *)

Module World.

(** File contents. *)
Abbreviation bytes := (list Byte.byte).

(** The [content-length] header of an answer, as [int(...)] sees it:
    absent, present but empty, a decimal integer, or text on which
    [int] raises [ValueError] (with the [str] of that exception). *)
Inductive header :=
| HAbsent
| HEmpty
| HInt (n : Z)
| HBad (msg : string).

(** The answer to [requests.head]: an exception, or a status and the
    [content-length] header. *)
Inductive head_response :=
| HeadRaises
| HeadResponse (status_code : Z) (content_length : header).

(** The answer to [requests.get(..., stream=True)]: an exception (with
    its [str]), or a status, the [content-length] header, the chunks
    [iter_content] yields and are written, and the exception, if any,
    that ends the streaming loop after them. *)
Inductive get_response :=
| GetRaises (e : string)
| GetResponse (status_code : Z) (content_length : header)
              (chunks : list bytes) (stream_error : option string).

(** What the code does to the outside world. *)
Inductive event :=
| Head (url : string)                   (* requests.head(url, ...) *)
| Get (url : string) (range : option Z) (* requests.get, [Range: bytes=k-] *)
| Sleep (factor : Z)                    (* time.sleep(backoff_factor * factor) *)
| Log (msg : string)                  (* print(msg) *).

Definition is_get (e : event) : bool :=
  match e with Get _ _ => true | _ => false end.

End World.

(* ===================================================================== *)
(** * download_utils.py: the resumable transfer engine *)
(* ===================================================================== *)

Module DownloadUtils.
Import World.

(** [_get_total_size]: every failure gives [None]. *)
Definition _get_total_size (r : head_response) : option Z :=
  match r with
  | HeadRaises => None
  | HeadResponse status_code cl =>
      if 400 <=? status_code then None
      else match cl with
           | HInt n => Some n
           | HAbsent | HEmpty | HBad _ => None
           end
  end.

(** How the copy fallback of the finalisation ends when [os.replace]
    is not available. *)
Inductive copy_fallback :=
| CopyOk
| CopyOpenFails (ex : string)           (* nothing was written *)
| CopyWriteFails (ex : string) (written : nat)
| CopyRemoveFails (ex : string).        (* copied, partial not removed *)

(** Everything one pass through the body of the [while] loop asks of the
    outside world. *)
Record attempt_io := {
  head_answer : head_response;      (* line 47 *)
  replace_final_ok : bool;          (* os.replace(file_path, temp_path) *)
  remove_final_ok : bool;           (* os.remove(file_path) *)
  get_answer : get_response;        (* line 73 *)
  remove_part_ok : bool;            (* os.remove(temp_path), lines 78, 88 *)
  open_part_error : option string;  (* open(temp_path, mode) *)
  finalize_replace_ok : bool;       (* os.replace(temp_path, file_path) *)
  finalize_copy : copy_fallback     (* lines 155-161 *)
}.

(** How one pass through the loop body ends. *)
Inductive step :=
| Return (ok : bool) (err : option string) (* a [return] in the body *)
| StartOver                                  (* the 416 branch *)
| Raise (e : string).                      (* [except Exception as e] *)

Definition temp_path_of (file_path : string) : string :=
  file_path +:+ ".part".

(** [os.path.getsize] of a file of the map. *)
Definition getsize (content : bytes) : Z := Z.of_nat (length content).

(** [os.remove(path)] inside [try: ... except Exception: pass]. *)
Definition try_remove (ok : bool) (path : string)
    (fs : gmap string bytes) : gmap string bytes :=
  if ok then delete path fs else fs.

(** The [for chunk in r.iter_content(...)] loop: empty chunks are
    skipped, the others appended. *)
Definition write_chunks (base : bytes) (chunks : list bytes) : bytes :=
  foldl (λ acc chunk, match chunk with [] => acc | _ => acc ++ chunk end)
        base chunks.

(** Lines 149-165. *)
Definition finalize (io : attempt_io) (file_path : string)
    (fs : gmap string bytes) : step * gmap string bytes :=
  let temp_path := temp_path_of file_path in
  let content := default [] (fs !! temp_path) in
  if finalize_replace_ok io then
    (Return true None, <[file_path := content]> (delete temp_path fs))
  else
    match finalize_copy io with
    | CopyOk =>
        (Return true None, <[file_path := content]> (delete temp_path fs))
    | CopyOpenFails ex =>
        (Return false (Some ("Failed to finalize download: " +:+ ex)), fs)
    | CopyWriteFails ex written =>
        (Return false (Some ("Failed to finalize download: " +:+ ex)),
         <[file_path := take written content]> fs)
    | CopyRemoveFails ex =>
        (Return false (Some ("Failed to finalize download: " +:+ ex)),
         <[file_path := content]> fs)
    end.

(** Lines 93-148, after the status checks: [existing_size] is the size
    the body resumes from (0 after a discard). *)
Definition receive (io : attempt_io) (url file_path : string)
    (existing_size : Z) (cl : header) (chunks : list bytes)
    (stream_error : option string) (fs : gmap string bytes)
    : step * gmap string bytes * list event :=
  let temp_path := temp_path_of file_path in
  match cl with
  | HBad msg => (Raise msg, fs, [])         (* int(resp_cl) *)
  | _ =>
      (* without a length on this answer the size is probed again *)
      let probe := match cl with HInt _ => [] | _ => [Head url] end in
      match open_part_error io with
      | Some e => (Raise e, fs, probe)
      | None =>
          let base := if 0 <? existing_size
                      then default [] (fs !! temp_path)   (* "ab" *)
                      else [] in                          (* "wb" *)
          let fs' := <[temp_path := write_chunks base chunks]> fs in
          match stream_error with
          | Some e => (Raise e, fs', probe)
          | None =>
              let '(s, fs'') := finalize io file_path fs' in
              (s, fs'', probe)
          end
      end
  end.

(** Lines 48-49: the final file exists and has the probed size. *)
Definition complete (total_size : option Z) (file_path : string)
    (fs : gmap string bytes) : bool :=
  match fs !! file_path, total_size with
  | Some content, Some n => getsize content =? n
  | _, _ => false
  end.

(** Lines 51-60: a final file of another size is moved to the partial
    path, or removed when the move fails. *)
Definition make_room (io : attempt_io) (total_size : option Z)
    (file_path : string) (fs : gmap string bytes) : gmap string bytes :=
  match fs !! file_path, total_size with
  | Some content, Some _ =>
      if replace_final_ok io
      then <[temp_path_of file_path := content]> (delete file_path fs)
      else try_remove (remove_final_ok io) file_path fs
  | _, _ => fs
  end.

(** Lines 62-64. *)
Definition existing_size_of (file_path : string)
    (fs : gmap string bytes) : Z :=
  match fs !! temp_path_of file_path with
  | Some content => getsize content
  | None => 0
  end.

(** Lines 69-71: the [Range] header, if any. *)
Definition range_of (existing_size : Z) : option Z :=
  if 0 <? existing_size then Some existing_size else None.

(** Lines 73-165: what the body does with the answer to the GET. *)
Definition respond (io : attempt_io) (url file_path : string)
    (fs : gmap string bytes) : step * gmap string bytes * list event :=
  let temp_path := temp_path_of file_path in
  let existing_size := existing_size_of file_path fs in
  match get_answer io with
  | GetRaises e => (Raise e, fs, [])
  | GetResponse status_code cl chunks stream_error =>
      if status_code =? 416 then
        (StartOver, try_remove (remove_part_ok io) temp_path fs, [])
      else
        let ignored := (0 <? existing_size) && (status_code =? 200) in
        let fs := if ignored
                  then try_remove (remove_part_ok io) temp_path fs
                  else fs in
        let existing_size := if ignored then 0 else existing_size in
        if 400 <=? status_code then
          (Raise ("HTTP " +:+ pretty status_code), fs, [])
        else
          receive io url file_path existing_size cl chunks stream_error fs
  end.

(** The body of the [while] loop (lines 45-165), up to the handler. *)
Definition attempt_body (io : attempt_io) (url file_path : string)
    (fs : gmap string bytes) : step * gmap string bytes * list event :=
  let total_size := _get_total_size (head_answer io) in
  if complete total_size file_path fs then
    (Return true None, fs, [Head url])
  else
    let fs := make_room io total_size file_path fs in
    let range := range_of (existing_size_of file_path fs) in
    let '(s, fs, evs) := respond io url file_path fs in
    (s, fs, [Head url; Get url range] ++ evs).

(** What [download_with_resume] leaves behind. *)
Record run := {
  result : bool * option string;
  disk : gmap string bytes;
  trace : list event;
  steps : list step        (* how each pass through the body ended *)
}.

Definition after (s : step) (evs : list event) (r : run) : run :=
  {| result := result r; disk := disk r;
     trace := evs ++ trace r; steps := s :: steps r |}.

(** The [while attempt < max_retries] loop.  [fuel] bounds the number of
    passes; [download_with_resume_total] shows [max_retries] passes are
    always enough. *)
Fixpoint attempts (fuel : nat) (io : Z → attempt_io)
    (url file_path : string) (max_retries attempt : Z)
    (fs : gmap string bytes) : option run :=
  if attempt <? max_retries then
    match fuel with
    | O => None
    | S fuel =>
        let '(s, fs', evs) := attempt_body (io attempt) url file_path fs in
        match s with
        | Return ok err =>
            Some {| result := (ok, err); disk := fs';
                    trace := evs; steps := [s] |}
        | StartOver =>
            let attempt := attempt + 1 in
            after s (evs ++ [Sleep (2 ^ attempt)]) <$>
              attempts fuel io url file_path max_retries attempt fs'
        | Raise e =>
            let attempt := attempt + 1 in
            if max_retries <=? attempt then
              Some {| result := (false, Some e); disk := fs';
                      trace := evs; steps := [s] |}
            else
              after s (evs ++ [Sleep (2 ^ (attempt - 1))]) <$>
                attempts fuel io url file_path max_retries attempt fs'
        end
    end
  else
    Some {| result := (false, Some "Unknown error"); disk := fs;
            trace := []; steps := [] |}.

(** [download_with_resume(url, file_path, headers, cookies, max_retries,
    backoff_factor, chunk_size, show_progress)].  [io k] is what the
    outside world answers during the pass that starts with
    [attempt == k].  Headers, cookies, the chunk size and the progress
    bar do not influence the outcome; directories are not part of the
    file-system map, so [os.makedirs] has nothing to do.  Neither
    [os.makedirs] nor [time.sleep] raises here;
    [DownloadCall.download_with_resume] is the call with their
    exceptions. *)
Definition download_with_resume (io : Z → attempt_io)
    (url file_path : string) (max_retries : Z)
    (fs : gmap string bytes) : option run :=
  attempts (Z.to_nat max_retries) io url file_path max_retries 0 fs.

(** The pass ended in the exception handler. *)
Definition raised (s : step) : bool :=
  match s with Raise _ => true | _ => false end.

(** The GET was answered with status 200. *)
Definition answered_200 (g : get_response) : bool :=
  match g with
  | GetResponse status_code _ _ _ => status_code =? 200
  | GetRaises _ => false
  end.

End DownloadUtils.

(* ===================================================================== *)
(** * batch_file_downloader.py: verification gate and orchestrator *)
(* ===================================================================== *)

Module BatchFileDownloader.
Import Records World DownloadUtils FailureHandlers.

(** The fields of [Config] that [process_post] and [download_file]
    read. *)
Record Config := {
  skip_existed_files : bool;
  strict_file_verification : bool;
  download_retries : Z
}.

(** The two kinds of files the code touches: downloaded files and the
    failure ledger. *)
Record storage := {
  files : gmap string bytes;
  ledgers : gmap string string
}.

(** [download_file(file_url, save_path)]: the transfer, then the ledger
    update.  [None] only if the transfer runs out of fuel. *)
Definition download_file (cfg : Config) (io : Z → attempt_io)
    (file_url save_path : string) (st : storage)
    : option (bool * option string * storage * list event) :=
  r ← download_with_resume io file_url save_path (download_retries cfg)
                           (files st);
  let '(success, error) := result r in
  if success then
    Some (true, None,
          {| files := disk r;
             ledgers := remove_failed_download file_url
                          FAILED_DOWNLOAD_LOG_FILENAME (ledgers st) |},
          trace r)
  else
    Some (false, error,
          {| files := disk r;
             ledgers := add_failed_download file_url
                          FAILED_DOWNLOAD_LOG_FILENAME (ledgers st) |},
          trace r).

(** The three lists of phase 1. *)
Record precheck := {
  files_to_verify : list (string * string * Z);
  files_to_download : list (string * string);
  skipped_count : Z
}.

(** One turn of the pre-check loop (lines 120-154).  [unreadable path]
    says [os.path.getsize(path)] raises [OSError]. *)
Definition pre_check_file (cfg : Config) (unreadable : string → bool)
    (fs : gmap string bytes) (acc : precheck)
    (d : string * string) : precheck :=
  let '(file_url, file_save_path) := d in
  let part_path := file_save_path +:+ ".part" in
  let to_download :=
    {| files_to_verify := files_to_verify acc;
       files_to_download :=
         files_to_download acc ++ [(file_url, file_save_path)];
       skipped_count := skipped_count acc |} in
  let to_verify existing_size :=
    {| files_to_verify :=
         files_to_verify acc ++ [(file_url, file_save_path, existing_size)];
       files_to_download := files_to_download acc;
       skipped_count := skipped_count acc |} in
  match fs !! part_path with
  | Some _ => to_download
  | None =>
      match fs !! file_save_path with
      | Some content =>
          if unreadable file_save_path then to_download
          else
            let existing_size := getsize content in
            if 0 <? existing_size then
              if strict_file_verification cfg then to_verify existing_size
              else
                {| files_to_verify := files_to_verify acc;
                   files_to_download := files_to_download acc;
                   skipped_count := skipped_count acc + 1 |}
            else to_verify existing_size
      | None => to_download
      end
  end.

(** The pre-check loop over the candidates. *)
Definition pre_check_loop (cfg : Config) (unreadable : string → bool)
    (fs : gmap string bytes) (downloads : list (string * string))
    : precheck :=
  foldl (pre_check_file cfg unreadable fs)
        {| files_to_verify := []; files_to_download := [];
           skipped_count := 0 |}
        downloads.

(** Phase 1 (lines 113-157). *)
Definition pre_check (cfg : Config) (unreadable : string → bool)
    (fs : gmap string bytes) (downloads : list (string * string))
    : precheck :=
  if skip_existed_files cfg then
    pre_check_loop cfg unreadable fs downloads
  else
    {| files_to_verify := []; files_to_download := downloads;
       skipped_count := 0 |}.

(** What one call of [verify_file] asks of the outside world. *)
Record verify_io := {
  verify_head : head_response;     (* requests.head(file_url, timeout=5) *)
  verify_replace_ok : bool;        (* os.replace(file_save_path, part_path) *)
  verify_remove_ok : bool          (* os.remove(file_save_path) *)
}.

(** [verify_file] (lines 166-188): [is_complete] and the files after. *)
Definition verify_file (io : verify_io) (file_save_path : string)
    (existing_size : Z) (fs : gmap string bytes)
    : bool * gmap string bytes :=
  match verify_head io with
  | HeadRaises => (false, fs)
  | HeadResponse status_code cl =>
      if status_code =? 200 then
        let check expected_size :=
          if (0 <? expected_size) && (existing_size =? expected_size)
          then (true, fs)
          else if 0 <? expected_size then
            let part_path := file_save_path +:+ ".part" in
            (false,
             match fs !! file_save_path with
             | Some content =>
                 if verify_replace_ok io
                 then <[part_path := content]> (delete file_save_path fs)
                 else try_remove (verify_remove_ok io) file_save_path fs
             | None => fs
             end)
          else (false, fs) in
        match cl with
        | HAbsent => check 0
        | HInt n => check n
        | HEmpty | HBad _ => (false, fs)      (* int(...) raises *)
        end
      else (false, fs)
  end.

(** Phase 2, the calls: every file to verify is checked; the answers are
    paired with their [(url, path)]. *)
Fixpoint verify_all (vio : string → string → verify_io)
    (to_verify : list (string * string * Z)) (fs : gmap string bytes)
    : list (string * string * bool) * gmap string bytes :=
  match to_verify with
  | [] => ([], fs)
  | (file_url, file_save_path, existing_size) :: rest =>
      let '(is_complete, fs') :=
        verify_file (vio file_url file_save_path) file_save_path
                    existing_size fs in
      let '(answers, fs'') := verify_all vio rest fs' in
      ((file_url, file_save_path, is_complete) :: answers, fs'')
  end.

(** Phase 2, one turn of the merge loop (lines 196-208). *)
Definition merge_step (acc : precheck) (a : string * string * bool)
    : precheck :=
  let '(file_url, file_path, is_complete) := a in
  if is_complete then
    {| files_to_verify := files_to_verify acc;
       files_to_download := files_to_download acc;
       skipped_count := skipped_count acc + 1 |}
  else
    {| files_to_verify := files_to_verify acc;
       files_to_download := files_to_download acc ++ [(file_url, file_path)];
       skipped_count := skipped_count acc |}.

(** Phase 2, the merge, over the futures in the order they complete. *)
Definition merge_verified (pc : precheck)
    (completed : list (string * string * bool)) : precheck :=
  foldl merge_step pc completed.

(** An entry of the [failed] list. *)
Record failure := {
  failure_url : string;
  failure_path : string;
  failure_error : option string
}.

(** Phase 3, the downloads (lines 234-271): the transfers in the order
    they were submitted, with the outcome of each. *)
Fixpoint download_all (cfg : Config) (net : string → string → Z → attempt_io)
    (to_download : list (string * string)) (st : storage)
    : option (list (bool * option string) * storage * list event) :=
  match to_download with
  | [] => Some ([], st, [])
  | (file_url, file_save_path) :: rest =>
      '(success, error_msg, st', evs) ←
        download_file cfg (net file_url file_save_path)
                      file_url file_save_path st;
      '(outcomes, st'', evs') ← download_all cfg net rest st';
      Some ((success, error_msg) :: outcomes, st'', evs ++ evs')
  end.

(** One turn of the loop over the futures (lines 243-257). *)
Definition collect_step (acc : Z * list failure)
    (x : (string * string) * (bool * option string)) : Z * list failure :=
  let '(successful, failed) := acc in
  let '((file_url, file_save_path), (success, error_msg)) := x in
  if success then (successful + 1, failed)
  else (successful,
        failed ++ [{| failure_url := file_url;
                      failure_path := file_save_path;
                      failure_error := error_msg |}]).

(** The loop over the futures: [successful] and [failed]. *)
Definition collect (to_download : list (string * string))
    (outcomes : list (bool * option string)) : Z * list failure :=
  foldl collect_step (0, []) (zip to_download outcomes).

(** A transfer that reported success. *)
Definition succeeded (o : bool * option string) : bool := o.1.

(** The dictionary [process_post] returns. *)
Record post_result := {
  total_files : Z;
  successful : Z;
  failed : list failure
}.

(** What the outside world supplies to one call of [process_post]. *)
Record post_io := {
  unreadable : string → bool;
  verify_answers : string → string → verify_io;
  as_completed :
    list (string * string * bool) → list (string * string * bool);
  transfers : string → string → Z → attempt_io
}.

(** A run of [process_post]: what it returns and what it did on the
    way. *)
Record post_run := {
  returned : post_result;
  gate : precheck;              (* after phase 2 *)
  verify_requests : list event; (* the HEAD requests of phase 2 *)
  outcomes : list (bool * option string);
  download_events : list event;
  storage_after : storage
}.

(** [process_post], from the [downloads] list on (lines 104-291).  The
    verifications and the transfers run in thread pools; here they run
    one after the other in the order they were submitted, and the
    verification results are merged in the order [as_completed] gives.
    An interrupt from the keyboard is not part of this definition;
    [process_downloads_interruptible] has it. *)
Definition process_downloads (cfg : Config) (w : post_io)
    (downloads : list (string * string)) (st : storage)
    : option post_run :=
  let total_files := Z.of_nat (length downloads) in
  let pc := pre_check cfg (unreadable w) (files st) downloads in
  let '(answers, fs) :=
    verify_all (verify_answers w) (files_to_verify pc) (files st) in
  let pc := merge_verified pc (as_completed w answers) in
  let requests := (λ v, Head v.1.1) <$> files_to_verify pc in
  let st := {| files := fs; ledgers := ledgers st |} in
  match files_to_download pc with
  | [] =>
      Some {| returned := {| total_files := total_files;
                             successful := total_files;
                             failed := [] |};
              gate := pc; verify_requests := requests;
              outcomes := []; download_events := [];
              storage_after := st |}
  | _ =>
      '(outcomes, st', evs) ←
        download_all cfg (transfers w) (files_to_download pc) st;
      let '(successful, failed) := collect (files_to_download pc) outcomes in
      Some {| returned := {| total_files := total_files;
                             successful := successful + skipped_count pc;
                             failed := failed |};
              gate := pc; verify_requests := requests;
              outcomes := outcomes; download_events := evs;
              storage_after := st' |}
  end.

(** The [downloads] list (lines 94-102).  [save_path k name] is
    [os.path.join(post_folder, f"{k}-{sanitize_filename(name)}")]; the
    sanitiser lives in [format_helpers], outside these sources. *)
Definition downloads_of (save_path : Z → string → string)
    (post_files : list file_ref) : list (string * string) :=
  imap (λ i f, (url f, save_path (Z.of_nat (S i)) (name f))) post_files.


(** A [KeyboardInterrupt] that reaches [process_post] during phase 3
    (lines 234-268).  When it arrives the loop over the futures (lines
    243-257) has read the results of the first [collected] futures; it
    reads no more of them: the handler of lines 258-264 cancels the
    futures and leaves the loop, and an interrupt outside that [try]
    ends in the handler of lines 265-268.  A future a worker has taken
    up is not stopped by [cancel()], and the executor waits for it
    before [process_post] goes on: [in_flight k] says so of the future
    at position [k] of [files_to_download], for the futures that were
    not read.  The others never run. *)
Record interruption := {
  collected : nat;
  in_flight : nat → bool
}.

(** The futures, from position [k] on, that a worker had taken up. *)
Fixpoint taken_up {A} (in_flight : nat → bool) (k : nat) (l : list A)
    : list A :=
  match l with
  | [] => []
  | d :: l =>
      if in_flight k then d :: taken_up in_flight (S k) l
      else taken_up in_flight (S k) l
  end.

(** The transfers that run: all of them, or with an interrupt those
    whose result was read and those in flight. *)
Definition started (i : option interruption)
    (to_download : list (string * string)) : list (string * string) :=
  match i with
  | None => to_download
  | Some x =>
      take (collected x) to_download
      ++ taken_up (in_flight x) (collected x)
                  (drop (collected x) to_download)
  end.

(** The results the loop of lines 243-257 reads. *)
Definition read (i : option interruption)
    (outcomes : list (bool * option string))
    : list (bool * option string) :=
  match i with
  | None => outcomes
  | Some x => take (collected x) outcomes
  end.

(** [process_post], from the [downloads] list on (lines 104-291), with
    the interrupt, if any, that reaches it during phase 3.  As in
    [process_downloads] the transfers run one after the other in the
    order they were submitted; [outcomes] lists the results of the
    transfers that ran, read or not.  After either handler the function
    goes on to line 274 and returns the aggregate of what it read.  An
    interrupt at another point of [process_post] leaves the function as
    an exception: nothing is returned, and such a run is not a run of
    this definition. *)
Definition process_downloads_interruptible (cfg : Config) (w : post_io)
    (i : option interruption)
    (downloads : list (string * string)) (st : storage)
    : option post_run :=
  let total_files := Z.of_nat (length downloads) in
  let pc := pre_check cfg (unreadable w) (files st) downloads in
  let '(answers, fs) :=
    verify_all (verify_answers w) (files_to_verify pc) (files st) in
  let pc := merge_verified pc (as_completed w answers) in
  let requests := (λ v, Head v.1.1) <$> files_to_verify pc in
  let st := {| files := fs; ledgers := ledgers st |} in
  match files_to_download pc with
  | [] =>
      Some {| returned := {| total_files := total_files;
                             successful := total_files;
                             failed := [] |};
              gate := pc; verify_requests := requests;
              outcomes := []; download_events := [];
              storage_after := st |}
  | _ =>
      '(outcomes, st', evs) ←
        download_all cfg (transfers w) (started i (files_to_download pc)) st;
      let '(successful, failed) :=
        collect (files_to_download pc) (read i outcomes) in
      Some {| returned := {| total_files := total_files;
                             successful := successful + skipped_count pc;
                             failed := failed |};
              gate := pc; verify_requests := requests;
              outcomes := outcomes; download_events := evs;
              storage_after := st' |}
  end.

Definition process_post_interruptible (cfg : Config) (w : post_io)
    (i : option interruption)
    (save_path : Z → string → string) (post_files : list file_ref)
    (st : storage) : option post_run :=
  process_downloads_interruptible cfg w i
    (downloads_of save_path post_files) st.

End BatchFileDownloader.

(* ===================================================================== *)
(** * post_extractor.py: offset planner and extraction producer *)
(* ===================================================================== *)

Module PostExtractor.
Import PyStr Records.

(** [is_offset]: an integer literal of at most five characters. *)
Definition is_offset (value : string) : bool :=
  match int value with
  | Some _ => (String.length value <=? 5)%nat
  | None => false
  end.

(** An element of the list [parse_fetch_mode] returns:
    [Union[int, str]]. *)
Inductive plan_item :=
| Offset (o : Z)
| Tag (s : string).

(** One side of a range: the literal [word] stands for [literal]. *)
Definition range_side (word : string) (literal : Z) (side : string)
    : option Z :=
  if String.eqb side word then Some literal else int side.

(** [parse_fetch_mode]; [None] stands for [ValueError]. *)
Definition parse_fetch_mode (fetch_mode : string) (total_count : Z)
    : option (list plan_item) :=
  if String.eqb fetch_mode "all" then
    Some (Offset <$> range0 total_count 50)
  else if isdigit fetch_mode then
    if is_offset fetch_mode
    then (λ n, [Offset n]) <$> int fetch_mode
    else Some [Tag ("id:" +:+ fetch_mode)]
  else if contains "-" fetch_mode then
    match split "-" fetch_mode with
    | [start; end_] =>
        start ← range_side "start" 0 start;
        end_ ← range_side "end" total_count end_;
        if (start <=? total_count) && (end_ <=? total_count) then
          let num_pages := ceil_div (end_ - start) 50 in
          Some ((λ i, Offset (start + Z.of_nat i * 50))
                  <$> seq 0 (Z.to_nat num_pages))
        else
          Some [Tag ("id:" +:+ str start +:+ "-" +:+ str end_)]
    | _ => None                  (* too many values to unpack *)
    end
  else None.

(** The filter on post ids. *)
Inductive id_filter :=
| NoFilter
| RangeFilter (id1 id2 : string)   (* lambda x: id1 <= str(x) <= id2 *)
| SingleFilter (id_range : string) (* lambda x: x == id_range *).

(** [id_filter(x)]; comparison of [str]s is by code points. *)
Definition passes (f : id_filter) (x : string) : bool :=
  match f with
  | NoFilter => true
  | RangeFilter id1 id2 => String.leb id1 x && String.leb x id2
  | SingleFilter id_range => String.eqb x id_range
  end.

(** The filter the specification describes for an ID range [A-B],
    to compare with [passes]: an inclusive comparison of integers. *)
Definition passes_as_integers (a b x : Z) : bool :=
  (Z.min a b <=? x) && (x <=? Z.max a b).

(** How an extraction ends. *)
Inductive exn :=
| IndexError
| UnboundLocalError
| TypeError
| ValueError
| Propagated (e : string).

(** Lines 400-411 and 517-524: from the plan to the filter and the
    offsets that are scanned. *)
Definition plan_filter (offsets : list plan_item) (count : Z)
    : exn + (id_filter * list plan_item) :=
  match offsets with
  | [] => inl IndexError                      (* offsets[0] *)
  | Tag t :: _ =>
      if String.prefix "id:" t then
        match split ":" t with
        | _ :: id_range :: _ =>
            let scan := Offset <$> range0 count 50 in
            if contains "-" id_range then
              match mapM int (split "-" id_range) with
              | Some ints =>
                  match str <$> merge_sort Z.le ints with
                  | [id1; id2] => inr (RangeFilter id1 id2, scan)
                  | _ => inl ValueError
                  end
              | None => inl ValueError
              end
            else inr (SingleFilter id_range, scan)
        | _ => inl IndexError
        end
      else inr (NoFilter, offsets)
  | Offset _ :: _ => inr (NoFilter, offsets)
  end.

(** An entry of a listing page. *)
Record listed := { l_id : string; l_user : string; l_service : string }.

(** The detail of a listed post, from the cache under [temp_json] or
    from [fetch_post]: the inner post with the file list lines 260-316
    assemble from it, an [HTTPError], or another exception. *)
Record detail := {
  d_id : string; d_user : string; d_service : string; d_title : string;
  d_files : list file_ref
}.
Inductive detail_answer :=
| DetailOk (d : detail)
| DetailHTTPError
| DetailRaises (e : string).

(** What the site answers: listing pages ([fetch_posts], [inl e] when
    it raises [e] after its retries) and post details. *)
Record site := {
  fetch_posts : Z → string + list listed;
  post_detail : listed → detail_answer
}.

(** [process_posts] (lines 215-326). *)
Fixpoint process_posts (w : site) (base_server : string)
    (posts : list listed) (page_number offset : Z)
    (save_empty_files : bool) (f : id_filter) : exn + list post :=
  match posts with
  | [] => inr []
  | original_post :: rest =>
      let continue :=
        process_posts w base_server rest page_number offset
                      save_empty_files f in
      match post_detail w original_post with
      | DetailRaises e => inl (Propagated e)
      | DetailHTTPError => continue            (* rate limited *)
      | DetailOk d =>
          if negb (passes f (d_id d)) then continue
          else if negb save_empty_files && bool_decide (d_files d = [])
          then continue
          else
            let result :=
              {| id := d_id d; user := d_user d; service := d_service d;
                 title := d_title d;
                 link := base_server +:+ "/" +:+ d_service d +:+ "/user/"
                         +:+ d_user d +:+ "/post/" +:+ d_id d;
                 page := page_number; offset := offset;
                 post_files := d_files d |} in
            match continue with
            | inl e => inl e
            | inr processed => inr (result :: processed)
            end
      end
  end.

(** How a run of an extraction ends. *)
Inductive ending :=
| Exhausted              (* the loop over the offsets ran to its end *)
| FoundBoth              (* both boundary ids were seen *)
| InvalidFetchMode       (* ValueError printed, nothing returned *)
| EmptyProfile           (* count == 0 in extract_posts *)
| Raised (e : exn).

(** A run: the offsets asked of [fetch_posts], the posts produced, the
    ending. *)
Record extraction := {
  fetched : list Z;
  produced : list post;
  ended : ending
}.

Definition prepend (o : list Z) (ps : list post) (r : extraction)
    : extraction :=
  {| fetched := o ++ fetched r; produced := ps ++ produced r;
     ended := ended r |}.

(** The [for post in processed_posts] loop of the generator (lines
    543-551): the posts yielded and, when the loop leaves the generator,
    how. *)
Fixpoint yield_posts (f : id_filter) (found_ids : gset string)
    (processed : list post) : list post * gset string * option ending :=
  match processed with
  | [] => ([], found_ids, None)
  | p :: rest =>
      match f with
      | NoFilter =>
          let '(ys, found, e) := yield_posts f found_ids rest in
          (p :: ys, found, e)
      | SingleFilter _ =>
          (* id1 is not bound on this path *)
          ([p], {[id p]} ∪ found_ids, Some (Raised UnboundLocalError))
      | RangeFilter id1 id2 =>
          let found_ids := {[id p]} ∪ found_ids in
          if bool_decide (id1 ∈ found_ids) && bool_decide (id2 ∈ found_ids)
          then ([p], found_ids, Some FoundBoth)
          else
            let '(ys, found, e) := yield_posts f found_ids rest in
            (p :: ys, found, e)
      end
  end.

(** The main loop of [extract_posts_streaming] (lines 527-551). *)
Fixpoint stream_pages (w : site) (base_server : string)
    (save_empty_files : bool) (f : id_filter) (found_ids : gset string)
    (offsets : list plan_item) : extraction :=
  match offsets with
  | [] => {| fetched := []; produced := []; ended := Exhausted |}
  | Tag _ :: _ =>
      {| fetched := []; produced := []; ended := Raised TypeError |}
  | Offset offset :: rest =>
      let page_number := offset / 50 + 1 in
      match fetch_posts w offset with
      | inl e =>
          {| fetched := [offset]; produced := [];
             ended := Raised (Propagated e) |}
      | inr post_data =>
          match process_posts w base_server post_data page_number offset
                              save_empty_files f with
          | inl e =>
              {| fetched := [offset]; produced := []; ended := Raised e |}
          | inr processed =>
              let '(ys, found, e) := yield_posts f found_ids processed in
              match e with
              | Some e =>
                  {| fetched := [offset]; produced := ys; ended := e |}
              | None =>
                  prepend [offset] ys
                    (stream_pages w base_server save_empty_files f found
                                  rest)
              end
          end
      end
  end.

(** [extract_posts_streaming(profile_url, fetch_mode)], after the
    profile call gave [count] posts. *)
Definition extract_posts_streaming (w : site) (base_server : string)
    (save_empty_files : bool) (fetch_mode : string) (count : Z)
    : extraction :=
  match parse_fetch_mode fetch_mode count with
  | None => {| fetched := []; produced := []; ended := InvalidFetchMode |}
  | Some offsets =>
      match plan_filter offsets count with
      | inl e => {| fetched := []; produced := []; ended := Raised e |}
      | inr (f, offsets) =>
          stream_pages w base_server save_empty_files f ∅ offsets
      end
  end.

(** The main loop of [extract_posts] (lines 423-449): [produced] is
    [new_posts]. *)
Fixpoint collect_pages (w : site) (base_server : string)
    (save_empty_files : bool) (f : id_filter) (found_ids : gset string)
    (offsets : list plan_item) : extraction :=
  match offsets with
  | [] => {| fetched := []; produced := []; ended := Exhausted |}
  | Tag _ :: _ =>
      {| fetched := []; produced := []; ended := Raised TypeError |}
  | Offset offset :: rest =>
      let page_number := offset / 50 + 1 in
      match fetch_posts w offset with
      | inl e =>
          {| fetched := [offset]; produced := [];
             ended := Raised (Propagated e) |}
      | inr post_data =>
          match process_posts w base_server post_data page_number offset
                              save_empty_files f with
          | inl e =>
              {| fetched := [offset]; produced := []; ended := Raised e |}
          | inr [] =>
              prepend [offset] []
                (collect_pages w base_server save_empty_files f found_ids
                               rest)
          | inr processed =>
              match f with
              | NoFilter =>
                  prepend [offset] processed
                    (collect_pages w base_server save_empty_files f
                                   found_ids rest)
              | SingleFilter _ =>
                  {| fetched := [offset]; produced := processed;
                     ended := Raised UnboundLocalError |}
              | RangeFilter id1 id2 =>
                  let found_ids :=
                    list_to_set (id <$> processed) ∪ found_ids in
                  if bool_decide (id1 ∈ found_ids)
                     && bool_decide (id2 ∈ found_ids)
                  then {| fetched := [offset]; produced := processed;
                          ended := FoundBoth |}
                  else
                    prepend [offset] processed
                      (collect_pages w base_server save_empty_files f
                                     found_ids rest)
              end
          end
      end
  end.

(** [extract_posts(profile_url, fetch_mode)], after the profile call
    gave [count] posts. *)
Definition extract_posts (w : site) (base_server : string)
    (save_empty_files : bool) (fetch_mode : string) (count : Z)
    : extraction :=
  if count =? 0 then
    {| fetched := []; produced := []; ended := EmptyProfile |}
  else
    match parse_fetch_mode fetch_mode count with
    | None => {| fetched := []; produced := []; ended := InvalidFetchMode |}
    | Some offsets =>
        match plan_filter offsets count with
        | inl e => {| fetched := []; produced := []; ended := Raised e |}
        | inr (f, offsets) =>
            collect_pages w base_server save_empty_files f ∅ offsets
        end
    end.

End PostExtractor.

(* ===================================================================== *)
(** * parallel_extract_download.py: the extraction worker *)
(* ===================================================================== *)

Module ParallelExtractDownload.
Import Records World PostExtractor.

(** [Queue(maxsize=10)] *)
Definition QUEUE_MAXSIZE : nat := 10.

(** [post_queue.put(item, timeout=10)] while the download workers take
    [taken] items off the queue before the wait is over: the queue
    after, and whether the item went in ([false]: [queue.Full]). *)
Definition put {A} (maxsize taken : nat) (queue : list A) (item : A)
    : list A * bool :=
  let queue := drop taken queue in
  if (length queue <? maxsize)%nat then (queue ++ [item], true)
  else (queue, false).

(** The state of the producer: the queue, [download_stats["total"]],
    the lines printed and, by position in the stream, the records that
    went into the queue and those that did not. *)
Record producer := {
  queue : list post;
  total : Z;
  printed : list event;
  enqueued : list nat;
  dropped : list nat;
  extraction_done : bool
}.

Definition start : producer :=
  {| queue := []; total := 0; printed := []; enqueued := []; dropped := [];
     extraction_done := false |}.

(** The line printed when a [put] raises [queue.Full], whose [str] is
    empty. *)
Definition warning : event :=
  Log "Warning: Could not put post in queue: ".

(** One turn of the [for post in extract_posts_streaming(...)] loop
    (lines 58-65) for the record at position [k]. *)
Definition extraction_step (taken : nat → nat) (st : producer)
    (k : nat) (p : post) : producer :=
  let '(q, ok) := put QUEUE_MAXSIZE (taken k) (queue st) p in
  if ok then
    {| queue := q; total := total st + 1; printed := printed st;
       enqueued := enqueued st ++ [k]; dropped := dropped st;
       extraction_done := extraction_done st |}
  else
    (* Continue with next post even if queue is full *)
    {| queue := q; total := total st + 1;
       printed := printed st ++ [warning];
       enqueued := enqueued st; dropped := dropped st ++ [k];
       extraction_done := extraction_done st |}.

(** The loop over the first [n] records of the stream. *)
Fixpoint extraction_loop (taken : nat → nat) (posts : list post)
    (n : nat) : producer :=
  match n with
  | O => start
  | S k =>
      let st := extraction_loop taken posts k in
      match posts !! k with
      | Some p => extraction_step taken st k p
      | None => st
      end
  end.

(** [extraction_worker] (lines 55-72) on the stream a run of the
    generator gives.  The line printed for an exception of the
    generator is recorded without the text of the exception. *)
Definition extraction_worker (taken : nat → nat) (s : extraction)
    : producer :=
  let st := extraction_loop taken (produced s) (length (produced s)) in
  let printed :=
    match ended s with
    | Raised _ => printed st ++ [Log "Error during extraction"]
    | _ => printed st
    end in
  {| queue := queue st; total := total st; printed := printed;
     enqueued := enqueued st; dropped := dropped st;
     extraction_done := true |}.

End ParallelExtractDownload.

(* ===================================================================== *)
(** * Reading traces *)
(* ===================================================================== *)

Module Events.
Import World.

Definition is_sleep (e : event) : bool :=
  match e with Sleep _ => true | _ => false end.

Definition is_head (e : event) : bool :=
  match e with Head _ => true | _ => false end.

End Events.

(* ===================================================================== *)
(** * Python's division of integers into a float *)
(* ===================================================================== *)

Module PyFloat.

(** Python divides two [int]s into a float, the binary64 number nearest
    to the exact quotient, and raises [OverflowError] when that number
    is beyond the floats.  The range of the exponent is not modelled:
    the quotients by 50 met here are zero or at least [1/50], and those
    beyond the floats come from numbers of more than 300 digits. *)

(** A float that is not zero, as a mantissa and an exponent: [(m, e)]
    stands for [m * 2 ** e]. *)
Definition float : Type := Z * Z.

(** The integer nearest to [num / den], the even one of two that are
    equally near. *)
Definition round_half_even (num den : Z) : Z :=
  let q := num / den in
  let r := num mod den in
  if 2 * r <? den then q
  else if den <? 2 * r then q + 1
  else if Z.even q then q else q + 1.

(** [n] over [k] scaled by [2 ** (- e)], as a fraction of integers. *)
Definition scaled (n k e : Z) : Z * Z :=
  (n * 2 ^ Z.max 0 (- e), k * 2 ^ Z.max 0 e).

(** The float nearest to [n / k] for [0 < n] and [0 < k]: the exponent
    is the one that leaves 53 bits before the point. *)
Definition nearest (n k : Z) : float :=
  let e := Z.log2 n - Z.log2 k - 53 in
  let e := if 2 ^ 53 <=? (scaled n k e).1 / (scaled n k e).2
           then e + 1 else e in
  (round_half_even (scaled n k e).1 (scaled n k e).2, e).

(** [a / k] for [int]s [a] and [0 < k]. *)
Definition truediv (a k : Z) : float :=
  if a =? 0 then (0, 0)
  else if a <? 0 then let '(m, e) := nearest (- a) k in (- m, e)
  else nearest a k.

(** [math.ceil(x)] *)
Definition ceil (x : float) : Z :=
  let '(m, e) := x in
  if 0 <=? e then m * 2 ^ e else - ((- m) / 2 ^ (- e)).

End PyFloat.

(* ===================================================================== *)
(** * download_utils.py: a call that can raise *)
(* ===================================================================== *)

Module DownloadCall.
Import World DownloadUtils.

(** What a call of [download_with_resume] asks of the outside world
    beyond the passes of its loop.  [os.makedirs] (line 41) stands
    before the loop, outside every [try].  [time.sleep] (lines 82 and
    172) raises for a delay that is negative, not a number or too
    large: [sleep_error m] is the exception of
    [time.sleep(backoff_factor * m)], if it raises. *)
Record call_io := {
  makedirs_error : option string;
  sleep_error : Z → option string;
  passes : Z → attempt_io
}.

(** How a call ends: with an exception that leaves the function, the
    files and the events being what they are at that point, or with
    the value it returns. *)
Inductive outcome :=
| Raises (e : string) (fs : gmap string bytes) (evs : list event)
| Returns (r : run).

(** How the loop goes on after a pass that did not return. *)
Inductive next :=
| Leave (e : string)                       (* the exception leaves *)
| Fail (err : string)                      (* [return False, str(e)] *)
| Again (attempt : Z) (evs : list event).  (* the next pass *)

(** The handler [except Exception as e] (lines 167-172), entered with
    the counter at [attempt].  The sleep of line 172 stands in the
    handler: its exception leaves the function. *)
Definition handler (io : call_io) (max_retries attempt : Z) (e : string)
    : next :=
  let attempt := attempt + 1 in
  if max_retries <=? attempt then Fail e
  else
    match sleep_error io (2 ^ (attempt - 1)) with
    | Some e' => Leave e'
    | None => Again attempt [Sleep (2 ^ (attempt - 1))]
    end.

(** The 416 branch after the partial file is removed (lines 81-83).
    The sleep of line 82 stands in the [try]: its exception goes to
    the handler. *)
Definition start_over (io : call_io) (max_retries attempt : Z) : next :=
  let attempt := attempt + 1 in
  match sleep_error io (2 ^ attempt) with
  | Some e => handler io max_retries attempt e
  | None => Again attempt [Sleep (2 ^ attempt)]
  end.

Definition after_call (s : step) (evs : list event) (o : outcome)
    : outcome :=
  match o with
  | Raises e fs evs' => Raises e fs (evs ++ evs')
  | Returns r => Returns (after s evs r)
  end.

(** The [while attempt < max_retries] loop (lines 44-174), the passes
    being those of [DownloadUtils.attempt_body]. *)
Fixpoint attempts_call (fuel : nat) (io : call_io)
    (url file_path : string) (max_retries attempt : Z)
    (fs : gmap string bytes) : option outcome :=
  if attempt <? max_retries then
    match fuel with
    | O => None
    | S fuel =>
        let '(s, fs', evs) :=
          attempt_body (passes io attempt) url file_path fs in
        let go n :=
          match n with
          | Leave e => Some (Raises e fs' evs)
          | Fail err =>
              Some (Returns {| result := (false, Some err); disk := fs';
                               trace := evs; steps := [s] |})
          | Again attempt evs' =>
              after_call s (evs ++ evs') <$>
                attempts_call fuel io url file_path max_retries attempt fs'
          end in
        match s with
        | Return ok err =>
            Some (Returns {| result := (ok, err); disk := fs';
                             trace := evs; steps := [s] |})
        | StartOver => go (start_over io max_retries attempt)
        | Raise e => go (handler io max_retries attempt e)
        end
    end
  else
    Some (Returns {| result := (false, Some "Unknown error"); disk := fs;
                     trace := []; steps := [] |}).

(** [download_with_resume(url, file_path, headers, cookies, max_retries,
    backoff_factor, chunk_size, show_progress)] as a call that can
    raise (lines 38-174).  Exceptions that are not [Exception]s, such
    as a keyboard interrupt, are not part of the model. *)
Definition download_with_resume (io : call_io)
    (url file_path : string) (max_retries : Z)
    (fs : gmap string bytes) : option outcome :=
  match makedirs_error io with
  | Some e => Some (Raises e fs [])
  | None =>
      attempts_call (Z.to_nat max_retries) io url file_path max_retries 0 fs
  end.

(** The files and the events a call leaves behind. *)
Definition files_after (o : outcome) : gmap string bytes :=
  match o with
  | Raises _ fs _ => fs
  | Returns r => disk r
  end.

Definition events_of (o : outcome) : list event :=
  match o with
  | Raises _ _ evs => evs
  | Returns r => trace r
  end.

(** A world in which [os.makedirs] and [time.sleep] do not raise. *)
Definition quiet (passes : Z → attempt_io) : call_io :=
  {| makedirs_error := None; sleep_error := λ _, None; passes := passes |}.

End DownloadCall.

(* ===================================================================== *)
(** * failure_handlers.py: retrying what the ledger holds *)
(* ===================================================================== *)

Module RetryFailedDownloads.
Import World DownloadUtils FailureHandlers BatchFileDownloader.

(** The line the loop logs for a link (lines 95, 98 and 101). *)
Inductive entry :=
| Downloaded                          (* "Retried and downloaded" *)
| RetryFailed (err : option string)   (* "Retry failed for" *)
| UnexpectedError (e : string).       (* "Unexpected error retrying" *)

Definition is_downloaded (e : entry) : bool :=
  match e with Downloaded => true | _ => false end.

(** The line logged for a call that ended with [o]. *)
Definition entry_of (o : DownloadCall.outcome) : entry :=
  match o with
  | DownloadCall.Returns r =>
      if (result r).1 then Downloaded else RetryFailed (result r).2
  | DownloadCall.Raises e _ _ => UnexpectedError e
  end.

(** The state of the loop over the ledger (lines 78-102): the set
    [still_failed], the files, the events, and the line logged for
    each link tried so far. *)
Record retry := {
  still_failed : gset string;
  store : storage;
  requests : list event;
  logged : list (string * entry)
}.

(** One turn of the loop (lines 81-102) for [url], whose call of
    [download_with_resume] ended with [o]. *)
Definition retry_step (url : string) (o : DownloadCall.outcome)
    (acc : retry) : retry :=
  match o with
  | DownloadCall.Returns r =>
      let '(success, err) := result r in
      if success then
        {| still_failed := still_failed acc;
           store :=
             {| files := disk r;
                ledgers := remove_failed_download url
                             FAILED_DOWNLOAD_LOG_FILENAME
                             (ledgers (store acc)) |};
           requests := requests acc ++ trace r;
           logged := logged acc ++ [(url, Downloaded)] |}
      else
        {| still_failed := {[url]} ∪ still_failed acc;
           store := {| files := disk r; ledgers := ledgers (store acc) |};
           requests := requests acc ++ trace r;
           logged := logged acc ++ [(url, RetryFailed err)] |}
  | DownloadCall.Raises e fs evs =>
      {| still_failed := {[url]} ∪ still_failed acc;
         store := {| files := fs; ledgers := ledgers (store acc) |};
         requests := requests acc ++ evs;
         logged := logged acc ++ [(url, UnexpectedError e)] |}
  end.

(** The [for url in sorted(failed)] loop.  [save_path url] is
    [str(Path(download_dir) / Path(url).name)], and [net url] is what
    the outside world answers to the call for [url].  [None] only if a
    transfer runs out of fuel. *)
Fixpoint retry_loop (save_path : string → string)
    (net : string → DownloadCall.call_io) (retries : Z)
    (urls : list string) (acc : retry) : option retry :=
  match urls with
  | [] => Some acc
  | url :: rest =>
      o ← DownloadCall.download_with_resume (net url) url (save_path url)
                                            retries (files (store acc));
      retry_loop save_path net retries rest (retry_step url o acc)
  end.

(** How a call of [retry_failed_downloads] ends. *)
Inductive retried :=
| MkdirError (e : string) (* Path(download_dir).mkdir, line 69 *)
| AttributeError          (* cfg.download_retries, cfg.download_backoff *)
| Returned (r : retry).

(** [retry_failed_downloads(download_dir, max_retries, backoff)] (lines
    53-109).  [mkdir_error] is the exception of the [mkdir] of line 69,
    if it raises.  The defaults of [max_retries] and [backoff] are read
    from the configuration as [cfg.download_retries] and
    [cfg.download_backoff]; the class [Config] of [config.py] has no
    such fields, so with a ledger that is not empty and one of the two
    left at [None] the call raises [AttributeError] before any
    transfer.  The value of [backoff] scales the sleeps, whose
    exceptions [net] holds.  [load_config] is taken to return. *)
Definition retry_failed_downloads {B} (save_path : string → string)
    (mkdir_error : option string)
    (net : string → DownloadCall.call_io)
    (max_retries : option Z) (backoff : option B) (st : storage)
    : option retried :=
  let failed :=
    load_failed_downloads (ledgers st) FAILED_DOWNLOAD_LOG_FILENAME in
  if decide (failed = ∅) then
    Some (Returned {| still_failed := ∅; store := st; requests := [];
                      logged := [] |})
  else
    match mkdir_error with
    | Some e => Some (MkdirError e)
    | None =>
        match max_retries, backoff with
        | Some retries, Some _ =>
            r ← retry_loop save_path net retries (sorted failed)
                   {| still_failed := ∅; store := st; requests := [];
                      logged := [] |};
            Some (Returned
                    {| still_failed := still_failed r;
                       store :=
                         {| files := files (store r);
                            ledgers :=
                              save_failed_downloads (still_failed r)
                                FAILED_DOWNLOAD_LOG_FILENAME
                                (ledgers (store r)) |};
                       requests := requests r;
                       logged := logged r |})
        | _, _ => Some AttributeError
        end
    end.

End RetryFailedDownloads.

(* ===================================================================== *)
(** * post_extractor.py: the calls to the site *)
(* ===================================================================== *)

Module ApiClient.
Import PyStr Records PostExtractor.

(** The exceptions the callers tell apart: [requests.HTTPError], which
    [raise_for_status] raises, and any other [Exception] (with its
    [str]). *)
Inductive api_exn :=
| HTTPError (status_code : Z)
| OtherError (e : string).

(** The answer to one [requests.get(url, ...)]: an exception, or a
    response with its status and what [resp.json()] gives ([inl e] when
    it raises [e]). *)
Inductive api_answer (A : Type) :=
| GetFails (e : api_exn)
| Response (status_code : Z) (json : string + A).
Arguments GetFails {A} e.
Arguments Response {A} status_code json.

(** What the calls do to the outside world.  Pauses are counted in
    half seconds: [time.sleep(0.5 * (attempt + 1))] is
    [Pause (attempt + 1)] and [time.sleep(2 * (attempt + 1))] is
    [Pause (4 * (attempt + 1))]. *)
Inductive api_event :=
| Request (url : string)
| Pause (half_seconds : Z).

Definition is_request (e : api_event) : bool :=
  match e with Request _ => true | Pause _ => false end.

(** [resp.raise_for_status()]: an [HTTPError] for a status from 400 to
    599. *)
Definition raise_for_status (status_code : Z) : option api_exn :=
  if (400 <=? status_code) && (status_code <? 600)
  then Some (HTTPError status_code) else None.

(** [resp.raise_for_status(); return resp.json()] on an answer: the
    value returned, or the exception that reaches the handler. *)
Definition answer_outcome {A} (a : api_answer A) : api_exn + A :=
  match a with
  | GetFails e => inl e
  | Response status_code json =>
      match raise_for_status status_code with
      | Some e => inl e
      | None =>
          match json with
          | inl e => inl (OtherError e)
          | inr v => inr v
          end
      end
  end.

(** The [for attempt in range(3)] loop of [fetch_user] (lines 133-148)
    and of [fetch_posts] (lines 186-201), over the attempts that are
    left.  [answers k] is what the site answers to the request of
    attempt [k]; [inl last_exc] is [raise last_exc]. *)
Fixpoint fetch_loop {A} (answers : Z → api_answer A) (url : string)
    (attempts : list Z) (last_exc : option api_exn)
    : (option api_exn + A) * list api_event :=
  match attempts with
  | [] => (inl last_exc, [])
  | attempt :: rest =>
      match answer_outcome (answers attempt) with
      | inr v => (inr v, [Request url])
      | inl e =>
          let pause :=
            if attempt <? 2 then [Pause (attempt + 1)] else [] in
          let '(r, evs) := fetch_loop answers url rest (Some e) in
          (r, Request url :: pause ++ evs)
      end
  end.

(** [fetch_user(base_api_url, service, domain, user_id)] *)
Definition fetch_user {A} (answers : Z → api_answer A)
    (base_api_url service user_id : string)
    : (option api_exn + A) * list api_event :=
  let url := base_api_url +:+ "/" +:+ service +:+ "/user/" +:+ user_id
             +:+ "/profile" in
  fetch_loop answers url [0; 1; 2] None.

(** [fetch_posts(base_api_url, domain, service, user_id, offset)] *)
Definition fetch_posts_url (base_api_url service user_id : string)
    (offset : Z) : string :=
  if offset =? 0
  then base_api_url +:+ "/" +:+ service +:+ "/user/" +:+ user_id
       +:+ "/posts"
  else base_api_url +:+ "/" +:+ service +:+ "/user/" +:+ user_id
       +:+ "/posts?o=" +:+ str offset.

Definition fetch_posts {A} (answers : Z → api_answer A)
    (base_api_url service user_id : string) (offset : Z)
    : (option api_exn + A) * list api_event :=
  fetch_loop answers (fetch_posts_url base_api_url service user_id offset)
             [0; 1; 2] None.

(** The [for attempt in range(4)] loop of [fetch_post] (lines 156-175):
    a 403 before the last attempt is waited out and is not an
    exception. *)
Fixpoint fetch_post_loop {A} (answers : Z → api_answer A) (url : string)
    (attempts : list Z) (last_exc : option api_exn)
    : (option api_exn + A) * list api_event :=
  match attempts with
  | [] => (inl last_exc, [])
  | attempt :: rest =>
      let rate_limited :=
        match answers attempt with
        | Response status_code _ => (status_code =? 403) && (attempt <? 3)
        | GetFails _ => false
        end in
      if rate_limited then
        let '(r, evs) := fetch_post_loop answers url rest last_exc in
        (r, Request url :: Pause (4 * (attempt + 1)) :: evs)
      else
        match answer_outcome (answers attempt) with
        | inr v => (inr v, [Request url])
        | inl e =>
            let pause :=
              if attempt <? 3 then [Pause (attempt + 1)] else [] in
            let '(r, evs) := fetch_post_loop answers url rest (Some e) in
            (r, Request url :: pause ++ evs)
        end
  end.

(** [fetch_post(base_api_url, domain, service, user_id, post_id)] *)
Definition fetch_post {A} (answers : Z → api_answer A)
    (base_api_url service user_id post_id : string)
    : (option api_exn + A) * list api_event :=
  let url := base_api_url +:+ "/" +:+ service +:+ "/user/" +:+ user_id
             +:+ "/post/" +:+ post_id in
  fetch_post_loop answers url [0; 1; 2; 3] None.

(** Lines 230-242 of [process_posts]: the detail of a listed post comes
    from the cache under [temp_json] when the file is there, and from
    [fetch_post] otherwise; an [HTTPError] is caught ("Rate limited"),
    any other exception leaves [process_posts]. *)
Definition post_detail_of (cached : listed → option detail)
    (answers : listed → Z → api_answer detail) (base_api_url : string)
    (l : listed) : detail_answer :=
  match cached l with
  | Some d => DetailOk d
  | None =>
      match (fetch_post (answers l) base_api_url
                        (l_service l) (l_user l) (l_id l)).1 with
      | inr d => DetailOk d
      | inl (Some (HTTPError _)) => DetailHTTPError
      | inl (Some (OtherError e)) => DetailRaises e
      | inl None =>
          DetailRaises "exceptions must derive from BaseException"
      end
  end.

(** [parts[-k]] for [k >= 1]; [None] stands for [IndexError]. *)
Definition from_end {A} (parts : list A) (k : nat) : option A :=
  if (k <=? length parts)%nat then parts !! (length parts - k)%nat
  else None.

(** [get_artist_info(profile_url)]: [(service, user_id)]. *)
Definition get_artist_info (profile_url : string)
    : option (string * string) :=
  let parts := split "/" profile_url in
  service ← from_end parts 3;
  user_id ← from_end parts 1;
  Some (service, user_id).

(** What [get_domains()] returns: the domains under the keys
    ["kemono"] and ["coomer"], which it insists on, and the values
    under any other key of [domain.json]. *)
Record domains := {
  kemono : string;
  coomer : string;
  other_domains : list string
}.

(** [get_base_config(profile_url)]:
    [(BASE_API_URL, BASE_SERVER, BASE_DIR)]. *)
Definition get_base_config (d : domains) (profile_url : string)
    : exn + (string * string * string) :=
  match split "/" profile_url !! 2%nat with
  | None => inl IndexError
  | Some domain =>
      if bool_decide (domain ∈ kemono d :: coomer d :: other_domains d)
      then
        let base_dir :=
          if String.eqb domain (kemono d) then "kemono"
          else if String.eqb domain (coomer d) then "coomer"
          else default "" (head (split "." domain)) in
        inr ("https://" +:+ domain +:+ "/api/v1",
             "https://" +:+ domain, base_dir)
      else inl ValueError
  end.

End ApiClient.

(* ===================================================================== *)
(** * batch_file_downloader.py: the posts of a JSON file *)
(* ===================================================================== *)

Module BatchDownload.
Import PyStr Records BatchFileDownloader.






End BatchDownload.

(* ===================================================================== *)
(** * config.py: the configuration *)
(* ===================================================================== *)

Module ConfigFile.

(** A value of a JSON document.  A float is written [VFloat m e] for
    [m * 2 ** e]; the default [0.5] is [VFloat 1 (-1)]. *)
Inductive value :=
| VNone
| VBool (b : bool)
| VInt (n : Z)
| VFloat (mantissa exponent : Z)
| VStr (s : string)
| VOther (json : string)     (* an array or an object, by its text *).

(** The dataclass [Config] (lines 11-43).  The annotations are not
    enforced: a field holds whatever value it is given. *)
Record Config := {
  get_empty_posts : value;
  process_from_oldest : value;
  post_info : value;
  save_info : value;
  save_preview : value;
  skip_existed_files : value;
  post_folder_name : value;
  coomer_api_token : value;
  coomer_cookie : value;
  coomer_username : value;
  coomer_password : value;
  favorites_endpoint : value;
  favorites_limit : value;
  favorites_page_size : value;
  favorites_rate_limit_seconds : value;
  favorites_extract_workers : value;
  favorites_download_workers : value;
  download_max_workers : value;
  post_download_delay_seconds : value;
  file_verify_workers : value;
  strict_file_verification : value;
  use_parallel_extract_download : value;
  parallel_download_workers : value;
  use_concurrent_post_processing : value;
  concurrent_post_workers : value
}.

(** [Config()]: the defaults of the dataclass. *)
Definition default_config : Config :=
  {| get_empty_posts := VBool false;
     process_from_oldest := VBool false;
     post_info := VStr "md";
     save_info := VBool false;
     save_preview := VBool false;
     skip_existed_files := VBool true;
     post_folder_name := VStr "id";
     coomer_api_token := VNone;
     coomer_cookie := VNone;
     coomer_username := VNone;
     coomer_password := VNone;
     favorites_endpoint := VNone;
     favorites_limit := VNone;
     favorites_page_size := VInt 50;
     favorites_rate_limit_seconds := VFloat 1 (-1);
     favorites_extract_workers := VInt 3;
     favorites_download_workers := VInt 2;
     download_max_workers := VInt 5;
     post_download_delay_seconds := VFloat 1 (-1);
     file_verify_workers := VInt 10;
     strict_file_verification := VBool false;
     use_parallel_extract_download := VBool true;
     parallel_download_workers := VInt 3;
     use_concurrent_post_processing := VBool true;
     concurrent_post_workers := VInt 3 |}.

(** [data.get(key)] and [data.get(key, default)] *)
Definition get (data : gmap string value) (key : string) : value :=
  default VNone (data !! key).
Definition get_or (data : gmap string value) (key : string)
    (default_value : value) : value :=
  default default_value (data !! key).

(** [Config.from_dict(data)] (lines 45-74). *)
Definition from_dict (data : gmap string value) : Config :=
  {| get_empty_posts := get_or data "get_empty_posts" (VBool false);
     process_from_oldest := get_or data "process_from_oldest" (VBool false);
     post_info := get_or data "post_info" (VStr "md");
     save_info := get_or data "save_info" (VBool false);
     save_preview := get_or data "save_preview" (VBool false);
     skip_existed_files := get_or data "skip_existed_files" (VBool true);
     post_folder_name := get_or data "post_folder_name" (VStr "id");
     coomer_api_token := get data "coomer_api_token";
     coomer_cookie := get data "coomer_cookie";
     coomer_username := get data "coomer_username";
     coomer_password := get data "coomer_password";
     favorites_endpoint := get data "favorites_endpoint";
     favorites_limit := get data "favorites_limit";
     favorites_page_size := get_or data "favorites_page_size" (VInt 50);
     favorites_rate_limit_seconds :=
       get_or data "favorites_rate_limit_seconds" (VFloat 1 (-1));
     favorites_extract_workers :=
       get_or data "favorites_extract_workers" (VInt 3);
     favorites_download_workers :=
       get_or data "favorites_download_workers" (VInt 2);
     download_max_workers := get_or data "download_max_workers" (VInt 5);
     post_download_delay_seconds :=
       get_or data "post_download_delay_seconds" (VFloat 1 (-1));
     file_verify_workers := get_or data "file_verify_workers" (VInt 10);
     strict_file_verification :=
       get_or data "strict_file_verification" (VBool false);
     use_parallel_extract_download :=
       get_or data "use_parallel_extract_download" (VBool true);
     parallel_download_workers :=
       get_or data "parallel_download_workers" (VInt 3);
     use_concurrent_post_processing :=
       get_or data "use_concurrent_post_processing" (VBool true);
     concurrent_post_workers :=
       get_or data "concurrent_post_workers" (VInt 3) |}.

(** [config.to_dict()] (lines 75-103). *)
Definition to_dict (c : Config) : gmap string value :=
  list_to_map [
    ("get_empty_posts", get_empty_posts c);
    ("process_from_oldest", process_from_oldest c);
    ("post_info", post_info c);
    ("save_info", save_info c);
    ("save_preview", save_preview c);
    ("skip_existed_files", skip_existed_files c);
    ("post_folder_name", post_folder_name c);
    ("coomer_api_token", coomer_api_token c);
    ("coomer_cookie", coomer_cookie c);
    ("coomer_username", coomer_username c);
    ("coomer_password", coomer_password c);
    ("favorites_endpoint", favorites_endpoint c);
    ("favorites_limit", favorites_limit c);
    ("favorites_page_size", favorites_page_size c);
    ("favorites_rate_limit_seconds", favorites_rate_limit_seconds c);
    ("favorites_extract_workers", favorites_extract_workers c);
    ("favorites_download_workers", favorites_download_workers c);
    ("download_max_workers", download_max_workers c);
    ("post_download_delay_seconds", post_download_delay_seconds c);
    ("file_verify_workers", file_verify_workers c);
    ("strict_file_verification", strict_file_verification c);
    ("use_parallel_extract_download", use_parallel_extract_download c);
    ("parallel_download_workers", parallel_download_workers c);
    ("use_concurrent_post_processing", use_concurrent_post_processing c);
    ("concurrent_post_workers", concurrent_post_workers c) ].

(** The keys of [to_dict]. *)
Definition field_names : list string :=
  ["get_empty_posts"; "process_from_oldest"; "post_info"; "save_info";
   "save_preview"; "skip_existed_files"; "post_folder_name";
   "coomer_api_token"; "coomer_cookie"; "coomer_username";
   "coomer_password"; "favorites_endpoint"; "favorites_limit";
   "favorites_page_size"; "favorites_rate_limit_seconds";
   "favorites_extract_workers"; "favorites_download_workers";
   "download_max_workers"; "post_download_delay_seconds";
   "file_verify_workers"; "strict_file_verification";
   "use_parallel_extract_download"; "parallel_download_workers";
   "use_concurrent_post_processing"; "concurrent_post_workers"].

End ConfigFile.

(* ===================================================================== *)
(** * Concrete inputs *)
(* ===================================================================== *)

Module Examples.
Import Records World DownloadUtils BatchFileDownloader PostExtractor
       ParallelExtractDownload.

Definition abc : bytes := [Byte.x61; Byte.x62; Byte.x63].

(** A server that answers every GET with 416. *)
Definition io_416 : attempt_io :=
  {| head_answer := HeadResponse 200 (HInt 3);
     replace_final_ok := true; remove_final_ok := true;
     get_answer := GetResponse 416 HAbsent [] None;
     remove_part_ok := true; open_part_error := None;
     finalize_replace_ok := true; finalize_copy := CopyOk |}.

(** A server that ignores [Range] and sends its [content-length]
    header twice, which arrives as the text ["3, 3"]. *)
Definition io_ignored : attempt_io :=
  {| head_answer := HeadRaises;
     replace_final_ok := true; remove_final_ok := true;
     get_answer :=
       GetResponse 200
         (HBad "invalid literal for int() with base 10: '3, 3'")
         [abc] None;
     remove_part_ok := true; open_part_error := None;
     finalize_replace_ok := true; finalize_copy := CopyOk |}.

(** A server whose connection is reset on every GET. *)
Definition io_reset : attempt_io :=
  {| head_answer := HeadRaises;
     replace_final_ok := true; remove_final_ok := true;
     get_answer := GetRaises "Connection reset by peer";
     remove_part_ok := true; open_part_error := None;
     finalize_replace_ok := true; finalize_copy := CopyOk |}.

(** A HEAD answer of status 200 announcing [n] bytes. *)
Definition head_200 (n : Z) : verify_io :=
  {| verify_head := HeadResponse 200 (HInt n);
     verify_replace_ok := true; verify_remove_ok := true |}.

Definition cfg_default : Config :=
  {| skip_existed_files := true; strict_file_verification := false;
     download_retries := 3 |}.

(** A world in which verification answers "0 bytes", futures complete
    in the order they were submitted, and every GET is answered 416. *)
Definition w_example : post_io :=
  {| unreadable := λ _, false;
     verify_answers := λ _ _, head_200 0;
     as_completed := λ l, l;
     transfers := λ _ _ _, io_416 |}.

(** The same world with a server that sends the three bytes of every
    file. *)
Definition io_ok : attempt_io :=
  {| head_answer := HeadResponse 200 (HInt 3);
     replace_final_ok := true; remove_final_ok := true;
     get_answer := GetResponse 200 (HInt 3) [abc] None;
     remove_part_ok := true; open_part_error := None;
     finalize_replace_ok := true; finalize_copy := CopyOk |}.

Definition w_ok : post_io :=
  {| unreadable := λ _, false;
     verify_answers := λ _ _, head_200 3;
     as_completed := λ l, l;
     transfers := λ _ _ _, io_ok |}.

Definition save_path_example (k : Z) (name : string) : string :=
  "posts/1/" +:+ pretty k +:+ "-" +:+ name.

Definition two_files : list file_ref :=
  [ {| name := "a.png"; url := "https://n1/data/a.png" |};
    {| name := "b.png"; url := "https://n1/data/b.png" |} ].

(** The first of the two files is already on disk. *)
Definition one_on_disk : storage :=
  {| files := {[ "posts/1/1-a.png" := abc ]}; ledgers := ∅ |}.

(** An interrupt that arrives before the result of any transfer has
    been read, with every transfer already taken up by a worker. *)
Definition interrupt_at_once : interruption :=
  {| collected := 0; in_flight := λ _, true |}.

(** A complete final file of three bytes. *)
Definition complete_on_disk : storage :=
  {| files := {[ "f" := abc ]}; ledgers := ∅ |}.

(** A complete final file with a partial file left beside it. *)
Definition partial_beside_final : storage :=
  {| files := {[ "f" := abc; "f.part" := [Byte.x61] ]}; ledgers := ∅ |}.

(** An empty final file. *)
Definition empty_on_disk : storage :=
  {| files := {[ "f" := [] ]}; ledgers := ∅ |}.

(** A site with no posts on any page. *)
Definition site_empty : site :=
  {| fetch_posts := λ _, inr []; post_detail := λ _, DetailHTTPError |}.

(** A site whose first page lists one post, with the given id. *)
Definition site_one (post_id : string) : site :=
  {| fetch_posts := λ o,
       if o =? 0
       then inr [{| l_id := post_id; l_user := "7"; l_service := "fanbox" |}]
       else inr [];
     post_detail := λ l,
       DetailOk {| d_id := l_id l; d_user := l_user l;
                   d_service := l_service l; d_title := "";
                   d_files := [] |} |}.

(** A post with the given id. *)
Definition post_of (post_id : string) : post :=
  {| id := post_id; user := "7"; service := "fanbox"; title := "";
     link := ""; page := 1; offset := 0; post_files := [] |}.

(** A stream of eleven posts. *)
Definition eleven_posts : extraction :=
  {| fetched := [0];
     produced := (λ k, post_of (pretty k)) <$> seq 0 11;
     ended := Exhausted |}.

(** A ledger file with one link. *)
Definition ledger_one : gmap string string :=
  {[ "failed_downloads.txt" := ("https://a/1.png" +:+ PyStr.nl) ]}.

(** A set of two links. *)
Definition two_links : gset string :=
  {[ "https://b/2.png"; "https://a/1.png" ]}.


(** A site that answers every request for a post detail with 403 and
    has nothing in its cache. *)
Definition site_rate_limited : site :=
  {| fetch_posts := λ _, inr [];
     post_detail :=
       ApiClient.post_detail_of
         (λ _, None) (λ _ _, ApiClient.Response 403 (inl ""))
         "https://kemono.cr/api/v1" |}.

Definition listed_one : listed :=
  {| l_id := "15"; l_user := "7"; l_service := "fanbox" |}.

(** The domains of [config/domain.json]. *)
Definition domains_example : ApiClient.domains :=
  {| ApiClient.kemono := "kemono.cr"; ApiClient.coomer := "coomer.st";
     ApiClient.other_domains := [] |}.

End Examples.

(* ===================================================================== *)
(** * Facts about Python strings *)
(* ===================================================================== *)

Section py_strings.
Import PyStr.

Lemma append_nil_l (s : string) : "" +:+ s = s.
Proof. reflexivity. Qed.

Lemma append_cons (c : ascii) (s t : string) :
  String c s +:+ t = String c (s +:+ t).
Proof. reflexivity. Qed.

Lemma every_cons p c s : every p (String c s) ↔ p c = true ∧ every p s.
Proof. unfold every. simpl. by rewrite andb_true_iff. Qed.

Lemma every_app p s t : every p (s +:+ t) ↔ every p s ∧ every p t.
Proof.
  induction s as [|c s IH].
  - rewrite append_nil_l. split; [by split|by intros [_ ?]].
  - rewrite append_cons, !every_cons, IH. tauto.
Qed.

Lemma every_lstrip p s : every p s → every p (lstrip s).
Proof.
  induction s as [|c s IH]; [done|]. simpl. intros H.
  destruct (isspace c); [|done]. apply IH. by apply every_cons in H as [_ ?].
Qed.

Lemma every_rstrip p s : every p s → every p (rstrip s).
Proof.
  induction s as [|c s IH]; [done|]. simpl.
  intros [Hc Hs]%every_cons. specialize (IH Hs).
  destruct (rstrip s) as [|c' r].
  - destruct (isspace c); [done|]. by apply every_cons.
  - by apply every_cons.
Qed.

Lemma every_strip p s : every p s → every p (strip s).
Proof. intros. by apply every_rstrip, every_lstrip. Qed.

(** ** Stripping *)

Lemma rstrip_app_nl s : rstrip (s +:+ nl) = rstrip s.
Proof.
  induction s as [|c s IH]; [done|].
  rewrite append_cons. simpl. by rewrite IH.
Qed.

Lemma lstrip_app_nl s :
  lstrip (s +:+ nl) = match lstrip s with "" => "" | r => r +:+ nl end.
Proof.
  induction s as [|c s IH]; [done|].
  rewrite append_cons. simpl. by destruct (isspace c).
Qed.

Lemma strip_app_nl s : strip (s +:+ nl) = strip s.
Proof.
  unfold strip. rewrite lstrip_app_nl.
  destruct (lstrip s) as [|c r] eqn:E; [done|]. by rewrite rstrip_app_nl.
Qed.

Lemma lstrip_starts_clear s : starts_clear (lstrip s).
Proof.
  induction s as [|c s IH]; [done|]. simpl.
  by destruct (isspace c) eqn:E.
Qed.

Lemma lstrip_fixed s : starts_clear s → lstrip s = s.
Proof. destruct s as [|c s]; [done|]. simpl. by intros ->. Qed.

Lemma rstrip_starts_clear s : starts_clear s → starts_clear (rstrip s).
Proof.
  destruct s as [|c s]; [done|]. simpl. intros Hc.
  destruct (rstrip s); [by rewrite Hc|done].
Qed.

Lemma rstrip_idemp s : rstrip (rstrip s) = rstrip s.
Proof.
  induction s as [|c s IH]; [done|]. simpl.
  destruct (rstrip s) as [|c' r] eqn:E.
  - destruct (isspace c) eqn:Ec; [done|]. simpl. by rewrite Ec.
  - simpl in *. by rewrite IH.
Qed.

Lemma strip_idemp s : strip (strip s) = strip s.
Proof.
  unfold strip.
  rewrite (lstrip_fixed (rstrip (lstrip s))).
  - apply rstrip_idemp.
  - apply rstrip_starts_clear, lstrip_starts_clear.
Qed.

Lemma rstrip_fixed s : every (λ c, negb (isspace c)) s → rstrip s = s.
Proof.
  induction s as [|c s IH]; [done|]. simpl.
  intros [Hc Hs]%every_cons. rewrite (IH Hs).
  apply negb_true_iff in Hc. rewrite Hc. by destruct s.
Qed.

Lemma strip_fixed s : every (λ c, negb (isspace c)) s → strip s = s.
Proof.
  intros H. unfold strip. rewrite lstrip_fixed; [by apply rstrip_fixed|].
  destruct s as [|c s]; [done|]. simpl.
  apply every_cons in H as [Hc _]. by apply negb_true_iff in Hc.
Qed.

(** ** Reading lines *)

Lemma ascii_eqb_eq (a b : ascii) : Ascii.eqb a b = true ↔ a = b.
Proof. apply Ascii.eqb_eq. Qed.

Lemma universal_newlines_no_CR b s :
  every (is_not CR) (universal_newlines b s).
Proof.
  revert b. induction s as [|c s IH]; intros b; [done|]. simpl.
  destruct (Ascii.eqb c CR) eqn:Ecr; [by apply every_cons|].
  destruct (Ascii.eqb c LF) eqn:Elf.
  - destruct b; [done|]. by apply every_cons.
  - apply every_cons. split; [|done]. unfold is_not. by rewrite Ecr.
Qed.

Lemma universal_newlines_fixed s :
  every (is_not CR) s → universal_newlines false s = s.
Proof.
  induction s as [|c s IH]; [done|]. simpl.
  intros [Hc Hs]%every_cons. unfold is_not in Hc.
  apply negb_true_iff in Hc. rewrite Hc, (IH Hs).
  destruct (Ascii.eqb c LF) eqn:E; [|done].
  by apply ascii_eqb_eq in E as ->.
Qed.

Lemma readlines_nil s : readlines s = [] → s = "".
Proof.
  destruct s as [|c s]; [done|]. simpl.
  destruct (Ascii.eqb c LF); [done|]. by destruct (readlines s).
Qed.

Lemma readlines_app_nl s t :
  readlines (s +:+ nl +:+ t) = readlines (s +:+ nl) ++ readlines t.
Proof.
  induction s as [|c s IH]; [done|].
  rewrite !append_cons. simpl. destruct (Ascii.eqb c LF).
  - by rewrite IH.
  - rewrite IH. destruct (readlines (s +:+ nl)) as [|l ls] eqn:E; [|done].
    apply readlines_nil in E. by destruct s.
Qed.

Lemma readlines_single s :
  every (is_not LF) s → readlines (s +:+ nl) = [s +:+ nl].
Proof.
  induction s as [|c s IH]; [done|].
  intros [Hc Hs]%every_cons. rewrite append_cons. simpl.
  unfold is_not in Hc. apply negb_true_iff in Hc.
  by rewrite Hc, (IH Hs).
Qed.

(** A line holds no ["\n"] except possibly as its last character. *)
Lemma readlines_shape s l :
  l ∈ readlines s →
  ∃ body, every (is_not LF) body ∧ (l = body ∨ l = body +:+ nl).
Proof.
  revert l. induction s as [|c s IH]; intros l; simpl.
  { by intros ?%elem_of_nil. }
  destruct (Ascii.eqb c LF) eqn:E.
  - intros [->|H]%elem_of_cons; [|by apply IH].
    exists "". split; [done|by right].
  - destruct (readlines s) as [|l' ls].
    + intros ->%list_elem_of_singleton. exists (String c ""). split; [|by left].
      apply every_cons. split; [|done]. unfold is_not. by rewrite E.
    + intros [->|H]%elem_of_cons.
      * destruct (IH l') as (body & Hb & Hl); [left|].
        exists (String c body). split.
        { apply every_cons. split; [|done]. unfold is_not. by rewrite E. }
        destruct Hl as [->| ->]; [by left|by right].
      * apply IH. by right.
Qed.

Lemma readlines_every p s l : every p s → l ∈ readlines s → every p l.
Proof.
  revert l. induction s as [|c s IH]; intros l; simpl.
  { by intros _ ?%elem_of_nil. }
  intros [Hc Hs]%every_cons.
  destruct (Ascii.eqb c LF) eqn:E.
  - intros [->|H]%elem_of_cons; [|by apply IH].
    apply ascii_eqb_eq in E as ->. by apply every_cons.
  - destruct (readlines s) as [|l' ls].
    + intros ->%list_elem_of_singleton. by apply every_cons.
    + intros [->|H]%elem_of_cons.
      * apply every_cons. split; [done|]. apply IH; [done|left].
      * apply IH; [done|by right].
Qed.

Lemma universal_newlines_app_nl b s t :
  readlines (universal_newlines b (s +:+ nl +:+ t))
  = readlines (universal_newlines b (s +:+ nl))
    ++ readlines (universal_newlines false t).
Proof.
  revert b. induction s as [|c s IH]; intros b.
  { rewrite !append_nil_l. unfold nl. rewrite append_cons. simpl.
    by destruct b. }
  rewrite !append_cons. simpl.
  destruct (Ascii.eqb c CR) eqn:Ecr.
  { simpl. by rewrite IH. }
  destruct (Ascii.eqb c LF) eqn:Elf.
  { destruct b; simpl; by rewrite IH. }
  simpl. rewrite Elf, IH.
  destruct (readlines (universal_newlines false (s +:+ nl))) as [|l ls] eqn:E;
    [|done].
  apply readlines_nil in E. destruct s as [|c' s]; [done|].
  rewrite append_cons in E. simpl in E.
  destruct (Ascii.eqb c' CR); [done|]. by destruct (Ascii.eqb c' LF).
Qed.

Lemma file_lines_app_nl s t :
  file_lines (s +:+ nl +:+ t) = file_lines (s +:+ nl) ++ file_lines t.
Proof. apply universal_newlines_app_nl. Qed.

End py_strings.

(* ===================================================================== *)
(** * The failure ledger *)
(* ===================================================================== *)

Section ledger.
Import PyStr FailureHandlers.

Lemma truthy_true s : truthy s = true ↔ s ≠ "".
Proof. by destruct s. Qed.

Lemma stripped_lines_app_nl s t :
  stripped_lines (s +:+ nl +:+ t)
  = stripped_lines (s +:+ nl) ++ stripped_lines t.
Proof.
  unfold stripped_lines. by rewrite file_lines_app_nl, filter_app, fmap_app.
Qed.

Lemma file_lines_entry e :
  every (is_not CR) e → every (is_not LF) e →
  file_lines (e +:+ nl) = [e +:+ nl].
Proof.
  intros Hcr Hlf. unfold file_lines.
  rewrite universal_newlines_fixed; [by apply readlines_single|].
  apply every_app. by split.
Qed.

Lemma stripped_lines_entry e : clean e → stripped_lines (e +:+ nl) = [e].
Proof.
  intros (Hcr & Hlf & Hs & Hne). unfold stripped_lines.
  rewrite file_lines_entry by done.
  rewrite filter_cons_True.
  - simpl. by rewrite strip_app_nl, Hs.
  - rewrite strip_app_nl, Hs. by apply truthy_true.
Qed.

Lemma stripped_lines_clean text e : e ∈ stripped_lines text → clean e.
Proof.
  unfold stripped_lines.
  intros (l & -> & [Ht Hl]%list_elem_of_filter)%list_elem_of_fmap.
  destruct (readlines_shape _ _ Hl) as (body & Hb & Hshape).
  assert (strip l = strip body) as Hbody.
  { destruct Hshape as [->| ->]; [done|apply strip_app_nl]. }
  repeat split.
  - apply every_strip. eapply readlines_every; [|done].
    apply universal_newlines_no_CR.
  - rewrite Hbody. by apply every_strip.
  - apply strip_idemp.
  - by apply truthy_true.
Qed.

Lemma stripped_lines_ledger links :
  stripped_lines (ledger_text links)
  = links ≫= (λ link, stripped_lines (link +:+ nl)).
Proof.
  induction links as [|link links IH]; [done|]. simpl.
  by rewrite stripped_lines_app_nl, IH.
Qed.

Lemma file_lines_ledger links :
  Forall (λ e, every (is_not CR) e ∧ every (is_not LF) e) links →
  file_lines (ledger_text links) = (λ link, link +:+ nl) <$> links.
Proof.
  induction 1 as [|link links [Hcr Hlf] _ IH]; [done|]. simpl.
  by rewrite file_lines_app_nl, file_lines_entry, IH.
Qed.

Lemma elem_of_sorted (failed_links : gset string) link :
  link ∈ sorted failed_links ↔ link ∈ failed_links.
Proof.
  unfold sorted. by rewrite merge_sort_Permutation, elem_of_elements.
Qed.

(** What is read back after a save: the stripped non-blank pieces of
    the links that were saved. *)
Lemma load_save failed_links file_path files e :
  e ∈ load_failed_downloads
        (save_failed_downloads failed_links file_path files) file_path
  ↔ ∃ link, link ∈ failed_links ∧ e ∈ stripped_lines (link +:+ nl).
Proof.
  unfold load_failed_downloads, save_failed_downloads.
  rewrite lookup_insert_eq, elem_of_list_to_set, stripped_lines_ledger.
  rewrite list_elem_of_bind.
  split; intros (link & H1 & H2); exists link; split; try done;
    by apply elem_of_sorted.
Qed.

Lemma load_clean files file_path e :
  e ∈ load_failed_downloads files file_path → clean e.
Proof.
  unfold load_failed_downloads. destruct (files !! file_path) as [text|].
  - rewrite elem_of_list_to_set. apply stripped_lines_clean.
  - by intros ?%not_elem_of_empty.
Qed.

Lemma load_save_clean (failed_links : gset string) file_path files :
  (∀ e, e ∈ failed_links → clean e) →
  load_failed_downloads
    (save_failed_downloads failed_links file_path files) file_path
  = failed_links.
Proof.
  intros Hclean. apply set_eq. intros e. rewrite load_save. split.
  - intros (link & Hin & He).
    rewrite (stripped_lines_entry link) in He by auto.
    by apply list_elem_of_singleton in He as ->.
  - intros He. exists e. split; [done|].
    rewrite stripped_lines_entry by auto. by apply list_elem_of_singleton.
Qed.

(** What the ledger holds after an [add]: what it held before and the
    stripped non-blank pieces of the link. *)
Lemma load_add link file_path files e :
  e ∈ load_failed_downloads (add_failed_download link file_path files)
                            file_path
  ↔ e ∈ load_failed_downloads files file_path
    ∨ e ∈ stripped_lines (link +:+ nl).
Proof.
  unfold add_failed_download. rewrite load_save. split.
  - intros (l & [->%elem_of_singleton|Hl]%elem_of_union & He); [by right|].
    left. rewrite stripped_lines_entry in He by eauto using load_clean.
    by apply list_elem_of_singleton in He as ->.
  - intros [He|He].
    + exists e. split; [by apply elem_of_union_r|].
      rewrite stripped_lines_entry by eauto using load_clean.
      by apply list_elem_of_singleton.
    + exists link. split; [|done]. by apply elem_of_union_l, elem_of_singleton.
Qed.

Lemma load_remove link file_path files :
  load_failed_downloads (remove_failed_download link file_path files)
                        file_path
  = load_failed_downloads files file_path ∖ {[link]}.
Proof.
  unfold remove_failed_download. apply load_save_clean.
  intros e [He _]%elem_of_difference. by eapply load_clean.
Qed.

Lemma sorted_StronglySorted (failed_links : gset string) :
  StronglySorted String.le (sorted failed_links).
Proof. apply StronglySorted_merge_sort; apply _. Qed.

Lemma sorted_NoDup (failed_links : gset string) :
  NoDup (sorted failed_links).
Proof.
  unfold sorted. rewrite merge_sort_Permutation. apply NoDup_elements.
Qed.

(** A link that is not empty and holds no white space is clean. *)
Lemma every_no_space_is_not c s :
  isspace c = true → every (λ c, negb (isspace c)) s → every (is_not c) s.
Proof.
  intros Hc. unfold every. induction s as [|a s IH]; [done|]. simpl.
  intros [Ha Hs]%andb_true_iff. rewrite (IH Hs), andb_true_r.
  unfold is_not. apply negb_true_iff. destruct (Ascii.eqb a c) eqn:E; [|done].
  apply Ascii.eqb_eq in E as ->. by rewrite Hc in Ha.
Qed.

Lemma url_clean link :
  link ≠ "" → every (λ c, negb (isspace c)) link → clean link.
Proof.
  intros Hne Hns. repeat split; [| |by apply strip_fixed|done];
    by apply every_no_space_is_not.
Qed.

(** Saving twice in a row is saving once. *)
Lemma save_save links1 links2 file_path files :
  save_failed_downloads links2 file_path
    (save_failed_downloads links1 file_path files)
  = save_failed_downloads links2 file_path files.
Proof. unfold save_failed_downloads. apply insert_insert_eq. Qed.

(** On the file itself: removing twice is removing once. *)
Lemma remove_remove_file link file_path files :
  remove_failed_download link file_path
    (remove_failed_download link file_path files)
  = remove_failed_download link file_path files.
Proof.
  unfold remove_failed_download at 1. rewrite load_remove.
  unfold remove_failed_download. rewrite save_save. f_equal.
  apply set_eq. intros e. rewrite !elem_of_difference. tauto.
Qed.

(** On the file itself: adding a clean link twice is adding it once. *)
Lemma add_add_file link file_path files :
  clean link →
  add_failed_download link file_path
    (add_failed_download link file_path files)
  = add_failed_download link file_path files.
Proof.
  intros Hclean. unfold add_failed_download at 1.
  assert (load_failed_downloads
            (add_failed_download link file_path files) file_path
          = {[link]} ∪ load_failed_downloads files file_path) as ->.
  { unfold add_failed_download. apply load_save_clean.
    intros e [->%elem_of_singleton|He]%elem_of_union; [done|].
    by eapply load_clean. }
  unfold add_failed_download. rewrite save_save. f_equal.
  apply set_eq. intros e. rewrite !elem_of_union. tauto.
Qed.

End ledger.

(* ===================================================================== *)
(** * The resumable transfer engine *)
(* ===================================================================== *)

Section transfer.
Import World DownloadUtils.

Lemma string_length_append (s t : string) :
  String.length (s +:+ t) = (String.length s + String.length t)%nat.
Proof.
  induction s as [|c s IH]; [done|]. rewrite append_cons. simpl. by rewrite IH.
Qed.

Lemma temp_path_ne (file_path : string) : temp_path_of file_path ≠ file_path.
Proof.
  intros H. apply (f_equal String.length) in H.
  unfold temp_path_of in H. rewrite string_length_append in H. simpl in H. lia.
Qed.

(** ** Termination *)

Lemma attempts_total fuel io url file_path max_retries attempt fs :
  (Z.to_nat (max_retries - attempt) ≤ fuel)%nat →
  is_Some (attempts fuel io url file_path max_retries attempt fs).
Proof.
  revert attempt fs.
  induction fuel as [|fuel IH]; intros attempt fs Hfuel; simpl.
  - destruct (attempt <? max_retries) eqn:E; [|done].
    apply Z.ltb_lt in E. lia.
  - destruct (attempt <? max_retries) eqn:E; [|done].
    apply Z.ltb_lt in E.
    destruct (attempt_body _ _ _ _) as [[[ok err| |e] fs'] evs]; [done| |].
    + apply fmap_is_Some; apply IH; lia.
    + destruct (max_retries <=? attempt + 1); [done|].
      apply fmap_is_Some; apply IH; lia.
Qed.

(** [download_with_resume] always returns. *)
Lemma download_with_resume_total io url file_path max_retries fs :
  is_Some (download_with_resume io url file_path max_retries fs).
Proof. apply attempts_total. lia. Qed.

(** ** The passes of a run *)

(** A run never makes more passes than [max_retries - attempt]. *)
Lemma attempts_steps_bound fuel io url file_path max_retries attempt fs r :
  attempts fuel io url file_path max_retries attempt fs = Some r →
  (length (steps r) ≤ Z.to_nat (max_retries - attempt))%nat.
Proof.
  revert attempt fs r.
  induction fuel as [|fuel IH]; intros attempt fs r; simpl.
  - destruct (attempt <? max_retries) eqn:E; [done|].
    intros [= <-]. simpl. lia.
  - destruct (attempt <? max_retries) eqn:E; [|intros [= <-]; simpl; lia].
    apply Z.ltb_lt in E.
    destruct (attempt_body _ _ _ _) as [[[ok err| |e] fs'] evs].
    + intros [= <-]. simpl. lia.
    + intros (r' & Hr' & ->)%fmap_Some. apply IH in Hr'. simpl. lia.
    + destruct (max_retries <=? attempt + 1) eqn:E'.
      * intros [= <-]. simpl. lia.
      * intros (r' & Hr' & ->)%fmap_Some. apply IH in Hr'. simpl. lia.
Qed.

(** Each pass sends at most one GET. *)
Lemma respond_no_get io url file_path fs s fs' evs :
  respond io url file_path fs = (s, fs', evs) →
  filter (λ e, is_get e = true) evs = [].
Proof.
  unfold respond.
  destruct (get_answer io) as [e|status cl chunks serr]; [by intros [= <- <- <-]|].
  destruct (status =? 416); [by intros [= <- <- <-]|].
  destruct (400 <=? status); [by intros [= <- <- <-]|].
  unfold receive.
  destruct cl; try (by intros [= <- <- <-]);
    (destruct (open_part_error io); [by intros [= <- <- <-]|]);
    (destruct serr; [by intros [= <- <- <-]|]);
    destruct (finalize _ _ _); by intros [= <- <- <-].
Qed.

Lemma attempt_body_gets io url file_path fs s fs' evs :
  attempt_body io url file_path fs = (s, fs', evs) →
  (length (filter (λ e, is_get e = true) evs) ≤ 1)%nat.
Proof.
  unfold attempt_body. destruct (complete _ _ _).
  - intros [= <- <- <-]. simpl. lia.
  - destruct (respond _ _ _ _) as [[s' fs''] evs'] eqn:E.
    intros [= <- <- <-]. apply respond_no_get in E.
    rewrite filter_cons_False, filter_cons_True, E by done. simpl. lia.
Qed.

Lemma attempts_gets fuel io url file_path max_retries attempt fs r :
  attempts fuel io url file_path max_retries attempt fs = Some r →
  (length (filter (λ e, is_get e = true) (trace r)) ≤ length (steps r))%nat.
Proof.
  revert attempt fs r.
  induction fuel as [|fuel IH]; intros attempt fs r; simpl.
  - destruct (attempt <? max_retries); [done|]. by intros [= <-].
  - destruct (attempt <? max_retries); [|by intros [= <-]].
    destruct (attempt_body _ _ _ _) as [[s fs'] evs] eqn:Hbody.
    apply attempt_body_gets in Hbody.
    destruct s as [ok err| |e].
    + intros [= <-]. simpl. lia.
    + intros (r' & Hr' & ->)%fmap_Some. apply IH in Hr'. simpl.
      rewrite !filter_app, !length_app. simpl. lia.
    + destruct (max_retries <=? attempt + 1).
      * intros [= <-]. simpl. lia.
      * intros (r' & Hr' & ->)%fmap_Some. apply IH in Hr'. simpl.
        rewrite !filter_app, !length_app. simpl. lia.
Qed.

(** A pass that ends in the handler leaves a partial file in place,
    unless the GET was answered 200. *)
Lemma attempt_body_raise_keeps_partial io url file_path fs e fs' evs :
  attempt_body io url file_path fs = (Raise e, fs', evs) →
  answered_200 (get_answer io) = false →
  is_Some (fs !! temp_path_of file_path) →
  is_Some (fs' !! temp_path_of file_path).
Proof.
  unfold attempt_body. destruct (complete _ _ _); [done|].
  set (total_size := _get_total_size (head_answer io)).
  intros Hbody H200 Hpart.
  assert (is_Some (make_room io total_size file_path fs
                   !! temp_path_of file_path)) as Hroom.
  { unfold make_room. destruct (fs !! file_path) as [content|]; [|done].
    destruct total_size; [|done].
    destruct (replace_final_ok io).
    - rewrite lookup_insert_eq. by eexists.
    - unfold try_remove. destruct (remove_final_ok io); [|done].
      by rewrite lookup_delete_ne by (symmetry; apply temp_path_ne). }
  revert Hbody Hroom. generalize (make_room io total_size file_path fs).
  intros fs1 Hbody Hroom.
  destruct (respond io url file_path fs1) as [[s fs2] evs2] eqn:Hrespond.
  injection Hbody as -> -> _. revert Hrespond. unfold respond.
  destruct (get_answer io) as [e'|status cl chunks serr].
  { by intros [= _ <- _]. }
  simpl in H200. rewrite H200, andb_false_r.
  destruct (status =? 416); [done|].
  destruct (400 <=? status); [by intros [= _ <- _]|].
  unfold receive.
  assert (∀ base, is_Some (<[temp_path_of file_path := base]> fs1
                           !! temp_path_of file_path)) as Hins.
  { intros base. rewrite lookup_insert_eq. by eexists. }
  destruct cl; try (by intros [= _ <- _]);
    (destruct (open_part_error io); [by intros [= _ <- _]|]);
    (destruct serr; [by intros [= _ <- _]|]);
    unfold finalize;
    destruct (finalize_replace_ok io); try done;
    destruct (finalize_copy io); done.
Qed.

Lemma attempts_all_raised fuel io url file_path max_retries attempt fs r :
  attempts fuel io url file_path max_retries attempt fs = Some r →
  attempt < max_retries →
  forallb raised (steps r) = true →
  (∃ e, result r = (false, Some e) ∧ last (steps r) = Some (Raise e))
  ∧ Z.of_nat (length (steps r)) = max_retries - attempt
  ∧ (is_Some (fs !! temp_path_of file_path) →
     (∀ k, attempt ≤ k < max_retries →
           answered_200 (get_answer (io k)) = false) →
     is_Some (disk r !! temp_path_of file_path)).
Proof.
  revert attempt fs r.
  induction fuel as [|fuel IH]; intros attempt fs r; simpl.
  { intros H Hlt. apply Z.ltb_lt in Hlt. by rewrite Hlt in H. }
  intros H Hlt. pose proof Hlt as Hltb. apply Z.ltb_lt in Hltb.
  rewrite Hltb in H.
  destruct (attempt_body _ _ _ _) as [[s fs'] evs] eqn:Hbody.
  destruct s as [ok err| |e].
  - by injection H as <-.
  - by apply fmap_Some in H as (r' & Hr' & ->).
  - destruct (max_retries <=? attempt + 1) eqn:E.
    + injection H as <-. simpl. intros _. apply Z.leb_le in E.
      split; [by exists e|]. split; [lia|].
      intros Hpart H200.
      eapply attempt_body_raise_keeps_partial; [done| |done].
      apply H200. lia.
    + apply fmap_Some in H as (r' & Hr' & ->). simpl. intros Hall.
      apply Z.leb_gt in E.
      destruct (IH _ _ _ Hr' ltac:(lia) Hall) as ((e' & Hres & Hlast) & Hlen & Hkeep).
      split; [|split].
      * exists e'. split; [done|].
        destruct (steps r') as [|s' l]; [done|]. done.
      * lia.
      * intros Hpart H200. apply Hkeep.
        -- eapply attempt_body_raise_keeps_partial; [done| |done].
           apply H200. lia.
        -- intros k Hk. apply H200. lia.
Qed.

End transfer.

(* ===================================================================== *)
(** * The verification gate and the orchestrator *)
(* ===================================================================== *)

Section orchestrator.
Import World DownloadUtils BatchFileDownloader.

(** ** Phase 1 *)

Lemma pre_check_loop_snoc cfg unreadable fs downloads d :
  pre_check_loop cfg unreadable fs (downloads ++ [d])
  = pre_check_file cfg unreadable fs
      (pre_check_loop cfg unreadable fs downloads) d.
Proof. unfold pre_check_loop. by rewrite foldl_app. Qed.

(** Every candidate lands in exactly one of the three lists. *)
Lemma pre_check_file_count cfg unreadable fs acc d :
  let acc' := pre_check_file cfg unreadable fs acc d in
  skipped_count acc' + Z.of_nat (length (files_to_download acc'))
  + Z.of_nat (length (files_to_verify acc'))
  = skipped_count acc + Z.of_nat (length (files_to_download acc))
    + Z.of_nat (length (files_to_verify acc)) + 1.
Proof.
  destruct d as [file_url file_save_path]. unfold pre_check_file.
  repeat case_match; simpl; rewrite ?length_app; simpl; lia.
Qed.

Lemma pre_check_count cfg unreadable fs downloads :
  let pc := pre_check cfg unreadable fs downloads in
  skipped_count pc + Z.of_nat (length (files_to_download pc))
  + Z.of_nat (length (files_to_verify pc))
  = Z.of_nat (length downloads).
Proof.
  unfold pre_check. destruct (skip_existed_files cfg); [|simpl; lia].
  induction downloads as [|d downloads IH] using rev_ind; [done|].
  rewrite pre_check_loop_snoc, length_app. simpl.
  pose proof (pre_check_file_count cfg unreadable fs
                (pre_check_loop cfg unreadable fs downloads) d) as H.
  simpl in H. lia.
Qed.

(** What was put in a list stays there. *)
Lemma pre_check_file_mono cfg unreadable fs acc d :
  let acc' := pre_check_file cfg unreadable fs acc d in
  (∀ v, v ∈ files_to_verify acc → v ∈ files_to_verify acc')
  ∧ (∀ v, v ∈ files_to_download acc → v ∈ files_to_download acc').
Proof.
  destruct d as [file_url file_save_path]. unfold pre_check_file.
  repeat case_match; simpl; split; intros v Hv; try done;
    apply elem_of_app; by left.
Qed.

(** What ends in the download list of the pre-check has a partial
    file, has no final file, or cannot be read; what ends in the list to
    verify has a final file, of the size noted. *)
Lemma pre_check_loop_inv cfg unreadable fs downloads :
  let pc := pre_check_loop cfg unreadable fs downloads in
  (∀ d, d ∈ files_to_download pc →
        is_Some (fs !! (d.2 +:+ ".part")) ∨ fs !! d.2 = None
        ∨ unreadable d.2 = true)
  ∧ (∀ v, v ∈ files_to_verify pc →
          ∃ content, fs !! v.1.2 = Some content ∧ v.2 = getsize content).
Proof.
  induction downloads as [|[u p] downloads [IHd IHv]] using rev_ind.
  { split; intros ? ?%elem_of_nil; done. }
  rewrite pre_check_loop_snoc. unfold pre_check_file.
  destruct (fs !! (p +:+ ".part")) as [part|] eqn:Hpart; simpl.
  { split; [|done]. intros d [Hd| ->%list_elem_of_singleton]%elem_of_app;
      [by apply IHd|]. left. simpl. by rewrite Hpart. }
  destruct (fs !! p) as [content|] eqn:Hfinal; simpl.
  - destruct (unreadable p) eqn:Hread; simpl.
    { split; [|done]. intros d [Hd| ->%list_elem_of_singleton]%elem_of_app;
        [by apply IHd|]. right. by right. }
    assert (∀ v, v ∈ files_to_verify
                       (pre_check_loop cfg unreadable fs downloads)
                     ++ [(u, p, getsize content)] →
                 ∃ c, fs !! v.1.2 = Some c ∧ v.2 = getsize c) as Hv.
    { intros v [Hv| ->%list_elem_of_singleton]%elem_of_app; [by apply IHv|].
      by exists content. }
    destruct (0 <? getsize content); [|done].
    by destruct (strict_file_verification cfg).
  - split; [|done]. intros d [Hd| ->%list_elem_of_singleton]%elem_of_app;
      [by apply IHd|]. right. by left.
Qed.

(** An empty final file without a partial goes to remote
    verification. *)
Lemma pre_check_empty_final cfg unreadable fs downloads file_url file_save_path :
  skip_existed_files cfg = true →
  (file_url, file_save_path) ∈ downloads →
  fs !! (file_save_path +:+ ".part") = None →
  fs !! file_save_path = Some [] →
  unreadable file_save_path = false →
  (file_url, file_save_path, 0)
    ∈ files_to_verify (pre_check cfg unreadable fs downloads).
Proof.
  intros Hskip Hin Hpart Hfinal Hread. unfold pre_check. rewrite Hskip.
  induction downloads as [|d downloads IH] using rev_ind.
  { by apply elem_of_nil in Hin. }
  rewrite pre_check_loop_snoc.
  apply elem_of_app in Hin as [Hin|Hin%list_elem_of_singleton].
  - by apply pre_check_file_mono, IH.
  - subst d. unfold pre_check_file. rewrite Hpart, Hfinal, Hread. simpl.
    apply elem_of_app. right. by apply list_elem_of_singleton.
Qed.

(** ** Phase 2 *)

(** The verdict of [verify_file] does not depend on the files. *)
Lemma verify_file_verdict io file_save_path existing_size fs fs' :
  (verify_file io file_save_path existing_size fs).1
  = (verify_file io file_save_path existing_size fs').1.
Proof.
  unfold verify_file. destruct (verify_head io) as [|status cl]; [done|].
  destruct (status =? 200); [|done].
  destruct cl as [| |n|msg]; try done;
    repeat (case_match; simpl; try done).
Qed.

(** An empty file is never found complete. *)
Lemma verify_file_empty io file_save_path fs :
  (verify_file io file_save_path 0 fs).1 = false.
Proof.
  unfold verify_file. destruct (verify_head io) as [|status cl]; [done|].
  destruct (status =? 200); [|done].
  destruct cl as [| |n|msg]; try done.
  destruct (0 <? n) eqn:E, (0 =? n) eqn:E'; simpl; try done.
  apply Z.ltb_lt in E. apply Z.eqb_eq in E'. lia.
Qed.

Lemma verify_all_answers vio to_verify fs :
  (verify_all vio to_verify fs).1
  = (λ v, (v.1.1, v.1.2,
           (verify_file (vio v.1.1 v.1.2) v.1.2 v.2 ∅).1)) <$> to_verify.
Proof.
  revert fs. induction to_verify as [|[[u p] sz] rest IH]; intros fs; [done|].
  simpl. destruct (verify_file (vio u p) p sz fs) as [b fs'] eqn:E.
  specialize (IH fs'). destruct (verify_all vio rest fs') as [answers fs''].
  simpl in *. rewrite IH. f_equal. f_equal.
  rewrite (verify_file_verdict _ _ _ ∅ fs). by rewrite E.
Qed.

Lemma merge_verified_snoc pc completed a :
  merge_verified pc (completed ++ [a])
  = merge_step (merge_verified pc completed) a.
Proof.
  unfold merge_verified. by rewrite foldl_app.
Qed.

Lemma merge_verified_count pc completed :
  let pc' := merge_verified pc completed in
  files_to_verify pc' = files_to_verify pc
  ∧ skipped_count pc ≤ skipped_count pc'
  ∧ skipped_count pc' + Z.of_nat (length (files_to_download pc'))
    = skipped_count pc + Z.of_nat (length (files_to_download pc))
      + Z.of_nat (length completed).
Proof.
  induction completed as [|a completed IH] using rev_ind.
  { simpl. split; [done|]. lia. }
  rewrite merge_verified_snoc, length_app. simpl in *.
  destruct IH as (Hv & Hle & Hcount).
  destruct a as [[u p] []]; simpl; rewrite ?length_app; simpl;
    (split; [done|]); lia.
Qed.

Lemma merge_verified_download pc completed file_url file_path :
  (file_url, file_path, false) ∈ completed →
  (file_url, file_path) ∈ files_to_download (merge_verified pc completed).
Proof.
  induction completed as [|a completed IH] using rev_ind.
  { by intros ?%elem_of_nil. }
  rewrite merge_verified_snoc.
  intros [Hin|Hin%list_elem_of_singleton]%elem_of_app.
  - specialize (IH Hin). destruct a as [[u p] []]; simpl; [done|].
    apply elem_of_app. by left.
  - subst a. simpl. apply elem_of_app. right.
    by apply list_elem_of_singleton.
Qed.

Lemma merge_verified_download_inv pc completed d :
  d ∈ files_to_download (merge_verified pc completed) →
  d ∈ files_to_download pc ∨ (d.1, d.2, false) ∈ completed.
Proof.
  induction completed as [|a completed IH] using rev_ind; [by left|].
  rewrite merge_verified_snoc. destruct a as [[u p] []]; simpl.
  - intros [?|?]%IH; [by left|]. right. apply elem_of_app. by left.
  - intros [[?|?]%IH| ->%list_elem_of_singleton]%elem_of_app.
    + by left.
    + right. apply elem_of_app. by left.
    + right. apply elem_of_app. right. by apply list_elem_of_singleton.
Qed.

(** ** Phase 3 *)

Lemma download_file_total cfg io file_url save_path st :
  is_Some (download_file cfg io file_url save_path st).
Proof.
  unfold download_file.
  destruct (download_with_resume_total io file_url save_path
              (download_retries cfg) (files st)) as [r ->].
  simpl. destruct (result r) as [[] error]; by eexists.
Qed.

Lemma download_all_total cfg net to_download st :
  is_Some (download_all cfg net to_download st).
Proof.
  revert st. induction to_download as [|[u p] rest IH]; intros st.
  { by eexists. }
  simpl. destruct (download_file_total cfg (net u p) u p st)
    as [[[[ok err] st'] evs] ->]. simpl.
  destruct (IH st') as [[[os st''] evs'] ->]. by eexists.
Qed.

Lemma download_all_length cfg net to_download st os st' evs :
  download_all cfg net to_download st = Some (os, st', evs) →
  length os = length to_download.
Proof.
  revert st os st' evs.
  induction to_download as [|[u p] rest IH]; intros st os st' evs; simpl.
  { by intros [= <- _ _]. }
  destruct (download_file _ _ _ _ _) as [[[[ok err] st1] evs1]|]; [|done].
  simpl.
  destruct (download_all cfg net rest st1) as [[[os2 st2] evs2]|] eqn:E;
    [|done].
  simpl. intros [= <- _ _]. simpl. f_equal. by eapply IH.
Qed.

Lemma collect_counts_from to_download os acc :
  length os = length to_download →
  let r := foldl collect_step acc (zip to_download os) in
  r.1 = acc.1 + Z.of_nat (length (filter (λ o, succeeded o = true) os))
  ∧ Z.of_nat (length r.2)
    = Z.of_nat (length acc.2) + Z.of_nat (length os)
      - Z.of_nat (length (filter (λ o, succeeded o = true) os)).
Proof.
  revert to_download acc.
  induction os as [|o os IH]; intros [|d to_download] acc Hlen;
    simplify_eq/=; [lia|].
  destruct (IH to_download (collect_step acc (d, o)) ltac:(done))
    as [IH1 IH2].
  rewrite IH1, IH2. rewrite filter_cons.
  destruct acc as [successful failed], d as [u p], o as [[] err]; simpl;
    rewrite ?length_app; simpl; lia.
Qed.

Lemma collect_counts to_download os :
  length os = length to_download →
  (collect to_download os).1
  = Z.of_nat (length (filter (λ o, succeeded o = true) os))
  ∧ Z.of_nat (length (collect to_download os).2)
    = Z.of_nat (length os)
      - Z.of_nat (length (filter (λ o, succeeded o = true) os)).
Proof.
  intros Hlen.
  destruct (collect_counts_from to_download os (0, []) Hlen) as [H1 H2].
  unfold collect. simpl in *. split; lia.
Qed.

(** ** The whole of [process_post] *)

Lemma process_downloads_total cfg w downloads st :
  is_Some (process_downloads cfg w downloads st).
Proof.
  unfold process_downloads.
  destruct (verify_all _ _ _) as [answers fs].
  destruct (files_to_download _) as [|d to_download] eqn:E; [by eexists|].
  destruct (download_all_total cfg (transfers w) (d :: to_download)
              {| files := fs; ledgers := ledgers st |})
    as [[[os st'] evs] ->].
  simpl. destruct (collect _ _). by eexists.
Qed.

Lemma process_downloads_counts cfg w downloads st pr :
  (∀ l, as_completed w l ≡ₚ l) →
  process_downloads cfg w downloads st = Some pr →
  total_files (returned pr) = Z.of_nat (length downloads)
  ∧ length (outcomes pr) = length (files_to_download (gate pr))
  ∧ total_files (returned pr)
    = skipped_count (gate pr)
      + Z.of_nat (length (files_to_download (gate pr)))
  ∧ successful (returned pr)
    = skipped_count (gate pr)
      + Z.of_nat (length (filter (λ o, succeeded o = true) (outcomes pr)))
  ∧ Z.of_nat (length (failed (returned pr)))
    = Z.of_nat (length (outcomes pr))
      - Z.of_nat (length (filter (λ o, succeeded o = true) (outcomes pr))).
Proof.
  intros Hperm. unfold process_downloads.
  pose proof (pre_check_count cfg (unreadable w) (files st) downloads) as Hpc.
  pose proof (verify_all_answers (verify_answers w)
                (files_to_verify
                   (pre_check cfg (unreadable w) (files st) downloads))
                (files st)) as Hans.
  destruct (verify_all _ _ _) as [answers fs]. simpl in Hans, Hpc.
  pose proof (merge_verified_count
                (pre_check cfg (unreadable w) (files st) downloads)
                (as_completed w answers)) as (Hv & Hle & Hcount).
  simpl in Hv, Hle, Hcount.
  assert (length (as_completed w answers)
          = length (files_to_verify
                      (pre_check cfg (unreadable w) (files st) downloads)))
    as Hlen.
  { rewrite (Hperm answers), Hans. apply length_fmap. }
  rewrite Hlen in Hcount.
  set (pc := merge_verified _ _) in *.
  destruct (files_to_download pc) as [|d to_download] eqn:E.
  - intros [= <-]. simpl. rewrite E. simpl in *.
    repeat split; try done; lia.
  - destruct (download_all _ _ _ _) as [[[os st'] evs]|] eqn:Hall; [|done].
    simpl. apply download_all_length in Hall.
    destruct (collect_counts (d :: to_download) os Hall) as [Hc1 Hc2].
    destruct (collect (d :: to_download) os) as [n failed]. simpl in Hc1, Hc2.
    intros [= <-]. simpl. rewrite E. simpl in *.
    repeat split; try done; lia.
Qed.

(** The gate of a run is the pre-check merged with the verdicts. *)
Lemma process_downloads_gate cfg w downloads st pr :
  process_downloads cfg w downloads st = Some pr →
  let pc := pre_check cfg (unreadable w) (files st) downloads in
  let answers :=
    (verify_all (verify_answers w) (files_to_verify pc) (files st)).1 in
  gate pr = merge_verified pc (as_completed w answers)
  ∧ verify_requests pr = (λ v, Head v.1.1) <$> files_to_verify pc.
Proof.
  unfold process_downloads.
  set (pc := pre_check cfg (unreadable w) (files st) downloads).
  destruct (verify_all _ _ _) as [answers fs]. simpl.
  pose proof (merge_verified_count pc (as_completed w answers)) as (Hv & _).
  simpl in Hv.
  destruct (files_to_download _) as [|d to_download] eqn:E.
  - intros [= <-]. simpl. by rewrite Hv.
  - destruct (download_all _ _ _ _) as [[[os st'] evs]|]; [|done].
    simpl. destruct (collect _ _). intros [= <-]. simpl. by rewrite Hv.
Qed.

(** A final file of positive size that the HEAD answer confirms, and
    that has no partial file, is not dispatched for download. *)
Lemma gate_skips_complete cfg w downloads st pr file_url file_save_path
      content :
  (∀ l, as_completed w l ≡ₚ l) →
  skip_existed_files cfg = true →
  process_downloads cfg w downloads st = Some pr →
  files st !! (file_save_path +:+ ".part") = None →
  files st !! file_save_path = Some content →
  unreadable w file_save_path = false →
  0 < getsize content →
  verify_head (verify_answers w file_url file_save_path)
    = HeadResponse 200 (HInt (getsize content)) →
  (file_url, file_save_path) ∉ files_to_download (gate pr).
Proof.
  intros Hperm Hskip Hpr Hpart Hfinal Hread Hpos Hhead Hin.
  destruct (process_downloads_gate _ _ _ _ _ Hpr) as [Hgate _].
  rewrite Hgate in Hin. clear Hgate Hpr.
  unfold pre_check in Hin. rewrite Hskip in Hin.
  destruct (pre_check_loop_inv cfg (unreadable w) (files st) downloads)
    as [Hd Hv].
  apply merge_verified_download_inv in Hin as [Hin|Hin].
  - apply Hd in Hin as [[? Hp]|[Hf|Hr]]; simpl in *; congruence.
  - rewrite (Hperm _), verify_all_answers in Hin.
    apply list_elem_of_fmap in Hin as ([[u p] sz] & [= -> -> Hverdict] & Hin).
    apply Hv in Hin as (content' & Hc & Hsz). simpl in *. subst sz.
    rewrite Hfinal in Hc. injection Hc as <-.
    unfold verify_file in Hverdict. rewrite Hhead in Hverdict.
    simpl in Hverdict. apply Z.ltb_lt in Hpos.
    by rewrite Hpos, Z.eqb_refl in Hverdict.
Qed.

End orchestrator.

(* ===================================================================== *)
(** * The orchestrator under a keyboard interrupt *)
(* ===================================================================== *)

Section interrupted.
Import World DownloadUtils BatchFileDownloader.

(** Without an interrupt the run is the run of [process_downloads]. *)
Lemma process_downloads_uninterrupted cfg w downloads st :
  process_downloads_interruptible cfg w None downloads st
  = process_downloads cfg w downloads st.
Proof. reflexivity. Qed.

Lemma taken_up_length {A} in_flight k (l : list A) :
  (length (taken_up in_flight k l) ≤ length l)%nat.
Proof.
  revert k. induction l as [|d l IH]; intros k; simpl; [done|].
  specialize (IH (S k)). destruct (in_flight k); simpl; lia.
Qed.

Lemma taken_up_subseteq {A} in_flight k (l : list A) :
  taken_up in_flight k l ⊆ l.
Proof.
  revert k. induction l as [|d l IH]; intros k; simpl; [done|].
  specialize (IH (S k)). intros e He. destruct (in_flight k).
  - apply elem_of_cons in He as [->|He]; [left|right; by apply IH].
  - right. by apply IH.
Qed.

(** The transfers that run are dispatched files; those whose result is
    read come first. *)
Lemma started_subseteq i to_download :
  started i to_download ⊆ to_download.
Proof.
  destruct i as [x|]; simpl; [|done].
  intros d [Hd|Hd]%elem_of_app.
  - by eapply subseteq_take.
  - apply taken_up_subseteq in Hd. by eapply subseteq_drop.
Qed.

Lemma started_length i to_download :
  (length (started i to_download) ≤ length to_download)%nat.
Proof.
  destruct i as [x|]; simpl; [|done].
  rewrite length_app, length_take.
  pose proof (taken_up_length (in_flight x) (collected x)
                (drop (collected x) to_download)) as H.
  rewrite length_drop in H. lia.
Qed.

(** An interrupt that arrives when every result has been read changes
    nothing. *)
Lemma started_all x to_download :
  (length to_download ≤ collected x)%nat →
  started (Some x) to_download = to_download.
Proof.
  intros Hlen. simpl. rewrite take_ge, drop_ge by done.
  apply app_nil_r.
Qed.

Lemma read_length i to_download os :
  length os = length (started i to_download) →
  (length (read i os) ≤ length to_download)%nat.
Proof.
  intros Hlen. pose proof (started_length i to_download) as Hs.
  destruct i as [x|]; simpl in *; [|lia].
  rewrite length_take. lia.
Qed.

Lemma read_prefix i os : read i os `prefix_of` os.
Proof. destruct i as [x|]; simpl; [apply prefix_take|done]. Qed.


(** The loop over the futures stops with the shorter of its lists. *)
Lemma collect_counts_le to_download os acc :
  (length os ≤ length to_download)%nat →
  let r := foldl collect_step acc (zip to_download os) in
  r.1 = acc.1 + Z.of_nat (length (filter (λ o, succeeded o = true) os))
  ∧ Z.of_nat (length r.2)
    = Z.of_nat (length acc.2) + Z.of_nat (length os)
      - Z.of_nat (length (filter (λ o, succeeded o = true) os)).
Proof.
  intros Hle.
  pose proof (collect_counts_from (take (length os) to_download) os acc)
    as H.
  rewrite zip_with_take_l in H. apply H. rewrite length_take. lia.
Qed.

Lemma process_downloads_interruptible_total cfg w i downloads st :
  is_Some (process_downloads_interruptible cfg w i downloads st).
Proof.
  unfold process_downloads_interruptible.
  destruct (verify_all _ _ _) as [answers fs].
  destruct (files_to_download _) as [|d to_download] eqn:E; [by eexists|].
  destruct (download_all_total cfg (transfers w)
              (started i (d :: to_download))
              {| files := fs; ledgers := ledgers st |})
    as [[[os st'] evs] ->].
  simpl. destruct (collect _ _). by eexists.
Qed.

(** Phases 1 and 2 do not see the interrupt. *)
Lemma process_downloads_interruptible_gate cfg w i downloads st pr :
  process_downloads_interruptible cfg w i downloads st = Some pr →
  ∃ pr0, process_downloads cfg w downloads st = Some pr0
         ∧ gate pr = gate pr0
         ∧ verify_requests pr = verify_requests pr0
         ∧ total_files (returned pr) = total_files (returned pr0).
Proof.
  intros Hpr.
  destruct (process_downloads_total cfg w downloads st) as [pr0 Hpr0].
  exists pr0. split; [done|].
  revert Hpr Hpr0. unfold process_downloads_interruptible, process_downloads.
  destruct (verify_all _ _ _) as [answers fs].
  destruct (files_to_download _) as [|d to_download] eqn:E.
  - by intros [= <-] [= <-].
  - destruct (download_all _ _ (started _ _) _) as [[[os st'] evs]|];
      [|done].
    destruct (download_all _ _ _ _) as [[[os0 st0] evs0]|]; [|done].
    simpl. destruct (collect _ _), (collect _ _).
    by intros [= <-] [= <-].
Qed.

(** Phase 3 of an interrupted run: the transfers that ran, and what
    the loop made of the results it read. *)
Lemma process_downloads_interruptible_collect cfg w i downloads st pr :
  process_downloads_interruptible cfg w i downloads st = Some pr →
  let to_download := files_to_download (gate pr) in
  (to_download = []
   ∧ outcomes pr = []
   ∧ successful (returned pr) = total_files (returned pr)
   ∧ failed (returned pr) = [])
  ∨ (to_download ≠ []
     ∧ (∃ st0, download_all cfg (transfers w) (started i to_download) st0
               = Some (outcomes pr, storage_after pr, download_events pr))
     ∧ successful (returned pr)
       = (collect to_download (read i (outcomes pr))).1
         + skipped_count (gate pr)
     ∧ failed (returned pr)
       = (collect to_download (read i (outcomes pr))).2).
Proof.
  unfold process_downloads_interruptible.
  destruct (verify_all _ _ _) as [answers fs].
  set (pc := merge_verified _ _).
  destruct (files_to_download pc) as [|d to_download] eqn:E.
  - intros [= <-]. simpl. left. by rewrite E.
  - destruct (download_all _ _ _ _) as [[[os st'] evs]|] eqn:Hall; [|done].
    simpl.
    destruct (collect (d :: to_download) (read i os)) as [n fl] eqn:Hc.
    intros [= <-]. simpl. right. rewrite E.
    split; [done|]. split; [by eexists|]. by rewrite Hc.
Qed.

End interrupted.

(* ===================================================================== *)
(** * The extraction worker *)
(* ===================================================================== *)

Section producer.
Import World PostExtractor ParallelExtractDownload.

(** After [n] records: each was pushed once; it is in the queue's
    history or among the dropped, with one warning for each dropped
    record. *)
Lemma extraction_loop_invariant taken posts n :
  (n ≤ length posts)%nat →
  let st := extraction_loop taken posts n in
  enqueued st ++ dropped st ≡ₚ seq 0 n
  ∧ total st = Z.of_nat n
  ∧ printed st = replicate (length (dropped st)) warning
  ∧ extraction_done st = false.
Proof.
  induction n as [|n IH]; intros Hn; [done|].
  destruct (IH ltac:(lia)) as (Hperm & Htotal & Hprinted & Hdone).
  rewrite seq_S. cbn [extraction_loop Nat.add].
  destruct (lookup_lt_is_Some_2 posts n ltac:(lia)) as [p ->].
  cbv zeta. unfold extraction_step.
  destruct (put _ _ _ _) as [q []]; cbn [enqueued dropped total printed
                                           extraction_done].
  - split; [|split; [lia|done]].
    rewrite <-Hperm, <-!(assoc_L (++)). f_equiv. apply Permutation_app_comm.
  - split; [|split; [lia|split; [|done]]].
    + by rewrite <-Hperm, (assoc_L (++)).
    + rewrite Hprinted, length_app. simpl.
      rewrite Nat.add_1_r. symmetry. apply replicate_S_end.
Qed.

Lemma extraction_loop_dropped_mono taken posts n m k :
  (n ≤ m)%nat →
  k ∈ dropped (extraction_loop taken posts n) →
  k ∈ dropped (extraction_loop taken posts m).
Proof.
  induction 1 as [|m _ IH]; [done|]. intros Hk. specialize (IH Hk).
  simpl. destruct (posts !! m) as [p|]; [|done].
  unfold extraction_step. destruct (put _ _ _ _) as [q []]; simpl; [done|].
  apply elem_of_app. by left.
Qed.

End producer.

(* ===================================================================== *)
(** * The claims of the specification *)
(* ===================================================================== *)

(** C1 (as stated, refuted).  A final file of the probed size does not
    make [download_with_resume] succeed when [max_retries] is 0: the loop
    body never runs and the call returns [(False, "Unknown error")].  The
    gate does not skip an empty final file although the HEAD answer
    announces the same size, 0: [verify_file] returns
    [is_complete = False].  And the gate does not skip a final file of
    the announced size when a partial file lies beside it: [process_post]
    dispatches it for download. *)
Lemma complete_file_counterexample :
  BatchFileDownloader.files Examples.complete_on_disk !! "f"
    = Some Examples.abc
  ∧ DownloadUtils._get_total_size
      (DownloadUtils.head_answer Examples.io_416)
    = Some (DownloadUtils.getsize Examples.abc)
  ∧ DownloadUtils.result
      <$> DownloadUtils.download_with_resume
            (λ _, Examples.io_416) "u" "f" 0
            (BatchFileDownloader.files Examples.complete_on_disk)
    = Some (false, Some "Unknown error")
  ∧ BatchFileDownloader.files Examples.empty_on_disk !! "f" = Some []
  ∧ BatchFileDownloader.verify_head (Examples.head_200 0)
    = World.HeadResponse 200 (World.HInt (DownloadUtils.getsize []))
  ∧ BatchFileDownloader.verify_file
      (Examples.head_200 0) "f" (DownloadUtils.getsize [])
      (BatchFileDownloader.files Examples.empty_on_disk)
    = (false, BatchFileDownloader.files Examples.empty_on_disk)
  ∧ BatchFileDownloader.files Examples.partial_beside_final !! "f"
    = Some Examples.abc
  ∧ BatchFileDownloader.verify_head
      (BatchFileDownloader.verify_answers Examples.w_ok "u" "f")
    = World.HeadResponse 200 (World.HInt (DownloadUtils.getsize Examples.abc))
  ∧ (λ pr, BatchFileDownloader.files_to_download
             (BatchFileDownloader.gate pr))
      <$> BatchFileDownloader.process_downloads
            Examples.cfg_default Examples.w_ok [("u", "f")]
            Examples.partial_beside_final
    = Some [("u", "f")].
Proof. repeat split; vm_compute; reflexivity. Qed.

(** C1 (amended).  Let the final file exist with the size the HEAD probe
    gives.  When [max_retries] is at least 1, [download_with_resume]
    returns [(True, None)] from its first pass: the only request is that
    HEAD, no GET is sent and no file is touched.  When the size is
    positive and the HEAD answer has status 200, [verify_file] finds the
    file complete and touches nothing, and [process_post], with skipping
    of existing files enabled and no partial file beside the final one,
    does not dispatch the file for download. *)
Theorem complete_file_skipped
    (io : Z → DownloadUtils.attempt_io)
    (cfg : BatchFileDownloader.Config) (w : BatchFileDownloader.post_io)
    (url file_path : string) (max_retries : Z)
    (st : BatchFileDownloader.storage) (content : World.bytes) :
  let fs := BatchFileDownloader.files st in
  let n := DownloadUtils.getsize content in
  let vio := BatchFileDownloader.verify_answers w url file_path in
  fs !! file_path = Some content →
  (0 < max_retries →
   DownloadUtils._get_total_size (DownloadUtils.head_answer (io 0)) = Some n →
   DownloadUtils.download_with_resume io url file_path max_retries fs
   = Some {| DownloadUtils.result := (true, None);
             DownloadUtils.disk := fs;
             DownloadUtils.trace := [World.Head url];
             DownloadUtils.steps := [DownloadUtils.Return true None] |})
  ∧ (0 < n →
     BatchFileDownloader.verify_head vio
       = World.HeadResponse 200 (World.HInt n) →
     BatchFileDownloader.verify_file vio file_path n fs = (true, fs)
     ∧ (BatchFileDownloader.skip_existed_files cfg = true →
        (∀ l, BatchFileDownloader.as_completed w l ≡ₚ l) →
        fs !! (file_path +:+ ".part") = None →
        BatchFileDownloader.unreadable w file_path = false →
        ∀ downloads,
          ∃ pr, BatchFileDownloader.process_downloads cfg w downloads st
                = Some pr
                ∧ (url, file_path)
                    ∉ BatchFileDownloader.files_to_download
                        (BatchFileDownloader.gate pr))).
Proof.
  intros fs n vio Hfile. split.
  - intros Hmax Hhead. unfold DownloadUtils.download_with_resume.
    destruct (Z.to_nat max_retries) as [|fuel] eqn:E; [lia|]. simpl.
    apply Z.ltb_lt in Hmax. rewrite Hmax.
    unfold DownloadUtils.attempt_body, DownloadUtils.complete.
    rewrite Hhead, Hfile. fold n. by rewrite Z.eqb_refl.
  - intros Hpos Hhead. split.
    + unfold BatchFileDownloader.verify_file. rewrite Hhead. simpl.
      apply Z.ltb_lt in Hpos. by rewrite Hpos, Z.eqb_refl.
    + intros Hskip Hperm Hpart Hread downloads.
      destruct (process_downloads_total cfg w downloads st) as [pr Hpr].
      exists pr. split; [done|].
      by eapply gate_skips_complete.
Qed.

Lemma complete_file_skipped_witness :
  DownloadUtils.download_with_resume
    (λ _, Examples.io_416) "u" "f" 3
    (BatchFileDownloader.files Examples.complete_on_disk)
  = Some {| DownloadUtils.result := (true, None);
            DownloadUtils.disk :=
              BatchFileDownloader.files Examples.complete_on_disk;
            DownloadUtils.trace := [World.Head "u"];
            DownloadUtils.steps := [DownloadUtils.Return true None] |}
  ∧ BatchFileDownloader.verify_file
      (Examples.head_200 3) "f" 3
      (BatchFileDownloader.files Examples.complete_on_disk)
    = (true, BatchFileDownloader.files Examples.complete_on_disk)
  ∧ ∃ pr, BatchFileDownloader.process_downloads
            Examples.cfg_default Examples.w_ok [("u", "f")]
            Examples.complete_on_disk = Some pr
          ∧ ("u", "f") ∉ BatchFileDownloader.files_to_download
                           (BatchFileDownloader.gate pr).
Proof.
  assert (BatchFileDownloader.files Examples.complete_on_disk !! "f"
          = Some Examples.abc) as Hf by reflexivity.
  destruct (complete_file_skipped
              (λ _, Examples.io_416) Examples.cfg_default Examples.w_ok
              "u" "f" 3 Examples.complete_on_disk Examples.abc Hf)
    as [Hd Hv].
  assert (0 < 3) as H3 by lia.
  split; [exact (Hd H3 eq_refl)|].
  destruct (Hv H3 eq_refl) as [Hverify Hgate].
  split; [exact Hverify|].
  apply Hgate; [reflexivity|intros l; reflexivity|reflexivity|reflexivity].
Defined.

(** C2 (as stated, refuted).  With [max_retries = 1] and a partial file
    of three bytes, a server that answers the ranged GET with 416 makes
    the call delete the partial file, sleep [backoff_factor * 2] seconds
    and return [(False, "Unknown error")]: the 416 has used up the only
    attempt, and no second GET is sent. *)
Lemma range_not_satisfiable_counterexample :
  DownloadUtils.download_with_resume
    (λ _, Examples.io_416) "u" "f" 1 {[ "f.part" := Examples.abc ]}
  = Some {| DownloadUtils.result := (false, Some "Unknown error");
            DownloadUtils.disk := ∅;
            DownloadUtils.trace :=
              [World.Head "u"; World.Get "u" (Some 3); World.Sleep 2];
            DownloadUtils.steps := [DownloadUtils.StartOver] |}.
Proof. vm_compute. reflexivity. Qed.

(** C2 (amended).  A pass in which the GET is answered with 416 removes
    the partial file (when [os.remove] succeeds), counts as one of the
    [max_retries] attempts and is followed by a sleep of
    [backoff_factor * 2 ** (attempt + 1)] seconds; the run then goes on
    from [attempt + 1] without the partial file.  When that was the last
    attempt the call returns [(False, "Unknown error")].  A run never
    sends more GETs than [max_retries - attempt]. *)
Theorem range_not_satisfiable_uses_attempt
    (fuel : nat) (io : Z → DownloadUtils.attempt_io) (url file_path : string)
    (max_retries attempt : Z) (fs : gmap string World.bytes)
    (cl : World.header) (chunks : list World.bytes)
    (stream_error : option string) :
  let total_size :=
    DownloadUtils._get_total_size (DownloadUtils.head_answer (io attempt)) in
  let fs1 := DownloadUtils.make_room (io attempt) total_size file_path fs in
  let fs2 :=
    DownloadUtils.try_remove (DownloadUtils.remove_part_ok (io attempt))
      (DownloadUtils.temp_path_of file_path) fs1 in
  attempt < max_retries →
  DownloadUtils.complete total_size file_path fs = false →
  DownloadUtils.get_answer (io attempt)
    = World.GetResponse 416 cl chunks stream_error →
  DownloadUtils.attempts (S fuel) io url file_path max_retries attempt fs
  = DownloadUtils.after DownloadUtils.StartOver
      [World.Head url;
       World.Get url
         (DownloadUtils.range_of (DownloadUtils.existing_size_of file_path fs1));
       World.Sleep (2 ^ (attempt + 1))]
    <$> DownloadUtils.attempts fuel io url file_path max_retries
          (attempt + 1) fs2
  ∧ (DownloadUtils.remove_part_ok (io attempt) = true →
     fs2 !! DownloadUtils.temp_path_of file_path = None)
  ∧ (max_retries = attempt + 1 →
     DownloadUtils.result
       <$> DownloadUtils.attempts (S fuel) io url file_path max_retries
             attempt fs
     = Some (false, Some "Unknown error"))
  ∧ (∀ r, DownloadUtils.attempts (S fuel) io url file_path max_retries
            attempt fs = Some r →
          (length (filter (λ e, World.is_get e = true) (DownloadUtils.trace r))
           ≤ Z.to_nat (max_retries - attempt))%nat).
Proof.
  intros total_size fs1 fs2 Hlt Hcomplete Hget.
  assert (DownloadUtils.attempts (S fuel) io url file_path max_retries
            attempt fs
          = DownloadUtils.after DownloadUtils.StartOver
              [World.Head url;
               World.Get url
                 (DownloadUtils.range_of
                    (DownloadUtils.existing_size_of file_path fs1));
               World.Sleep (2 ^ (attempt + 1))]
            <$> DownloadUtils.attempts fuel io url file_path max_retries
                  (attempt + 1) fs2) as Hstep.
  { simpl. apply Z.ltb_lt in Hlt. rewrite Hlt.
    unfold DownloadUtils.attempt_body. fold total_size. rewrite Hcomplete.
    fold fs1. unfold DownloadUtils.respond. rewrite Hget. simpl. done. }
  split; [exact Hstep|]. split; [|split].
  - intros Hok. unfold fs2, DownloadUtils.try_remove. rewrite Hok.
    apply lookup_delete_eq.
  - intros ->. rewrite Hstep.
    destruct fuel; simpl; by rewrite Z.ltb_irrefl.
  - intros r Hr.
    pose proof (attempts_gets _ _ _ _ _ _ _ _ Hr).
    pose proof (attempts_steps_bound _ _ _ _ _ _ _ _ Hr). lia.
Qed.

Lemma range_not_satisfiable_uses_attempt_witness :
  DownloadUtils.result
    <$> DownloadUtils.attempts 1 (λ _, Examples.io_416) "u" "f" 1 0
          {[ "f.part" := Examples.abc ]}
  = Some (false, Some "Unknown error").
Proof.
  assert (0 < 1) as H1 by lia.
  assert (DownloadUtils.complete
            (DownloadUtils._get_total_size
               (DownloadUtils.head_answer Examples.io_416))
            "f" {[ "f.part" := Examples.abc ]} = false) as Hc
    by (vm_compute; reflexivity).
  apply (range_not_satisfiable_uses_attempt
           0 (λ _, Examples.io_416) "u" "f" 1 0
           {[ "f.part" := Examples.abc ]} World.HAbsent [] None
           H1 Hc eq_refl).
  reflexivity.
Defined.

(** C3 (as stated, refuted).  Two runs with [max_retries = 1] over a
    partial file of three bytes.  In the first the only attempt fails
    with status 416: the call returns [(False, "Unknown error")], not the
    error of that attempt, and the partial file is gone.  In the second
    the server ignores [Range] and its [content-length] header is not a
    number: the attempt fails, its error is returned, and the partial
    file has been deleted. *)
Lemma exhausted_retries_counterexample :
  DownloadUtils.download_with_resume
    (λ _, Examples.io_416) "u" "f" 1 {[ "f.part" := Examples.abc ]}
  = Some {| DownloadUtils.result := (false, Some "Unknown error");
            DownloadUtils.disk := ∅;
            DownloadUtils.trace :=
              [World.Head "u"; World.Get "u" (Some 3); World.Sleep 2];
            DownloadUtils.steps := [DownloadUtils.StartOver] |}
  ∧ DownloadUtils.download_with_resume
      (λ _, Examples.io_ignored) "u" "f" 1 {[ "f.part" := Examples.abc ]}
    = Some {| DownloadUtils.result :=
                (false,
                 Some "invalid literal for int() with base 10: '3, 3'");
              DownloadUtils.disk := ∅;
              DownloadUtils.trace :=
                [World.Head "u"; World.Get "u" (Some 3)];
              DownloadUtils.steps :=
                [DownloadUtils.Raise
                   "invalid literal for int() with base 10: '3, 3'"] |}.
Proof. split; vm_compute; reflexivity. Qed.

(** C3 (amended).  When [max_retries] is at least 1 and every pass of a
    run ends in the exception handler, the run makes exactly
    [max_retries] passes and returns [(False, e)] with [e] the error of
    the last pass.  The handler deletes nothing: a partial file present
    before the run is present after it, provided no GET of the run was
    answered with status 200. *)
Theorem exhausted_retries
    (io : Z → DownloadUtils.attempt_io) (url file_path : string)
    (max_retries : Z) (fs : gmap string World.bytes) (r : DownloadUtils.run) :
  DownloadUtils.download_with_resume io url file_path max_retries fs = Some r →
  0 < max_retries →
  forallb DownloadUtils.raised (DownloadUtils.steps r) = true →
  (∃ e, DownloadUtils.result r = (false, Some e)
        ∧ last (DownloadUtils.steps r) = Some (DownloadUtils.Raise e))
  ∧ Z.of_nat (length (DownloadUtils.steps r)) = max_retries
  ∧ (is_Some (fs !! DownloadUtils.temp_path_of file_path) →
     (∀ k, 0 ≤ k < max_retries →
           DownloadUtils.answered_200 (DownloadUtils.get_answer (io k))
           = false) →
     is_Some (DownloadUtils.disk r !! DownloadUtils.temp_path_of file_path)).
Proof.
  intros Hrun Hmax Hall.
  destruct (attempts_all_raised _ _ _ _ _ _ _ _ Hrun Hmax Hall)
    as (He & Hlen & Hkeep).
  split; [done|]. split; [lia|done].
Qed.

Lemma exhausted_retries_witness :
  ∃ r, DownloadUtils.download_with_resume
         (λ _, Examples.io_reset) "u" "f" 2 {[ "f.part" := Examples.abc ]}
       = Some r
       ∧ DownloadUtils.result r = (false, Some "Connection reset by peer")
       ∧ is_Some (DownloadUtils.disk r !! "f.part").
Proof.
  set (r := {| DownloadUtils.result :=
                 (false, Some "Connection reset by peer");
               DownloadUtils.disk := {[ "f.part" := Examples.abc ]};
               DownloadUtils.trace :=
                 [World.Head "u"; World.Get "u" (Some 3); World.Sleep 1;
                  World.Head "u"; World.Get "u" (Some 3)];
               DownloadUtils.steps :=
                 [DownloadUtils.Raise "Connection reset by peer";
                  DownloadUtils.Raise "Connection reset by peer"] |}).
  assert (DownloadUtils.download_with_resume
            (λ _, Examples.io_reset) "u" "f" 2 {[ "f.part" := Examples.abc ]}
          = Some r) as Hrun by (vm_compute; reflexivity).
  assert (0 < 2) as H2 by lia.
  destruct (exhausted_retries _ _ _ _ _ _ Hrun H2 eq_refl)
    as (_ & _ & Hkeep).
  exists r. split; [exact Hrun|]. split; [reflexivity|].
  apply Hkeep; [by eexists|]. intros k _. reflexivity.
Defined.

(** C4 (the code departs from the claim).  The filter of an ID range
    compares the ids as strings.  For the range 9000000-10000000 the
    bounds are sorted as integers and then compared as text, so the post
    9500000, which lies in the range, does not pass and the extraction
    yields nothing; for the range 100000-200000 the post 15, which lies
    outside, passes and is yielded. *)
Lemma id_range_filter_compares_text :
  (PostExtractor.parse_fetch_mode "9000000-10000000" 10
     ≫= λ offsets, Some (PostExtractor.plan_filter offsets 10))
  = Some (inr (PostExtractor.RangeFilter "9000000" "10000000",
               [PostExtractor.Offset 0]))
  ∧ PostExtractor.passes
      (PostExtractor.RangeFilter "9000000" "10000000") "9500000" = false
  ∧ PostExtractor.passes_as_integers 9000000 10000000 9500000 = true
  ∧ PostExtractor.produced
      (PostExtractor.extract_posts_streaming
         (Examples.site_one "9500000") "https://kemono.cr" true
         "9000000-10000000" 10) = []
  ∧ (PostExtractor.parse_fetch_mode "100000-200000" 10
       ≫= λ offsets, Some (PostExtractor.plan_filter offsets 10))
    = Some (inr (PostExtractor.RangeFilter "100000" "200000",
                 [PostExtractor.Offset 0]))
  ∧ PostExtractor.passes
      (PostExtractor.RangeFilter "100000" "200000") "15" = true
  ∧ PostExtractor.passes_as_integers 100000 200000 15 = false
  ∧ Records.id
      <$> PostExtractor.produced
            (PostExtractor.extract_posts_streaming
               (Examples.site_one "15") "https://kemono.cr" true
               "100000-200000" 10) = ["15"].
Proof. repeat split; vm_compute; reflexivity. Qed.

(** C5 (as stated, refuted).  With a queue of capacity 10, eleven records
    and download workers that take nothing off the queue, the push of the
    eleventh record times out: one ParallelExtractDownload.warning is printed, the record is
    dropped and the worker finishes with ten records in the queue. *)
Lemma full_queue_counterexample :
  let final :=
    ParallelExtractDownload.extraction_worker (λ _, 0%nat)
      Examples.eleven_posts in
  ParallelExtractDownload.dropped final = [10%nat]
  ∧ ParallelExtractDownload.enqueued final = seq 0 10
  ∧ length (ParallelExtractDownload.queue final) = 10%nat
  ∧ ParallelExtractDownload.printed final
    = [World.Log "Warning: Could not put post in queue: "]
  ∧ ParallelExtractDownload.total final = 11.
Proof. repeat split; vm_compute; reflexivity. Qed.

(** C5 (amended).  The producer pushes every record exactly once.  When
    the push of a record cannot complete within the wait (the queue
    still holds [QUEUE_MAXSIZE] records after what the workers took), the
    producer prints a ParallelExtractDownload.warning and goes on to the next record: that record
    is dropped and never enters the queue.  Every record is counted in
    [total], and there is one ParallelExtractDownload.warning for each dropped record: the
    lines the producer prints are as many warnings as there are dropped
    records, followed by the line for an exception of the generator if it
    raised one. *)
Theorem full_queue_drops_record
    (taken : nat → nat) (s : PostExtractor.extraction)
    (k : nat) (p : Records.post) :
  let before :=
    ParallelExtractDownload.extraction_loop
      taken (PostExtractor.produced s) k in
  let final := ParallelExtractDownload.extraction_worker taken s in
  PostExtractor.produced s !! k = Some p →
  (ParallelExtractDownload.QUEUE_MAXSIZE
   ≤ length (drop (taken k) (ParallelExtractDownload.queue before)))%nat →
  k ∈ ParallelExtractDownload.dropped final
  ∧ (k ∉ ParallelExtractDownload.enqueued final)
  ∧ ParallelExtractDownload.warning ∈ ParallelExtractDownload.printed final
  ∧ ParallelExtractDownload.enqueued final
      ++ ParallelExtractDownload.dropped final
    ≡ₚ seq 0 (length (PostExtractor.produced s))
  ∧ ParallelExtractDownload.total final
    = Z.of_nat (length (PostExtractor.produced s))
  ∧ ParallelExtractDownload.extraction_done final = true
  ∧ ParallelExtractDownload.printed final
    = replicate (length (ParallelExtractDownload.dropped final))
                ParallelExtractDownload.warning
      ++ match PostExtractor.ended s with
         | PostExtractor.Raised _ => [World.Log "Error during extraction"]
         | _ => []
         end.
Proof.
  intros before final Hk Hfull.
  pose proof (lookup_lt_Some _ _ _ Hk) as Hlt.
  destruct (extraction_loop_invariant taken (PostExtractor.produced s)
              (length (PostExtractor.produced s)) ltac:(lia))
    as (Hperm & Htotal & Hprinted & _).
  assert (k ∈ ParallelExtractDownload.dropped final) as Hdropped.
  { unfold final, ParallelExtractDownload.extraction_worker. simpl.
    apply (extraction_loop_dropped_mono _ _ (S k)); [lia|].
    simpl. rewrite Hk. unfold ParallelExtractDownload.extraction_step.
    unfold ParallelExtractDownload.put. fold before.
    apply Nat.ltb_ge in Hfull. rewrite Hfull. simpl.
    apply elem_of_app. right. by apply list_elem_of_singleton. }
  unfold final, ParallelExtractDownload.extraction_worker in *. simpl in *.
  split; [done|]. split; [|split; [|split; [done|split; [done|split;
                                                              [done|]]]]].
  - intros Henq.
    assert (NoDup (seq 0 (length (PostExtractor.produced s)))) as Hnd
      by apply NoDup_seq.
    rewrite <-Hperm in Hnd. apply NoDup_app in Hnd as (_ & Hdisj & _).
    by apply (Hdisj k).
  - assert (ParallelExtractDownload.warning ∈ ParallelExtractDownload.printed
              (ParallelExtractDownload.extraction_loop taken
                 (PostExtractor.produced s)
                 (length (PostExtractor.produced s)))) as Hw.
    { rewrite Hprinted.
      destruct (ParallelExtractDownload.dropped _) as [|d ds];
        [by apply elem_of_nil in Hdropped|].
      simpl. left. }
    destruct (PostExtractor.ended s); try done.
    apply elem_of_app. by left.
  - rewrite Hprinted.
    destruct (PostExtractor.ended s); by rewrite ?(right_id_L [] (++)).
Qed.

Lemma full_queue_drops_record_witness :
  (10%nat ∈ ParallelExtractDownload.dropped
             (ParallelExtractDownload.extraction_worker (λ _, 0%nat)
                Examples.eleven_posts))
  ∧ (10%nat ∉ ParallelExtractDownload.enqueued
               (ParallelExtractDownload.extraction_worker (λ _, 0%nat)
                  Examples.eleven_posts)).
Proof.
  assert (PostExtractor.produced Examples.eleven_posts !! 10%nat
          = Some (Examples.post_of "10")) as Hk by reflexivity.
  assert (ParallelExtractDownload.QUEUE_MAXSIZE
          ≤ length (drop 0
                      (ParallelExtractDownload.queue
                         (ParallelExtractDownload.extraction_loop
                            (λ _, 0%nat)
                            (PostExtractor.produced Examples.eleven_posts)
                            10))))%nat as Hfull
    by (vm_compute; lia).
  destruct (full_queue_drops_record
              (λ _, 0%nat) Examples.eleven_posts 10
              (Examples.post_of "10") Hk Hfull) as (Hd & He & _).
  split; [exact Hd|exact He].
Defined.

(** C6 (as stated, refuted).  With no posts at all the plan of the fetch
    mode "0" is not empty, and the streaming extraction that consumes it
    fetches page 0. *)
Lemma empty_profile_counterexample :
  PostExtractor.parse_fetch_mode "0" 0 = Some [PostExtractor.Offset 0]
  ∧ PostExtractor.fetched
      (PostExtractor.extract_posts_streaming
         Examples.site_empty "https://kemono.cr" true "0" 0) = [0].
Proof. split; vm_compute; reflexivity. Qed.

(** C6 (amended).  [parse_fetch_mode("all", 120)] is [[0, 50, 100]] and
    [parse_fetch_mode("0", 10)] is [[0]].  With no posts the plans of
    "all" and of "start-end" are empty, and [extract_posts], which
    returns at its [count == 0] guard before it asks for a plan, fetches
    no page, yields no record and ends there, whatever the fetch mode. *)
Theorem offset_plans :
  PostExtractor.parse_fetch_mode "all" 120
  = Some [PostExtractor.Offset 0; PostExtractor.Offset 50;
          PostExtractor.Offset 100]
  ∧ PostExtractor.parse_fetch_mode "0" 10 = Some [PostExtractor.Offset 0]
  ∧ PostExtractor.parse_fetch_mode "all" 0 = Some []
  ∧ PostExtractor.parse_fetch_mode "start-end" 0 = Some []
  ∧ (∀ w base_server save_empty_files fetch_mode,
       PostExtractor.fetched
         (PostExtractor.extract_posts
            w base_server save_empty_files fetch_mode 0) = []
       ∧ PostExtractor.produced
           (PostExtractor.extract_posts
              w base_server save_empty_files fetch_mode 0) = []
       ∧ PostExtractor.ended
           (PostExtractor.extract_posts
              w base_server save_empty_files fetch_mode 0)
         = PostExtractor.EmptyProfile).
Proof. repeat split; vm_compute; reflexivity. Qed.

(** C7 (as stated, refuted).  A post with one file whose final file is on
    disk with size 0 and has no partial file: with the default
    configuration [process_post] sends a HEAD request for it before it
    downloads it. *)
Lemma empty_final_counterexample :
  BatchFileDownloader.files Examples.empty_on_disk !! "f.part" = None
  ∧ BatchFileDownloader.files Examples.empty_on_disk !! "f" = Some []
  ∧ BatchFileDownloader.verify_requests
      <$> BatchFileDownloader.process_downloads
            Examples.cfg_default Examples.w_example [("u", "f")]
            Examples.empty_on_disk
    = Some [World.Head "u"].
Proof. repeat split; vm_compute; reflexivity. Qed.

(** C7 (amended).  A candidate with no partial file and an empty final
    file always ends in the download set.  When skipping of existing
    files is enabled it gets there through remote verification: a HEAD
    request is sent for it, and whatever the answer the file is
    classified as to be downloaded.  When skipping is disabled no HEAD
    request is sent at all. *)
Theorem empty_final_verified_then_downloaded
    (cfg : BatchFileDownloader.Config) (w : BatchFileDownloader.post_io)
    (downloads : list (string * string)) (st : BatchFileDownloader.storage)
    (file_url file_save_path : string) :
  (∀ l, BatchFileDownloader.as_completed w l ≡ₚ l) →
  (file_url, file_save_path) ∈ downloads →
  BatchFileDownloader.files st !! (file_save_path +:+ ".part") = None →
  BatchFileDownloader.files st !! file_save_path = Some [] →
  BatchFileDownloader.unreadable w file_save_path = false →
  ∃ pr, BatchFileDownloader.process_downloads cfg w downloads st = Some pr
        ∧ (file_url, file_save_path)
            ∈ BatchFileDownloader.files_to_download
                (BatchFileDownloader.gate pr)
        ∧ if BatchFileDownloader.skip_existed_files cfg
          then World.Head file_url ∈ BatchFileDownloader.verify_requests pr
          else BatchFileDownloader.verify_requests pr = [].
Proof.
  intros Hperm Hin Hpart Hfinal Hread.
  destruct (process_downloads_total cfg w downloads st) as [pr Hpr].
  exists pr. split; [done|].
  destruct (process_downloads_gate _ _ _ _ _ Hpr) as [Hgate Hreq].
  rewrite Hgate, Hreq. clear Hgate Hreq Hpr.
  destruct (BatchFileDownloader.skip_existed_files cfg) eqn:Hskip.
  - pose proof (pre_check_empty_final cfg _ _ _ _ _
                  Hskip Hin Hpart Hfinal Hread) as Hv.
    split.
    + apply merge_verified_download. rewrite (Hperm _).
      rewrite verify_all_answers. apply list_elem_of_fmap.
      exists (file_url, file_save_path, 0). split; [|done]. simpl.
      by rewrite verify_file_empty.
    + apply list_elem_of_fmap. by exists (file_url, file_save_path, 0).
  - unfold BatchFileDownloader.pre_check. rewrite Hskip. simpl. split; [|done].
    pose proof (Hperm []) as Hnil. apply Permutation_nil_r in Hnil.
    rewrite Hnil. done.
Qed.

Lemma empty_final_verified_then_downloaded_witness :
  ∃ pr, BatchFileDownloader.process_downloads
          Examples.cfg_default Examples.w_example [("u", "f")]
          Examples.empty_on_disk = Some pr
        ∧ ("u", "f") ∈ BatchFileDownloader.files_to_download
                         (BatchFileDownloader.gate pr)
        ∧ World.Head "u" ∈ BatchFileDownloader.verify_requests pr.
Proof.
  apply (empty_final_verified_then_downloaded
           Examples.cfg_default Examples.w_example [("u", "f")]
           Examples.empty_on_disk "u" "f").
  - intros l. reflexivity.
  - apply list_elem_of_singleton. reflexivity.
  - reflexivity.
  - reflexivity.
  - reflexivity.
Defined.

(** C8.  The operations on the failure ledger are idempotent on the set
    the ledger file holds.  After [add(x)] twice the file reads back as
    the same set as after [add(x)] once, for every link [x] and every
    content of the file; when [x] is a URL (not empty, no white space)
    the file itself is the same.  When [x] is not in the ledger,
    [remove(x)] twice leaves the set that is read back as it was; and
    removing twice always leaves the same file as removing once. *)
Theorem ledger_add_remove_idempotent
    (files : gmap string string) (file_path x : string) :
  FailureHandlers.load_failed_downloads
    (FailureHandlers.add_failed_download x file_path
       (FailureHandlers.add_failed_download x file_path files))
    file_path
  = FailureHandlers.load_failed_downloads
      (FailureHandlers.add_failed_download x file_path files) file_path
  ∧ (x ≠ "" → PyStr.every (λ c, negb (PyStr.isspace c)) x →
     FailureHandlers.add_failed_download x file_path
       (FailureHandlers.add_failed_download x file_path files)
     = FailureHandlers.add_failed_download x file_path files)
  ∧ (x ∉ FailureHandlers.load_failed_downloads files file_path →
     FailureHandlers.load_failed_downloads
       (FailureHandlers.remove_failed_download x file_path
          (FailureHandlers.remove_failed_download x file_path files))
       file_path
     = FailureHandlers.load_failed_downloads files file_path)
  ∧ FailureHandlers.remove_failed_download x file_path
      (FailureHandlers.remove_failed_download x file_path files)
    = FailureHandlers.remove_failed_download x file_path files.
Proof.
  split; [|split; [|split]].
  - apply set_eq. intros e. rewrite !load_add.
    split; [intros [[He|He]|He]|intros [He|He]]; auto.
  - intros Hne Hns. by apply add_add_file, url_clean.
  - intros Hx. rewrite !load_remove. apply set_eq. intros e.
    rewrite !elem_of_difference, elem_of_singleton.
    split; [by intros [[He _] _]|].
    intros He. repeat split; try done; by intros ->.
  - apply remove_remove_file.
Qed.

Lemma ledger_add_remove_idempotent_witness :
  FailureHandlers.add_failed_download
    "https://b/2.png" "failed_downloads.txt"
    (FailureHandlers.add_failed_download
       "https://b/2.png" "failed_downloads.txt" Examples.ledger_one)
  = FailureHandlers.add_failed_download
      "https://b/2.png" "failed_downloads.txt" Examples.ledger_one
  ∧ FailureHandlers.load_failed_downloads
      (FailureHandlers.remove_failed_download
         "https://b/2.png" "failed_downloads.txt"
         (FailureHandlers.remove_failed_download
            "https://b/2.png" "failed_downloads.txt" Examples.ledger_one))
      "failed_downloads.txt"
    = FailureHandlers.load_failed_downloads
        Examples.ledger_one "failed_downloads.txt".
Proof.
  destruct (ledger_add_remove_idempotent
              Examples.ledger_one "failed_downloads.txt" "https://b/2.png")
    as (_ & Hadd & Hremove & _).
  split.
  - apply Hadd; [done|reflexivity].
  - apply Hremove. intros H%elem_of_elements. vm_compute in H.
    by apply list_elem_of_singleton in H.
Defined.

(** C9 (as stated, refuted).  A post of two files, the first of them on
    the disk.  The gate skips the first and dispatches the second; the
    interrupt arrives before the loop has read the result of that
    transfer, which a worker has taken up and which ends in success: the
    file is on the disk.  [process_post] returns [successful = 1], the
    skipped file alone, where the claim counts two. *)
Lemma interrupted_post_counterexample :
  ∃ pr, BatchFileDownloader.process_post_interruptible
          Examples.cfg_default Examples.w_ok
          (Some Examples.interrupt_at_once) Examples.save_path_example
          Examples.two_files Examples.one_on_disk = Some pr
        ∧ BatchFileDownloader.skipped_count (BatchFileDownloader.gate pr) = 1
        ∧ BatchFileDownloader.files_to_download (BatchFileDownloader.gate pr)
          = [("https://n1/data/b.png", "posts/1/2-b.png")]
        ∧ BatchFileDownloader.outcomes pr = [(true, None)]
        ∧ BatchFileDownloader.files (BatchFileDownloader.storage_after pr)
            !! "posts/1/2-b.png" = Some Examples.abc
        ∧ BatchFileDownloader.returned pr
          = {| BatchFileDownloader.total_files := 2;
               BatchFileDownloader.successful := 1;
               BatchFileDownloader.failed := [] |}
        ∧ BatchFileDownloader.successful (BatchFileDownloader.returned pr)
          ≠ BatchFileDownloader.skipped_count (BatchFileDownloader.gate pr)
            + Z.of_nat
                (length
                   (filter (λ o, BatchFileDownloader.succeeded o = true)
                           (BatchFileDownloader.outcomes pr))).
Proof.
  eexists. split; [vm_compute; reflexivity|].
  repeat split; try (vm_compute; reflexivity). vm_compute. discriminate.
Qed.

(** C9 (amended).  In every run of [process_post] that returns, with or
    without a keyboard interrupt during the downloads, [successful] is
    the number of files the gate skipped plus the number of dispatched
    transfers whose result the orchestrator read and that reported
    success; every file is either skipped or dispatched, and [failed]
    has one entry for each result read that is not a success.  The
    results read are the first results of the transfers that ran, and
    without an interrupt they are the results of all dispatched
    transfers, each of which ran.  In particular, when every file is
    skipped, [successful] equals [total_files] and [failed] is empty. *)
Theorem success_count_includes_skipped
    (cfg : BatchFileDownloader.Config) (w : BatchFileDownloader.post_io)
    (i : option BatchFileDownloader.interruption)
    (save_path : Z → string → string) (post_files : list Records.file_ref)
    (st : BatchFileDownloader.storage) :
  (∀ l, BatchFileDownloader.as_completed w l ≡ₚ l) →
  ∃ pr, BatchFileDownloader.process_post_interruptible
          cfg w i save_path post_files st = Some pr
        ∧ let skipped :=
            BatchFileDownloader.skipped_count (BatchFileDownloader.gate pr) in
          let dispatched :=
            BatchFileDownloader.files_to_download
              (BatchFileDownloader.gate pr) in
          let results :=
            BatchFileDownloader.read i (BatchFileDownloader.outcomes pr) in
          let succeeded :=
            filter (λ o, BatchFileDownloader.succeeded o = true) results in
          let returned := BatchFileDownloader.returned pr in
          BatchFileDownloader.successful returned
          = skipped + Z.of_nat (length succeeded)
          ∧ BatchFileDownloader.total_files returned
            = Z.of_nat (length post_files)
          ∧ BatchFileDownloader.total_files returned
            = skipped + Z.of_nat (length dispatched)
          ∧ length (BatchFileDownloader.outcomes pr)
            = length (BatchFileDownloader.started i dispatched)
          ∧ results `prefix_of` BatchFileDownloader.outcomes pr
          ∧ (length results ≤ length dispatched)%nat
          ∧ Z.of_nat (length (BatchFileDownloader.failed returned))
            = Z.of_nat (length results) - Z.of_nat (length succeeded)
          ∧ (i = None →
             results = BatchFileDownloader.outcomes pr
             ∧ length (BatchFileDownloader.outcomes pr) = length dispatched)
          ∧ (skipped = BatchFileDownloader.total_files returned →
             BatchFileDownloader.successful returned
             = BatchFileDownloader.total_files returned
             ∧ BatchFileDownloader.failed returned = []).
Proof.
  intros Hperm. unfold BatchFileDownloader.process_post_interruptible.
  set (downloads := BatchFileDownloader.downloads_of save_path post_files).
  destruct (process_downloads_interruptible_total cfg w i downloads st)
    as [pr Hpr].
  exists pr. split; [done|].
  destruct (process_downloads_interruptible_gate _ _ _ _ _ _ Hpr)
    as (pr0 & Hpr0 & Hgate & _ & Htot).
  destruct (process_downloads_counts _ _ _ _ _ Hperm Hpr0)
    as (Htotal & _ & Hpart & _ & _).
  rewrite <- Hgate, <- Htot in Hpart. rewrite <- Htot in Htotal.
  assert (length downloads = length post_files) as Hdl.
  { unfold downloads, BatchFileDownloader.downloads_of. apply length_imap. }
  cbv zeta.
  destruct (process_downloads_interruptible_collect _ _ _ _ _ _ Hpr)
    as [(Hnil & Hos & Hsucc & Hfail)|(Hne & [st0 Hall] & Hsucc & Hfail)].
  - rewrite Hnil in *. rewrite Hos, Hsucc, Hfail.
    assert (BatchFileDownloader.read i [] = []) as ->
      by (by destruct i as [x|]; simpl; rewrite ?take_nil).
    simpl in *. split_and!; try done; try lia.
    destruct i as [x|]; simpl; [|done]. by rewrite take_nil, drop_nil.
  - apply download_all_length in Hall.
    pose proof (read_length i _ _ Hall) as Hle.
    destruct (collect_counts_le
                (BatchFileDownloader.files_to_download
                   (BatchFileDownloader.gate pr))
                (BatchFileDownloader.read i (BatchFileDownloader.outcomes pr))
                (0, []) Hle) as [Hc1 Hc2].
    fold (BatchFileDownloader.collect
            (BatchFileDownloader.files_to_download
               (BatchFileDownloader.gate pr))
            (BatchFileDownloader.read i (BatchFileDownloader.outcomes pr)))
      in Hc1, Hc2.
    rewrite Hsucc, Hfail. simpl in Hc1, Hc2.
    split_and!; try done; try lia.
    + apply read_prefix.
    + intros ->. done.
    + intros Hall'.
      destruct (BatchFileDownloader.files_to_download
                  (BatchFileDownloader.gate pr)); [done|].
      simpl in *. lia.
Qed.

Lemma success_count_includes_skipped_witness :
  ∃ pr, BatchFileDownloader.process_post_interruptible
          Examples.cfg_default Examples.w_ok
          (Some Examples.interrupt_at_once) Examples.save_path_example
          Examples.two_files Examples.one_on_disk = Some pr
        ∧ BatchFileDownloader.successful (BatchFileDownloader.returned pr)
          = BatchFileDownloader.skipped_count (BatchFileDownloader.gate pr)
            + Z.of_nat
                (length
                   (filter (λ o, BatchFileDownloader.succeeded o = true)
                           (BatchFileDownloader.read
                              (Some Examples.interrupt_at_once)
                              (BatchFileDownloader.outcomes pr)))).
Proof.
  destruct (success_count_includes_skipped
              Examples.cfg_default Examples.w_ok
              (Some Examples.interrupt_at_once)
              Examples.save_path_example
              Examples.two_files Examples.one_on_disk
              (λ l, reflexivity l))
    as (pr & Hpr & Hsucc & _).
  exists pr. split; [exact Hpr|exact Hsucc].
Defined.

(** C10. The ledger round-trips: a set of links that are not empty and
    hold no white space is read back exactly from the file
    [FailureHandlers.save_failed_downloads] writes; the lines of that file are the links,
    one per line, in strictly increasing order. *)
Theorem ledger_round_trip
    (failed_links : gset string) (file_path : string)
    (files : gmap string string) :
  (∀ link, link ∈ failed_links →
     link ≠ "" ∧ PyStr.every (λ c, negb (PyStr.isspace c)) link) →
  FailureHandlers.load_failed_downloads
    (FailureHandlers.save_failed_downloads failed_links file_path files) file_path
  = failed_links
  ∧ ∃ text links,
      FailureHandlers.save_failed_downloads failed_links file_path files !! file_path
      = Some text
      ∧ PyStr.file_lines text = (λ link, link +:+ PyStr.nl) <$> links
      ∧ StronglySorted String.le links
      ∧ NoDup links
      ∧ ∀ link, link ∈ links ↔ link ∈ failed_links.
Proof.
  intros Hlinks.
  assert (∀ link, link ∈ failed_links → FailureHandlers.clean link) as Hclean.
  { intros link [Hne Hns]%Hlinks. by apply url_clean. }
  split; [by apply load_save_clean|].
  exists (FailureHandlers.ledger_text (FailureHandlers.sorted failed_links)),
         (FailureHandlers.sorted failed_links).
  split; [apply lookup_insert_eq|]. split; [|split; [|split]].
  - apply file_lines_ledger, Forall_forall.
    intros link (Hcr & Hlf & _)%elem_of_sorted%Hclean. by split.
  - apply sorted_StronglySorted.
  - apply sorted_NoDup.
  - apply elem_of_sorted.
Qed.

Lemma ledger_round_trip_witness :
  FailureHandlers.load_failed_downloads
    (FailureHandlers.save_failed_downloads
       Examples.two_links "failed_downloads.txt" ∅)
    "failed_downloads.txt"
  = Examples.two_links.
Proof.
  apply (ledger_round_trip Examples.two_links "failed_downloads.txt" ∅).
  intros link [->%elem_of_singleton| ->%elem_of_singleton]%elem_of_union;
    split; done.
Defined.

(* ===================================================================== *)
(** * Beyond the claims: more of the code *)
(* ===================================================================== *)

(* ===================================================================== *)
(** * More on the transfer engine *)
(* ===================================================================== *)

Section transfer_results.
Import World DownloadUtils.



(** ** What a pass leaves alone *)

Lemma try_remove_frame ok path (fs : gmap string bytes) p :
  p ≠ path → try_remove ok path fs !! p = fs !! p.
Proof.
  intros Hp. unfold try_remove. destruct ok; [|done].
  by rewrite lookup_delete_ne.
Qed.

Lemma make_room_frame io total_size file_path fs p :
  p ≠ file_path → p ≠ temp_path_of file_path →
  make_room io total_size file_path fs !! p = fs !! p.
Proof.
  intros Hp Ht. unfold make_room.
  destruct (fs !! file_path); [|done]. destruct total_size; [|done].
  destruct (replace_final_ok io).
  - by rewrite lookup_insert_ne, lookup_delete_ne.
  - by apply try_remove_frame.
Qed.

Lemma finalize_frame io file_path fs s fs' p :
  finalize io file_path fs = (s, fs') →
  p ≠ file_path → p ≠ temp_path_of file_path →
  fs' !! p = fs !! p.
Proof.
  intros H Hp Ht. unfold finalize in H.
  destruct (finalize_replace_ok io).
  - injection H as <- <-. by rewrite lookup_insert_ne, lookup_delete_ne.
  - destruct (finalize_copy io); injection H as <- <-;
      rewrite ?lookup_insert_ne, ?lookup_delete_ne; done.
Qed.

Lemma finalize_result io file_path fs ok err fs' :
  finalize io file_path fs = (Return ok err, fs') →
  if ok then err = None ∧ is_Some (fs' !! file_path) else is_Some err.
Proof.
  unfold finalize. destruct (finalize_replace_ok io).
  - intros [= <- <- <-]. by rewrite lookup_insert_eq.
  - destruct (finalize_copy io); intros [= <- <- <-];
      rewrite ?lookup_insert_eq; done.
Qed.

Lemma receive_frame io url file_path size cl chunks serr fs s fs' evs p :
  receive io url file_path size cl chunks serr fs = (s, fs', evs) →
  p ≠ file_path → p ≠ temp_path_of file_path →
  fs' !! p = fs !! p.
Proof.
  intros H Hp Ht. unfold receive in H.
  assert (∀ probe,
    match open_part_error io with
    | Some e => (Raise e, fs, probe)
    | None =>
        let base := if 0 <? size
                    then default [] (fs !! temp_path_of file_path)
                    else [] in
        let fs' := <[temp_path_of file_path := write_chunks base chunks]> fs in
        match serr with
        | Some e => (Raise e, fs', probe)
        | None => let '(s, fs'') := finalize io file_path fs' in
                  (s, fs'', probe)
        end
    end = (s, fs', evs) → fs' !! p = fs !! p) as Hrest.
  { intros probe. destruct (open_part_error io); [by intros [= <- <- <-]|].
    simpl. destruct serr.
    - intros [= <- <- <-]. by rewrite lookup_insert_ne.
    - destruct (finalize _ _ _) as [s0 fs0] eqn:E. intros [= <- <- <-].
      rewrite (finalize_frame _ _ _ _ _ _ E Hp Ht).
      by rewrite lookup_insert_ne. }
  destruct cl; [by eapply Hrest..|by injection H as <- <- <-].
Qed.

Lemma receive_result io url file_path size cl chunks serr fs ok err fs' evs :
  receive io url file_path size cl chunks serr fs = (Return ok err, fs', evs) →
  if ok then err = None ∧ is_Some (fs' !! file_path) else is_Some err.
Proof.
  unfold receive.
  destruct cl; try done;
    (destruct (open_part_error io); [done|]); simpl;
    (destruct serr; [done|]);
    (destruct (finalize _ _ _) as [s0 fs0] eqn:E); intros [= -> -> <-];
    by eapply finalize_result.
Qed.

Lemma respond_frame io url file_path fs s fs' evs p :
  respond io url file_path fs = (s, fs', evs) →
  p ≠ file_path → p ≠ temp_path_of file_path →
  fs' !! p = fs !! p.
Proof.
  intros H Hp Ht. unfold respond in H.
  destruct (get_answer io) as [e|status cl chunks serr];
    [by injection H as <- <- <-|].
  destruct (status =? 416).
  { injection H as <- <- <-. by apply try_remove_frame. }
  destruct (400 <=? status).
  { injection H as <- <- <-. destruct (_ && _); [|done].
    by apply try_remove_frame. }
  apply receive_frame with (p := p) in H; [|done..]. rewrite H.
  destruct (_ && _); [|done]. by apply try_remove_frame.
Qed.

Lemma respond_result io url file_path fs ok err fs' evs :
  respond io url file_path fs = (Return ok err, fs', evs) →
  if ok then err = None ∧ is_Some (fs' !! file_path) else is_Some err.
Proof.
  unfold respond.
  destruct (get_answer io) as [e|status cl chunks serr]; [done|].
  destruct (status =? 416); [done|].
  destruct (400 <=? status); [done|].
  apply receive_result.
Qed.

Lemma attempt_body_frame io url file_path fs s fs' evs p :
  attempt_body io url file_path fs = (s, fs', evs) →
  p ≠ file_path → p ≠ temp_path_of file_path →
  fs' !! p = fs !! p.
Proof.
  intros H Hp Ht. unfold attempt_body in H.
  destruct (complete _ _ _); [by injection H as <- <- <-|].
  destruct (respond _ _ _ _) as [[s0 fs0] evs0] eqn:E.
  injection H as <- <- <-.
  rewrite (respond_frame _ _ _ _ _ _ _ _ E Hp Ht).
  by apply make_room_frame.
Qed.

Lemma attempt_body_result io url file_path fs ok err fs' evs :
  attempt_body io url file_path fs = (Return ok err, fs', evs) →
  if ok then err = None ∧ is_Some (fs' !! file_path) else is_Some err.
Proof.
  unfold attempt_body.
  destruct (complete _ _ _) eqn:Ec.
  - intros [= <- <- <- <-]. split; [done|].
    unfold complete in Ec. by destruct (fs !! file_path).
  - destruct (respond _ _ _ _) as [[s0 fs0] evs0] eqn:E.
    intros [= -> -> <-]. by eapply respond_result.
Qed.

(** Whatever a run does, it touches no file but the final and the
    partial one. *)
Lemma attempts_frame fuel io url file_path max_retries attempt fs r p :
  attempts fuel io url file_path max_retries attempt fs = Some r →
  p ≠ file_path → p ≠ temp_path_of file_path →
  disk r !! p = fs !! p.
Proof.
  intros H Hp Ht. revert attempt fs r H.
  induction fuel as [|fuel IH]; intros attempt fs r; simpl.
  - destruct (attempt <? max_retries); [done|]. by intros [= <-].
  - destruct (attempt <? max_retries); [|by intros [= <-]].
    destruct (attempt_body _ _ _ _) as [[[ok err| |e] fs'] evs] eqn:E;
      pose proof (attempt_body_frame _ _ _ _ _ _ _ _ E Hp Ht) as Hf.
    + by intros [= <-].
    + intros (r' & Hr' & ->)%fmap_Some. simpl.
      by rewrite (IH _ _ _ Hr').
    + destruct (max_retries <=? attempt + 1); [by intros [= <-]|].
      intros (r' & Hr' & ->)%fmap_Some. simpl.
      by rewrite (IH _ _ _ Hr').
Qed.

(** A run that reports success has no error message and leaves the
    final file on the disk; a run that reports failure has a message. *)
Lemma attempts_result fuel io url file_path max_retries attempt fs r :
  attempts fuel io url file_path max_retries attempt fs = Some r →
  if (result r).1
  then (result r).2 = None ∧ is_Some (disk r !! file_path)
  else is_Some ((result r).2).
Proof.
  revert attempt fs r.
  induction fuel as [|fuel IH]; intros attempt fs r; simpl.
  - destruct (attempt <? max_retries); [done|]. intros [= <-]. simpl. eauto.
  - destruct (attempt <? max_retries); [|intros [= <-]; simpl; eauto].
    destruct (attempt_body _ _ _ _) as [[[ok err| |e] fs'] evs] eqn:E.
    + intros [= <-]. simpl. by eapply attempt_body_result.
    + intros (r' & Hr' & ->)%fmap_Some. simpl. by eapply IH.
    + destruct (max_retries <=? attempt + 1); [intros [= <-]; simpl; eauto|].
      intros (r' & Hr' & ->)%fmap_Some. simpl. by eapply IH.
Qed.

End transfer_results.

Section transfer_backoff.
Import World DownloadUtils Events.

Lemma respond_no_sleep io url file_path fs s fs' evs :
  respond io url file_path fs = (s, fs', evs) →
  filter (λ e, is_sleep e = true) evs = [].
Proof.
  unfold respond.
  destruct (get_answer io) as [e|status cl chunks serr]; [by intros [= <- <- <-]|].
  destruct (status =? 416); [by intros [= <- <- <-]|].
  destruct (400 <=? status); [by intros [= <- <- <-]|].
  unfold receive.
  destruct cl; try (by intros [= <- <- <-]);
    (destruct (open_part_error io); [by intros [= <- <- <-]|]);
    (destruct serr; [by intros [= <- <- <-]|]);
    destruct (finalize _ _ _); by intros [= <- <- <-].
Qed.

Lemma attempt_body_no_sleep io url file_path fs s fs' evs :
  attempt_body io url file_path fs = (s, fs', evs) →
  filter (λ e, is_sleep e = true) evs = [].
Proof.
  unfold attempt_body. destruct (complete _ _ _); [by intros [= <- <- <-]|].
  destruct (respond _ _ _ _) as [[s0 fs0] evs0] eqn:E.
  intros [= <- <- <-]. apply respond_no_sleep in E.
  by rewrite !filter_cons_False by (simpl; done).
Qed.

Lemma powers_from (a : Z) (n : nat) :
  (λ i, Sleep (2 ^ (a + Z.of_nat i))) <$> seq 0 (S n)
  = Sleep (2 ^ a) :: ((λ i, Sleep (2 ^ (a + 1 + Z.of_nat i))) <$> seq 0 n).
Proof.
  simpl. rewrite Z.add_0_r. f_equal.
  rewrite <- seq_shift, <- list_fmap_compose.
  apply list_fmap_ext. intros _ i _. simpl. do 2 f_equal. lia.
Qed.

(** When every pass ends in the exception handler, the sleeps of the
    run are [2 ** attempt], one between two passes and none after the
    last. *)
Lemma attempts_all_raised_sleeps fuel io url file_path max_retries attempt
      fs r :
  attempts fuel io url file_path max_retries attempt fs = Some r →
  attempt < max_retries →
  forallb raised (steps r) = true →
  filter (λ e, is_sleep e = true) (trace r)
  = (λ i, Sleep (2 ^ (attempt + Z.of_nat i)))
      <$> seq 0 (Z.to_nat (max_retries - attempt - 1)).
Proof.
  revert attempt fs r.
  induction fuel as [|fuel IH]; intros attempt fs r; simpl.
  - destruct (attempt <? max_retries) eqn:E; [done|]. lia.
  - destruct (attempt <? max_retries) eqn:E; [|lia].
    destruct (attempt_body _ _ _ _) as [[[ok err| |e] fs'] evs] eqn:Eb;
      pose proof (attempt_body_no_sleep _ _ _ _ _ _ _ Eb) as Hns.
    + by intros [= <-].
    + by intros (r' & Hr' & ->)%fmap_Some.
    + destruct (max_retries <=? attempt + 1) eqn:E'.
      * intros [= <-] _ _. simpl. rewrite Hns.
        by replace (Z.to_nat (max_retries - attempt - 1)) with 0%nat by lia.
      * intros (r' & Hr' & ->)%fmap_Some _ Hall. simpl in *.
        rewrite !filter_app, Hns. simpl.
        rewrite (IH _ _ _ Hr') by (done || lia).
        replace (Z.to_nat (max_retries - attempt - 1))
          with (S (Z.to_nat (max_retries - (attempt + 1) - 1))) by lia.
        rewrite powers_from.
        by replace (attempt + 1 - 1) with attempt by lia.
Qed.

End transfer_backoff.

(* ===================================================================== *)
(** * The transfer as a call that can raise *)
(* ===================================================================== *)

Section transfer_call.
Import World DownloadUtils DownloadCall.

(** What a pass that did not return leads to. *)
Lemma handler_next io max_retries attempt e :
  match handler io max_retries attempt e with
  | Leave e' => ∃ m, sleep_error io m = Some e'
  | Fail err => err = e
  | Again attempt' evs =>
      attempt' = attempt + 1
      ∧ evs = [Sleep (2 ^ attempt)]
      ∧ attempt + 1 < max_retries
      ∧ sleep_error io (2 ^ attempt) = None
  end.
Proof.
  unfold handler. destruct (max_retries <=? attempt + 1) eqn:E; [done|].
  apply Z.leb_gt in E.
  replace (attempt + 1 - 1) with attempt by lia.
  destruct (sleep_error io (2 ^ attempt)) as [e'|] eqn:Es; [by eexists|].
  done.
Qed.

Lemma start_over_next io max_retries attempt :
  match start_over io max_retries attempt with
  | Leave e' => ∃ m, sleep_error io m = Some e'
  | Fail err => ∃ m, sleep_error io m = Some err
  | Again attempt' evs =>
      attempt < attempt'
      ∧ (∀ m, sleep_error io m = None →
              attempt' = attempt + 1 ∧ evs = [Sleep (2 ^ (attempt + 1))])
  end.
Proof.
  unfold start_over.
  destruct (sleep_error io (2 ^ (attempt + 1))) as [e|] eqn:Es.
  - pose proof (handler_next io max_retries (attempt + 1) e) as H.
    destruct (handler _ _ _ _) as [e'|err|attempt' evs].
    + done.
    + subst err. by eexists.
    + destruct H as (-> & _ & _ & Hnone). congruence.
  - split; [lia|]. done.
Qed.

(** The loop ends: [max_retries - attempt] passes are enough. *)
Lemma attempts_call_total fuel io url file_path max_retries attempt fs :
  (Z.to_nat (max_retries - attempt) ≤ fuel)%nat →
  is_Some (attempts_call fuel io url file_path max_retries attempt fs).
Proof.
  revert attempt fs.
  induction fuel as [|fuel IH]; intros attempt fs Hfuel; simpl.
  - destruct (attempt <? max_retries) eqn:E; [|done].
    apply Z.ltb_lt in E. lia.
  - destruct (attempt <? max_retries) eqn:E; [|done].
    apply Z.ltb_lt in E.
    destruct (attempt_body _ _ _ _) as [[[ok err| |e] fs'] evs]; [done| |].
    + pose proof (start_over_next io max_retries attempt) as H.
      destruct (start_over _ _ _) as [e'|err|attempt' evs']; [done..|].
      destruct H as [Hlt _]. apply fmap_is_Some, IH. lia.
    + pose proof (handler_next io max_retries attempt e) as H.
      destruct (handler _ _ _ _) as [e'|err|attempt' evs']; [done..|].
      destruct H as (-> & _). apply fmap_is_Some, IH. lia.
Qed.

Lemma download_with_resume_call_total io url file_path max_retries fs :
  is_Some (DownloadCall.download_with_resume io url file_path max_retries fs).
Proof.
  unfold DownloadCall.download_with_resume.
  destruct (makedirs_error io); [done|]. apply attempts_call_total. lia.
Qed.


(** Whatever a call does, and however it ends, it touches no file but
    the final and the partial one. *)
Lemma attempts_call_frame fuel io url file_path max_retries attempt fs o p :
  attempts_call fuel io url file_path max_retries attempt fs = Some o →
  p ≠ file_path → p ≠ temp_path_of file_path →
  match o with
  | Raises _ fs' _ => fs' !! p = fs !! p
  | Returns r => disk r !! p = fs !! p
  end.
Proof.
  intros H Hp Ht. revert attempt fs o H.
  induction fuel as [|fuel IH]; intros attempt fs o; simpl.
  - destruct (attempt <? max_retries); [done|]. by intros [= <-].
  - destruct (attempt <? max_retries); [|by intros [= <-]].
    destruct (attempt_body _ _ _ _) as [[[ok err| |e] fs'] evs] eqn:E;
      pose proof (attempt_body_frame _ _ _ _ _ _ _ _ E Hp Ht) as Hf.
    + by intros [= <-].
    + destruct (start_over _ _ _) as [e'|err|attempt' evs'].
      * by intros [= <-].
      * by intros [= <-].
      * intros (o' & Ho' & ->)%fmap_Some. apply IH in Ho'.
        destruct o'; simpl; congruence.
    + destruct (handler _ _ _ _) as [e'|err|attempt' evs'].
      * by intros [= <-].
      * by intros [= <-].
      * intros (o' & Ho' & ->)%fmap_Some. apply IH in Ho'.
        destruct o'; simpl; congruence.
Qed.


End transfer_call.

(* ===================================================================== *)
(** * Further properties of the transfer engine *)
(* ===================================================================== *)










(** X6.  [download_with_resume] touches two paths only: whatever the
    answers of the server and however the file operations fail, every
    file other than the final file and its partial file is after the call
    as it was before. *)
Theorem download_touches_two_paths
    (io : Z → DownloadUtils.attempt_io) (url file_path : string)
    (max_retries : Z) (fs : gmap string World.bytes) :
  ∃ r, DownloadUtils.download_with_resume io url file_path max_retries fs
       = Some r
       ∧ ∀ p, p ≠ file_path → p ≠ DownloadUtils.temp_path_of file_path →
              DownloadUtils.disk r !! p = fs !! p.
Proof.
  destruct (download_with_resume_total io url file_path max_retries fs)
    as [r Hr].
  exists r. split; [done|]. intros p Hp Ht. by eapply attempts_frame.
Qed.

(** X7.  The back-off schedule.  When every pass of a run ends in the
    exception handler, the run sleeps [backoff_factor * 2 ** k] seconds
    after pass [k], for [k = 0, ..., max_retries - 2], and does not sleep
    after the last pass. *)
Theorem backoff_schedule
    (io : Z → DownloadUtils.attempt_io) (url file_path : string)
    (max_retries : Z) (fs : gmap string World.bytes) (r : DownloadUtils.run) :
  DownloadUtils.download_with_resume io url file_path max_retries fs = Some r →
  0 < max_retries →
  forallb DownloadUtils.raised (DownloadUtils.steps r) = true →
  filter (λ e, Events.is_sleep e = true) (DownloadUtils.trace r)
  = (λ k, World.Sleep (2 ^ Z.of_nat k))
      <$> seq 0 (Z.to_nat max_retries - 1).
Proof.
  intros Hr Hmax Hall.
  rewrite (attempts_all_raised_sleeps _ _ _ _ _ _ _ _ Hr Hmax Hall).
  replace (Z.to_nat (max_retries - 0 - 1))
    with (Z.to_nat max_retries - 1)%nat by lia.
  apply list_fmap_ext. intros _ k _. simpl. done.
Qed.

Lemma backoff_schedule_witness :
  ∃ r, DownloadUtils.download_with_resume
         (λ _, Examples.io_reset) "u" "f" 4 ∅ = Some r
       ∧ filter (λ e, Events.is_sleep e = true) (DownloadUtils.trace r)
         = [World.Sleep 1; World.Sleep 2; World.Sleep 4].
Proof.
  set (e := "Connection reset by peer").
  set (r := {| DownloadUtils.result := (false, Some e);
               DownloadUtils.disk := ∅;
               DownloadUtils.trace :=
                 [World.Head "u"; World.Get "u" None; World.Sleep 1;
                  World.Head "u"; World.Get "u" None; World.Sleep 2;
                  World.Head "u"; World.Get "u" None; World.Sleep 4;
                  World.Head "u"; World.Get "u" None];
               DownloadUtils.steps :=
                 [DownloadUtils.Raise e; DownloadUtils.Raise e;
                  DownloadUtils.Raise e; DownloadUtils.Raise e] |}).
  assert (DownloadUtils.download_with_resume
            (λ _, Examples.io_reset) "u" "f" 4 ∅ = Some r) as Hrun
    by (vm_compute; reflexivity).
  assert (0 < 4) as H4 by lia.
  exists r. split; [exact Hrun|].
  exact (backoff_schedule _ _ _ _ _ _ Hrun H4 eq_refl).
Defined.

(* ===================================================================== *)
(** * More on the failure ledger *)
(* ===================================================================== *)

Section ledger_composition.
Import PyStr FailureHandlers.

Lemma load_add_clean link file_path files :
  clean link →
  load_failed_downloads (add_failed_download link file_path files) file_path
  = {[link]} ∪ load_failed_downloads files file_path.
Proof.
  intros Hclean. unfold add_failed_download. apply load_save_clean.
  intros e [->%elem_of_singleton|He]%elem_of_union; [done|].
  by eapply load_clean.
Qed.

(** Two adds of clean links give the same file in either order. *)
Lemma add_add_comm link1 link2 file_path files :
  clean link1 → clean link2 →
  add_failed_download link1 file_path
    (add_failed_download link2 file_path files)
  = add_failed_download link2 file_path
      (add_failed_download link1 file_path files).
Proof.
  intros H1 H2.
  unfold add_failed_download at 1 3. rewrite !load_add_clean by done.
  unfold add_failed_download. rewrite !save_save. f_equal.
  apply set_eq. intros e. rewrite !elem_of_union. tauto.
Qed.

Lemma save_remove links link file_path files :
  save_failed_downloads links file_path
    (remove_failed_download link file_path files)
  = save_failed_downloads links file_path files.
Proof. unfold remove_failed_download. apply save_save. Qed.

Lemma sorted_empty : sorted ∅ = [].
Proof. unfold sorted. by rewrite elements_empty. Qed.

End ledger_composition.

Section ledger_retry.
Import World DownloadUtils FailureHandlers BatchFileDownloader
       RetryFailedDownloads.

Lemma retry_loop_total save_path net retries urls acc :
  is_Some (retry_loop save_path net retries urls acc).
Proof.
  revert acc. induction urls as [|url urls IH]; intros acc; simpl; [done|].
  destruct (download_with_resume_call_total (net url) url (save_path url)
              retries (files (store acc))) as [o ->].
  simpl. apply IH.
Qed.

(** One turn of the loop. *)
Lemma retry_step_spec url o acc :
  let acc' := retry_step url o acc in
  logged acc' = logged acc ++ [(url, entry_of o)]
  ∧ requests acc' = requests acc ++ DownloadCall.events_of o
  ∧ files (store acc') = DownloadCall.files_after o
  ∧ still_failed acc'
    = (if is_downloaded (entry_of o) then ∅ else {[url]})
      ∪ still_failed acc
  ∧ ∀ links,
      save_failed_downloads links FAILED_DOWNLOAD_LOG_FILENAME
        (ledgers (store acc'))
      = save_failed_downloads links FAILED_DOWNLOAD_LOG_FILENAME
          (ledgers (store acc)).
Proof.
  destruct o as [e fs evs|r]; simpl.
  - split_and!; done.
  - destruct (result r) as [[] err]; simpl; split_and!; try done.
    + apply set_eq. intros x. rewrite elem_of_union, elem_of_empty. tauto.
    + intros links. apply save_remove.
Qed.

Lemma default_last_cons {A} (d x : A) (l : list A) :
  default d (last (x :: l)) = default x (last l).
Proof. rewrite last_cons. by destruct (last l). Qed.

(** What the loop has done when it ends: one call for each link, in
    order, each on the files the call before it left. *)
Lemma retry_loop_inv save_path net retries urls acc r :
  retry_loop save_path net retries urls acc = Some r →
  ∃ calls,
    length calls = length urls
    ∧ (∀ k url o,
         urls !! k = Some url → calls !! k = Some o →
         DownloadCall.download_with_resume
           (net url) url (save_path url) retries
           (default (files (store acc))
              (last (DownloadCall.files_after <$> take k calls)))
         = Some o)
    ∧ logged r = logged acc ++ zip urls (entry_of <$> calls)
    ∧ requests r
      = requests acc ++ concat (DownloadCall.events_of <$> calls)
    ∧ files (store r)
      = default (files (store acc))
          (last (DownloadCall.files_after <$> calls))
    ∧ still_failed r
      = still_failed acc
        ∪ list_to_set
            (filter (λ x, is_downloaded x.2 = false)
                    (zip urls (entry_of <$> calls))).*1
    ∧ ∀ links,
        save_failed_downloads links FAILED_DOWNLOAD_LOG_FILENAME
          (ledgers (store r))
        = save_failed_downloads links FAILED_DOWNLOAD_LOG_FILENAME
            (ledgers (store acc)).
Proof.
  revert acc. induction urls as [|url urls IH]; intros acc; simpl.
  - intros [= <-]. exists []. rewrite !app_nil_r. simpl.
    split_and!; try done.
    apply set_eq. intros e. rewrite elem_of_union, elem_of_empty. tauto.
  - destruct (DownloadCall.download_with_resume _ _ _ _ _) as [o|] eqn:Ho;
      [|done].
    simpl. intros H.
    apply IH in H
      as (calls & Hlen & Hchain & Hlog & Hreq & Hfs & Hstill & Hsave).
    destruct (retry_step_spec url o acc)
      as (Hlog1 & Hreq1 & Hfs1 & Hstill1 & Hsave1).
    exists (o :: calls). split_and!.
    + simpl. by rewrite Hlen.
    + intros [|k] url' o'; simpl.
      * by intros [= <-] [= <-].
      * intros Hu Hc. rewrite default_last_cons, <- Hfs1. by apply Hchain.
    + rewrite Hlog, Hlog1, <- app_assoc. done.
    + rewrite Hreq, Hreq1, <- app_assoc. done.
    + rewrite Hfs, Hfs1. simpl. by rewrite default_last_cons.
    + rewrite Hstill, Hstill1. simpl.
      destruct (is_downloaded (entry_of o)) eqn:Ed.
      * rewrite filter_cons_False by (simpl; congruence).
        apply set_eq. intros x. rewrite !elem_of_union, elem_of_empty. tauto.
      * rewrite filter_cons_True by done.
        rewrite fmap_cons, list_to_set_cons. simpl.
        apply set_eq. intros x.
        rewrite !elem_of_union, elem_of_singleton. tauto.
    + intros links. by rewrite Hsave, Hsave1.
Qed.

End ledger_retry.

Section ledger_users.
Import PyStr World DownloadUtils FailureHandlers BatchFileDownloader
       RetryFailedDownloads.

Lemma load_remove_add link file_path files :
  clean link →
  load_failed_downloads
    (remove_failed_download link file_path
       (add_failed_download link file_path files)) file_path
  = load_failed_downloads files file_path ∖ {[link]}.
Proof.
  intros Hc. rewrite load_remove, load_add_clean by done.
  apply set_eq. intros e.
  rewrite !elem_of_difference, elem_of_union, elem_of_singleton. tauto.
Qed.

Lemma load_add_remove link file_path files :
  clean link →
  load_failed_downloads
    (add_failed_download link file_path
       (remove_failed_download link file_path files)) file_path
  = {[link]} ∪ load_failed_downloads files file_path.
Proof.
  intros Hc. rewrite load_add_clean, load_remove by done.
  apply set_eq. intros e.
  rewrite !elem_of_union, elem_of_difference, elem_of_singleton.
  destruct (decide (e = link)); tauto.
Qed.

Lemma load_remove_add_ne link1 link2 file_path files :
  clean link2 → link1 ≠ link2 →
  load_failed_downloads
    (remove_failed_download link1 file_path
       (add_failed_download link2 file_path files)) file_path
  = {[link2]} ∪ (load_failed_downloads files file_path ∖ {[link1]}).
Proof.
  intros Hc Hne. rewrite load_remove, load_add_clean by done.
  apply set_eq. intros e.
  rewrite !elem_of_union, !elem_of_difference, elem_of_union,
    !elem_of_singleton.
  split; [tauto|]. intros [->|?]; [|tauto]. split; [by left|congruence].
Qed.

(** [download_file]: the outcome, the ledger and the files. *)
Lemma download_file_spec cfg io file_url save_path st :
  clean file_url →
  ∃ success error st' evs,
    download_file cfg io file_url save_path st
    = Some (success, error, st', evs)
    ∧ load_failed_downloads (ledgers st') FAILED_DOWNLOAD_LOG_FILENAME
      = (if success
         then load_failed_downloads (ledgers st)
                FAILED_DOWNLOAD_LOG_FILENAME ∖ {[file_url]}
         else {[file_url]}
              ∪ load_failed_downloads (ledgers st)
                  FAILED_DOWNLOAD_LOG_FILENAME)
    ∧ (if success
       then error = None ∧ is_Some (files st' !! save_path)
       else is_Some error)
    ∧ ∀ p, p ≠ save_path → p ≠ save_path +:+ ".part" →
           files st' !! p = files st !! p.
Proof.
  intros Hc. unfold download_file.
  destruct (download_with_resume_total io file_url save_path
              (download_retries cfg) (files st)) as [r Hr].
  rewrite Hr. simpl.
  pose proof (attempts_result _ _ _ _ _ _ _ _ Hr) as Hres.
  assert (∀ p, p ≠ save_path → p ≠ save_path +:+ ".part" →
               disk r !! p = files st !! p) as Hframe.
  { intros p Hp Ht. by eapply attempts_frame. }
  destruct (result r) as [[] err]; simpl in Hres.
  - eexists true, None, _, _. split; [done|]. simpl.
    split; [apply load_remove|]. split; [by destruct Hres|done].
  - eexists false, err, _, _. split; [done|]. simpl.
    split; [by apply load_add_clean|]. done.
Qed.

(** [retry_failed_downloads]: the calls it makes and what is left in
    the ledger. *)
Lemma retry_failed_downloads_spec {B} save_path mkdir_error net
      (max_retries : option Z) (backoff : option B) st :
  let failed :=
    load_failed_downloads (ledgers st) FAILED_DOWNLOAD_LOG_FILENAME in
  ∃ res, retry_failed_downloads save_path mkdir_error net
           max_retries backoff st = Some res
    ∧ match res with
      | MkdirError e => failed ≠ ∅ ∧ mkdir_error = Some e
      | AttributeError =>
          failed ≠ ∅ ∧ mkdir_error = None
          ∧ (max_retries = None ∨ backoff = None)
      | Returned r =>
          (failed = ∅
           ∨ mkdir_error = None ∧ is_Some backoff
             ∧ ∃ retries, max_retries = Some retries)
          ∧ (∃ calls,
               length calls = length (sorted failed)
               ∧ (∀ retries k url o,
                    max_retries = Some retries →
                    sorted failed !! k = Some url → calls !! k = Some o →
                    DownloadCall.download_with_resume
                      (net url) url (save_path url) retries
                      (default (files st)
                         (last (DownloadCall.files_after <$> take k calls)))
                    = Some o)
               ∧ logged r = zip (sorted failed) (entry_of <$> calls)
               ∧ requests r = concat (DownloadCall.events_of <$> calls)
               ∧ files (store r)
                 = default (files st)
                     (last (DownloadCall.files_after <$> calls)))
          ∧ (logged r).*1 = sorted failed
          ∧ still_failed r
            = list_to_set
                (filter (λ x, is_downloaded x.2 = false) (logged r)).*1
          ∧ still_failed r ⊆ failed
          ∧ load_failed_downloads (ledgers (store r))
              FAILED_DOWNLOAD_LOG_FILENAME = still_failed r
          ∧ (failed = ∅ → store r = st ∧ requests r = [])
          ∧ (failed ≠ ∅ →
             ledgers (store r)
             = save_failed_downloads (still_failed r)
                 FAILED_DOWNLOAD_LOG_FILENAME (ledgers st))
      end.
Proof.
  intros failed. unfold retry_failed_downloads. fold failed.
  destruct (decide (failed = ∅)) as [E|E].
  - eexists. split; [done|]. simpl. rewrite E, sorted_empty.
    split_and!; try done; [by left|]. exists []. by split_and!.
  - destruct mkdir_error as [e|]; [by eexists|].
    destruct max_retries as [retries|];
      [|eexists; split; [done|]; split_and!; [done|done|by left]].
    destruct backoff as [b|];
      [|eexists; split; [done|]; split_and!; [done|done|by right]].
    destruct (retry_loop_total save_path net retries (sorted failed)
                {| still_failed := ∅; store := st; requests := [];
                   logged := [] |}) as [r Hr].
    rewrite Hr. simpl. eexists. split; [done|]. simpl.
    apply retry_loop_inv in Hr
      as (calls & Hlen & Hchain & Hlog & Hreq & Hfs & Hstill & Hsave).
    simpl in *.
    assert (still_failed r
            = list_to_set
                (filter (λ x, is_downloaded x.2 = false) (logged r)).*1)
      as Hstill'.
    { rewrite Hstill, Hlog. apply set_eq. intros e.
      rewrite elem_of_union, elem_of_empty. tauto. }
    assert (still_failed r ⊆ failed) as Hsub.
    { intros e. rewrite Hstill', Hlog. rewrite elem_of_list_to_set.
      intros ([u b'] & -> & [_ Hin]%list_elem_of_filter)%list_elem_of_fmap.
      simpl. apply elem_of_sorted. by apply elem_of_zip_l in Hin. }
    split; [right; split_and!; by eauto|].
    split.
    { exists calls. split_and!; try done.
      intros retries' k url o [= <-]. apply Hchain. }
    split.
    { rewrite Hlog. apply fst_zip. rewrite length_fmap. lia. }
    split_and!; try done.
    rewrite Hsave. apply load_save_clean.
    intros e He. eapply load_clean. by apply Hsub.
Qed.

End ledger_users.

(* ===================================================================== *)
(** * Further properties of the failure ledger and its users *)
(* ===================================================================== *)

(** X8.  [download_file] keeps the ledger in step with the transfer.  For
    a URL (not empty, no white space) the call always returns; after a
    success the URL is not in the ledger, the error is [None] and the
    file is on the disk; after a failure the URL is in the ledger and
    there is an error message.  The other links of the ledger are kept,
    and no file but the target and its partial file is touched. *)
Theorem download_file_keeps_ledger
    (cfg : BatchFileDownloader.Config) (io : Z → DownloadUtils.attempt_io)
    (file_url save_path : string) (st : BatchFileDownloader.storage) :
  file_url ≠ "" →
  PyStr.every (λ c, negb (PyStr.isspace c)) file_url →
  ∃ success error st' evs,
    BatchFileDownloader.download_file cfg io file_url save_path st
    = Some (success, error, st', evs)
    ∧ FailureHandlers.load_failed_downloads
        (BatchFileDownloader.ledgers st')
        FailureHandlers.FAILED_DOWNLOAD_LOG_FILENAME
      = (if success
         then FailureHandlers.load_failed_downloads
                (BatchFileDownloader.ledgers st)
                FailureHandlers.FAILED_DOWNLOAD_LOG_FILENAME ∖ {[file_url]}
         else {[file_url]}
              ∪ FailureHandlers.load_failed_downloads
                  (BatchFileDownloader.ledgers st)
                  FailureHandlers.FAILED_DOWNLOAD_LOG_FILENAME)
    ∧ (if success
       then error = None
            ∧ is_Some (BatchFileDownloader.files st' !! save_path)
       else is_Some error)
    ∧ ∀ p, p ≠ save_path → p ≠ save_path +:+ ".part" →
           BatchFileDownloader.files st' !! p
           = BatchFileDownloader.files st !! p.
Proof.
  intros Hne Hns. apply download_file_spec. by apply url_clean.
Qed.

Lemma download_file_keeps_ledger_witness :
  ∃ success error st' evs,
    BatchFileDownloader.download_file
      Examples.cfg_default (λ _, Examples.io_reset) "https://b/2.png" "f"
      {| BatchFileDownloader.files := ∅;
         BatchFileDownloader.ledgers := Examples.ledger_one |}
    = Some (success, error, st', evs)
    ∧ FailureHandlers.load_failed_downloads
        (BatchFileDownloader.ledgers st')
        FailureHandlers.FAILED_DOWNLOAD_LOG_FILENAME
      = (if success
         then FailureHandlers.load_failed_downloads
                Examples.ledger_one
                FailureHandlers.FAILED_DOWNLOAD_LOG_FILENAME
                ∖ {["https://b/2.png"]}
         else {["https://b/2.png"]}
              ∪ FailureHandlers.load_failed_downloads
                  Examples.ledger_one
                  FailureHandlers.FAILED_DOWNLOAD_LOG_FILENAME).
Proof.
  destruct (download_file_keeps_ledger
              Examples.cfg_default (λ _, Examples.io_reset)
              "https://b/2.png" "f"
              {| BatchFileDownloader.files := ∅;
                 BatchFileDownloader.ledgers := Examples.ledger_one |})
    as (success & error & st' & evs & Hrun & Hledger & _);
    [discriminate|reflexivity|].
  exists success, error, st', evs. split; [exact Hrun|exact Hledger].
Defined.

(** X9.  How the operations on the ledger compose, for URLs (not empty,
    no white space).  [remove(x)] after [add(x)] leaves the ledger
    without [x]; [add(x)] after [remove(x)] leaves it with [x]; two adds
    give the same file in either order; and [remove(x)] after [add(y)],
    for another link [y], keeps [y]. *)
Theorem ledger_operations_compose
    (files : gmap string string) (file_path x y : string) :
  x ≠ "" → PyStr.every (λ c, negb (PyStr.isspace c)) x →
  y ≠ "" → PyStr.every (λ c, negb (PyStr.isspace c)) y →
  FailureHandlers.load_failed_downloads
    (FailureHandlers.remove_failed_download x file_path
       (FailureHandlers.add_failed_download x file_path files)) file_path
  = FailureHandlers.load_failed_downloads files file_path ∖ {[x]}
  ∧ FailureHandlers.load_failed_downloads
      (FailureHandlers.add_failed_download x file_path
         (FailureHandlers.remove_failed_download x file_path files))
      file_path
    = {[x]} ∪ FailureHandlers.load_failed_downloads files file_path
  ∧ FailureHandlers.add_failed_download x file_path
      (FailureHandlers.add_failed_download y file_path files)
    = FailureHandlers.add_failed_download y file_path
        (FailureHandlers.add_failed_download x file_path files)
  ∧ (x ≠ y →
     FailureHandlers.load_failed_downloads
       (FailureHandlers.remove_failed_download x file_path
          (FailureHandlers.add_failed_download y file_path files))
       file_path
     = {[y]}
       ∪ (FailureHandlers.load_failed_downloads files file_path ∖ {[x]})).
Proof.
  intros Hx Hxs Hy Hys.
  pose proof (url_clean x Hx Hxs) as Hcx.
  pose proof (url_clean y Hy Hys) as Hcy.
  split; [by apply load_remove_add|].
  split; [by apply load_add_remove|].
  split; [by apply add_add_comm|].
  intros Hne. by apply load_remove_add_ne.
Qed.

Lemma ledger_operations_compose_witness :
  FailureHandlers.add_failed_download
    "https://b/2.png" "failed_downloads.txt"
    (FailureHandlers.add_failed_download
       "https://c/3.png" "failed_downloads.txt" Examples.ledger_one)
  = FailureHandlers.add_failed_download
      "https://c/3.png" "failed_downloads.txt"
      (FailureHandlers.add_failed_download
         "https://b/2.png" "failed_downloads.txt" Examples.ledger_one).
Proof.
  destruct (ledger_operations_compose
              Examples.ledger_one "failed_downloads.txt"
              "https://b/2.png" "https://c/3.png")
    as (_ & _ & Hcomm & _);
    [discriminate|reflexivity|discriminate|reflexivity|].
  exact Hcomm.
Defined.

(** X10.  What [retry_failed_downloads] retries and what it leaves in
    the ledger.  With an empty or missing ledger it does nothing: no
    request is sent and no file is written.  Otherwise an exception of
    the [mkdir] of line 69 leaves it, and then [AttributeError] when
    [max_retries] or [backoff] is left at [None] (the class [Config] has
    no field to take the default from); nothing is retried in either
    case.  Otherwise it calls [download_with_resume] once for every link
    of the ledger, in sorted order, each call on the files the call
    before it left, with the answers the server gives for that link.
    The line logged for a link is the one its call earns: downloaded
    when the call returned [True], failed with the error when it
    returned [False], unexpected error when it raised.  The ledger holds
    afterwards exactly the links whose call did not return [True]: no
    link is added, and the file is the one [save_failed_downloads]
    writes for that set over the ledger as it was (the removals made on
    the way leave no trace). *)
Theorem retry_rewrites_ledger
    (B : Type) (save_path : string → string) (mkdir_error : option string)
    (net : string → DownloadCall.call_io)
    (max_retries : option Z) (backoff : option B)
    (st : BatchFileDownloader.storage) :
  let failed :=
    FailureHandlers.load_failed_downloads
      (BatchFileDownloader.ledgers st)
      FailureHandlers.FAILED_DOWNLOAD_LOG_FILENAME in
  ∃ res,
    RetryFailedDownloads.retry_failed_downloads
      save_path mkdir_error net max_retries backoff st = Some res
    ∧ match res with
      | RetryFailedDownloads.MkdirError e =>
          failed ≠ ∅ ∧ mkdir_error = Some e
      | RetryFailedDownloads.AttributeError =>
          failed ≠ ∅ ∧ mkdir_error = None
          ∧ (max_retries = None ∨ backoff = None)
      | RetryFailedDownloads.Returned r =>
          (failed = ∅
           ∨ mkdir_error = None ∧ is_Some backoff
             ∧ ∃ retries, max_retries = Some retries)
          ∧ (∃ calls,
               length calls = length (FailureHandlers.sorted failed)
               ∧ (∀ retries k url o,
                    max_retries = Some retries →
                    FailureHandlers.sorted failed !! k = Some url →
                    calls !! k = Some o →
                    DownloadCall.download_with_resume
                      (net url) url (save_path url) retries
                      (default (BatchFileDownloader.files st)
                         (last (DownloadCall.files_after <$> take k calls)))
                    = Some o)
               ∧ RetryFailedDownloads.logged r
                 = zip (FailureHandlers.sorted failed)
                       (RetryFailedDownloads.entry_of <$> calls)
               ∧ RetryFailedDownloads.requests r
                 = concat (DownloadCall.events_of <$> calls)
               ∧ BatchFileDownloader.files (RetryFailedDownloads.store r)
                 = default (BatchFileDownloader.files st)
                     (last (DownloadCall.files_after <$> calls)))
          ∧ (RetryFailedDownloads.logged r).*1
            = FailureHandlers.sorted failed
          ∧ RetryFailedDownloads.still_failed r
            = list_to_set
                (filter (λ x, RetryFailedDownloads.is_downloaded x.2 = false)
                        (RetryFailedDownloads.logged r)).*1
          ∧ RetryFailedDownloads.still_failed r ⊆ failed
          ∧ FailureHandlers.load_failed_downloads
              (BatchFileDownloader.ledgers (RetryFailedDownloads.store r))
              FailureHandlers.FAILED_DOWNLOAD_LOG_FILENAME
            = RetryFailedDownloads.still_failed r
          ∧ (failed = ∅ →
             RetryFailedDownloads.store r = st
             ∧ RetryFailedDownloads.requests r = [])
          ∧ (failed ≠ ∅ →
             BatchFileDownloader.ledgers (RetryFailedDownloads.store r)
             = FailureHandlers.save_failed_downloads
                 (RetryFailedDownloads.still_failed r)
                 FailureHandlers.FAILED_DOWNLOAD_LOG_FILENAME
                 (BatchFileDownloader.ledgers st))
      end.
Proof. apply retry_failed_downloads_spec. Qed.

(* ===================================================================== *)
(** * More on the verification gate *)
(* ===================================================================== *)

Section gate_rules.
Import World DownloadUtils BatchFileDownloader.

(** A candidate with a partial file, or without a final file, lands in
    the download list of the pre-check. *)
Lemma pre_check_forced cfg unreadable fs downloads file_url file_save_path :
  (file_url, file_save_path) ∈ downloads →
  is_Some (fs !! (file_save_path +:+ ".part")) ∨ fs !! file_save_path = None →
  (file_url, file_save_path)
    ∈ files_to_download (pre_check cfg unreadable fs downloads).
Proof.
  intros Hin Hstate. unfold pre_check.
  destruct (skip_existed_files cfg); [|done].
  induction downloads as [|d downloads IH] using rev_ind.
  { by apply elem_of_nil in Hin. }
  rewrite pre_check_loop_snoc.
  apply elem_of_app in Hin as [Hin|Hin%list_elem_of_singleton].
  - by apply pre_check_file_mono, IH.
  - subst d. unfold pre_check_file.
    destruct (fs !! (file_save_path +:+ ".part")) as [part|] eqn:Hpart.
    { simpl. apply elem_of_app. right. by apply list_elem_of_singleton. }
    destruct Hstate as [[? ?]|Hfinal]; [done|]. rewrite Hfinal. simpl.
    apply elem_of_app. right. by apply list_elem_of_singleton.
Qed.

(** What the pre-check sends to verification has a final file and no
    partial file. *)
Lemma pre_check_verified_state cfg unreadable fs downloads v :
  v ∈ files_to_verify (pre_check cfg unreadable fs downloads) →
  fs !! (v.1.2 +:+ ".part") = None ∧ is_Some (fs !! v.1.2).
Proof.
  unfold pre_check. destruct (skip_existed_files cfg);
    [|by intros ?%elem_of_nil].
  induction downloads as [|[u p] downloads IH] using rev_ind.
  { by intros ?%elem_of_nil. }
  rewrite pre_check_loop_snoc. unfold pre_check_file.
  destruct (fs !! (p +:+ ".part")) as [part|] eqn:Hpart; simpl; [done|].
  destruct (fs !! p) as [content|] eqn:Hfinal; simpl; [|done].
  destruct (unreadable p); simpl; [done|].
  assert (v ∈ files_to_verify (pre_check_loop cfg unreadable fs downloads)
              ++ [(u, p, getsize content)] →
          fs !! (v.1.2 +:+ ".part") = None ∧ is_Some (fs !! v.1.2)) as Hv.
  { intros [Hv| ->%list_elem_of_singleton]%elem_of_app; [by apply IH|].
    simpl. by rewrite Hfinal. }
  destruct (0 <? getsize content); [|done].
  by destruct (strict_file_verification cfg).
Qed.

Lemma merge_verified_mono pc completed d :
  d ∈ files_to_download pc →
  d ∈ files_to_download (merge_verified pc completed).
Proof.
  intros Hd. induction completed as [|a completed IH] using rev_ind; [done|].
  rewrite merge_verified_snoc. destruct a as [[u p] []]; simpl; [done|].
  apply elem_of_app. by left.
Qed.

(** Without strict verification, candidates that all have a readable,
    non-empty final file and no partial file are all skipped by the
    pre-check. *)
Lemma pre_check_loop_all_present cfg unreadable fs downloads :
  strict_file_verification cfg = false →
  (∀ d, d ∈ downloads →
        fs !! (d.2 +:+ ".part") = None
        ∧ (∃ content, fs !! d.2 = Some content ∧ content ≠ [])
        ∧ unreadable d.2 = false) →
  pre_check_loop cfg unreadable fs downloads
  = {| files_to_verify := []; files_to_download := [];
       skipped_count := Z.of_nat (length downloads) |}.
Proof.
  intros Hstrict.
  induction downloads as [|[u p] downloads IH] using rev_ind; intros Hall.
  { done. }
  rewrite pre_check_loop_snoc, IH.
  2:{ intros d Hd. apply Hall, elem_of_app. by left. }
  destruct (Hall (u, p)) as (Hpart & (content & Hfinal & Hne) & Hread).
  { apply elem_of_app. right. by apply list_elem_of_singleton. }
  simpl in *. unfold pre_check_file. rewrite Hpart, Hfinal, Hread, Hstrict.
  assert (0 < getsize content) as Hsize.
  { unfold getsize. destruct content; [done|]. simpl. lia. }
  assert ((0 <? getsize content) = true) as -> by lia. simpl.
  f_equal. rewrite length_app. simpl. lia.
Qed.

(** [verify_file] says "complete" only on a 200 whose
    [content-length] is the size of the local file, and positive; it
    then leaves the files alone. *)
Lemma verify_file_true io file_save_path existing_size fs fs' :
  verify_file io file_save_path existing_size fs = (true, fs') →
  fs' = fs ∧ 0 < existing_size
  ∧ verify_head io = HeadResponse 200 (HInt existing_size).
Proof.
  unfold verify_file. destruct (verify_head io) as [|status cl]; [done|].
  destruct (status =? 200) eqn:Es; [|done]. apply Z.eqb_eq in Es as ->.
  destruct cl as [| |n|msg]; try done.
  destruct (0 <? n) eqn:E; simpl; [|done].
  destruct (existing_size =? n) eqn:E'; simpl; [|done].
  intros [= <-]. apply Z.eqb_eq in E' as ->. apply Z.ltb_lt in E. done.
Qed.

(** [verify_file] touches no file but the one it checks and its
    partial file, and never changes the content: after the call the
    content is at the final path, at the partial path, or gone. *)
Lemma verify_file_frame io file_save_path existing_size fs p :
  p ≠ file_save_path → p ≠ file_save_path +:+ ".part" →
  (verify_file io file_save_path existing_size fs).2 !! p = fs !! p.
Proof.
  intros Hp Ht. unfold verify_file.
  destruct (verify_head io) as [|status cl]; [done|].
  destruct (status =? 200); [|done].
  assert (∀ n,
    (if (0 <? n) && (existing_size =? n) then (true, fs)
     else if 0 <? n
          then (false,
                match fs !! file_save_path with
                | Some content =>
                    if verify_replace_ok io
                    then <[file_save_path +:+ ".part" := content]>
                           (delete file_save_path fs)
                    else try_remove (verify_remove_ok io) file_save_path fs
                | None => fs
                end)
          else (false, fs)).2 !! p = fs !! p) as Hcheck.
  { intros n. destruct (_ && _); [done|]. destruct (0 <? n); [|done]. simpl.
    destruct (fs !! file_save_path); [|done].
    destruct (verify_replace_ok io).
    - by rewrite lookup_insert_ne, lookup_delete_ne.
    - unfold try_remove. destruct (verify_remove_ok io); [|done].
      by rewrite lookup_delete_ne. }
  destruct cl; try done; apply Hcheck.
Qed.

End gate_rules.

Section gate_outcomes.
Import World DownloadUtils BatchFileDownloader.




End gate_outcomes.

Section gate_candidates.
Import World DownloadUtils BatchFileDownloader.



End gate_candidates.

(* ===================================================================== *)
(** * Further properties of the verification gate *)
(* ===================================================================== *)

(** X11.  [verify_file] is sound and local.  It answers "complete" only
    when the HEAD answer has status 200 and a [content-length] that is
    positive and equal to the size of the local file, and it then leaves
    the files as they are.  Whatever it answers, no file other than the
    one it checks and its partial file is touched, and the checked file
    is either left as it was or no longer at its path. *)
Theorem verify_file_sound
    (io : BatchFileDownloader.verify_io) (file_save_path : string)
    (existing_size : Z) (fs fs' : gmap string World.bytes)
    (is_complete : bool) :
  BatchFileDownloader.verify_file io file_save_path existing_size fs
  = (is_complete, fs') →
  (is_complete = true →
   fs' = fs ∧ 0 < existing_size
   ∧ BatchFileDownloader.verify_head io
     = World.HeadResponse 200 (World.HInt existing_size))
  ∧ (∀ p, p ≠ file_save_path → p ≠ file_save_path +:+ ".part" →
          fs' !! p = fs !! p)
  ∧ (fs' !! file_save_path = fs !! file_save_path
     ∨ fs' !! file_save_path = None).
Proof.
  intros Hv. split; [|split].
  - intros ->. by eapply verify_file_true.
  - intros p Hp Ht.
    pose proof (verify_file_frame io file_save_path existing_size fs p Hp Ht)
      as Hf.
    by rewrite Hv in Hf.
  - revert Hv. unfold BatchFileDownloader.verify_file.
    destruct (BatchFileDownloader.verify_head io) as [|status cl];
      [intros [= _ <-]; by left|].
    destruct (status =? 200); [|intros [= _ <-]; by left].
    assert (file_save_path +:+ ".part" ≠ file_save_path) as Hne
      by apply temp_path_ne.
    destruct cl as [| |n|msg]; try (intros [= _ <-]; by left);
      (destruct (_ && _); [intros [= _ <-]; by left|]);
      (destruct (0 <? _); [|intros [= _ <-]; by left]);
      (destruct (fs !! file_save_path) eqn:Hfinal;
         [|intros [= _ <-]; by left]);
      (destruct (BatchFileDownloader.verify_replace_ok io);
         [intros [= _ <-]; right;
          by rewrite lookup_insert_ne, lookup_delete_eq|]);
      unfold DownloadUtils.try_remove;
      (destruct (BatchFileDownloader.verify_remove_ok io);
         intros [= _ <-]; [right; by rewrite lookup_delete_eq|by left]).
Qed.

Lemma verify_file_sound_witness :
  BatchFileDownloader.verify_head (Examples.head_200 3)
  = World.HeadResponse 200 (World.HInt 3).
Proof.
  assert (BatchFileDownloader.verify_file (Examples.head_200 3) "f" 3
            (BatchFileDownloader.files Examples.complete_on_disk)
          = (true, BatchFileDownloader.files Examples.complete_on_disk))
    as Hv by reflexivity.
  destruct (verify_file_sound _ _ _ _ _ _ Hv) as (Htrue & _ & _).
  destruct (Htrue eq_refl) as (_ & _ & Hhead). exact Hhead.
Defined.

(** X12.  An unfinished file is always dispatched.  A file of the post
    that has a partial file on the disk, or no final file, ends in the
    download set of [process_post] whatever the configuration, and the
    gate sends no HEAD request for its path. *)
Theorem unfinished_file_is_dispatched
    (cfg : BatchFileDownloader.Config) (w : BatchFileDownloader.post_io)
    (downloads : list (string * string)) (st : BatchFileDownloader.storage)
    (file_url file_save_path : string) :
  (file_url, file_save_path) ∈ downloads →
  is_Some (BatchFileDownloader.files st !! (file_save_path +:+ ".part"))
  ∨ BatchFileDownloader.files st !! file_save_path = None →
  ∃ pr, BatchFileDownloader.process_downloads cfg w downloads st = Some pr
        ∧ (file_url, file_save_path)
            ∈ BatchFileDownloader.files_to_download
                (BatchFileDownloader.gate pr)
        ∧ ∀ u size,
            (u, file_save_path, size)
              ∉ BatchFileDownloader.files_to_verify
                  (BatchFileDownloader.gate pr).
Proof.
  intros Hin Hstate.
  destruct (process_downloads_total cfg w downloads st) as [pr Hpr].
  exists pr. split; [done|].
  destruct (process_downloads_gate _ _ _ _ _ Hpr) as [Hgate _].
  rewrite Hgate. split.
  - by apply merge_verified_mono, pre_check_forced.
  - intros u size Hv.
    pose proof (merge_verified_count
                  (BatchFileDownloader.pre_check cfg
                     (BatchFileDownloader.unreadable w)
                     (BatchFileDownloader.files st) downloads)
                  (BatchFileDownloader.as_completed w
                     (BatchFileDownloader.verify_all
                        (BatchFileDownloader.verify_answers w)
                        (BatchFileDownloader.files_to_verify
                           (BatchFileDownloader.pre_check cfg
                              (BatchFileDownloader.unreadable w)
                              (BatchFileDownloader.files st) downloads))
                        (BatchFileDownloader.files st)).1)) as (Heq & _).
    simpl in Heq. rewrite Heq in Hv.
    apply pre_check_verified_state in Hv as [Hpart [c Hfinal]]. simpl in *.
    destruct Hstate as [[c' Hc']|Hnone]; congruence.
Qed.

Lemma unfinished_file_is_dispatched_witness :
  ∃ pr, BatchFileDownloader.process_downloads
          Examples.cfg_default Examples.w_ok [("u", "f")]
          Examples.partial_beside_final = Some pr
        ∧ ("u", "f") ∈ BatchFileDownloader.files_to_download
                         (BatchFileDownloader.gate pr).
Proof.
  destruct (unfinished_file_is_dispatched
              Examples.cfg_default Examples.w_ok [("u", "f")]
              Examples.partial_beside_final "u" "f")
    as (pr & Hpr & Hin & _).
  - apply list_elem_of_singleton. reflexivity.
  - left. exists [Byte.x61]. reflexivity.
  - exists pr. split; [exact Hpr|exact Hin].
Defined.

(** X13.  A post that is on the disk is left alone.  With skipping of
    existing files enabled and strict verification disabled, a post all
    of whose files have a readable, non-empty final file and no partial
    file causes no request at all: every file is counted as successful,
    nothing is verified or downloaded, and the files and the ledger are
    unchanged.  The sizes are not compared with the server's. *)
Theorem downloaded_post_is_left_alone
    (cfg : BatchFileDownloader.Config) (w : BatchFileDownloader.post_io)
    (downloads : list (string * string)) (st : BatchFileDownloader.storage) :
  BatchFileDownloader.skip_existed_files cfg = true →
  BatchFileDownloader.strict_file_verification cfg = false →
  (∀ l, BatchFileDownloader.as_completed w l ≡ₚ l) →
  (∀ d, d ∈ downloads →
        BatchFileDownloader.files st !! (d.2 +:+ ".part") = None
        ∧ (∃ content, BatchFileDownloader.files st !! d.2 = Some content
                      ∧ content ≠ [])
        ∧ BatchFileDownloader.unreadable w d.2 = false) →
  BatchFileDownloader.process_downloads cfg w downloads st
  = Some {| BatchFileDownloader.returned :=
              {| BatchFileDownloader.total_files :=
                   Z.of_nat (length downloads);
                 BatchFileDownloader.successful :=
                   Z.of_nat (length downloads);
                 BatchFileDownloader.failed := [] |};
            BatchFileDownloader.gate :=
              {| BatchFileDownloader.files_to_verify := [];
                 BatchFileDownloader.files_to_download := [];
                 BatchFileDownloader.skipped_count :=
                   Z.of_nat (length downloads) |};
            BatchFileDownloader.verify_requests := [];
            BatchFileDownloader.outcomes := [];
            BatchFileDownloader.download_events := [];
            BatchFileDownloader.storage_after := st |}.
Proof.
  intros Hskip Hstrict Hperm Hall.
  unfold BatchFileDownloader.process_downloads, BatchFileDownloader.pre_check.
  rewrite Hskip, (pre_check_loop_all_present _ _ _ _ Hstrict Hall). simpl.
  pose proof (Hperm []) as Hnil. apply Permutation_nil_r in Hnil.
  rewrite Hnil. simpl. by destruct st.
Qed.

Lemma downloaded_post_is_left_alone_witness :
  BatchFileDownloader.verify_requests
    <$> BatchFileDownloader.process_downloads
          Examples.cfg_default Examples.w_ok [("u", "f")]
          Examples.complete_on_disk
  = Some [].
Proof.
  rewrite (downloaded_post_is_left_alone
             Examples.cfg_default Examples.w_ok [("u", "f")]
             Examples.complete_on_disk); [reflexivity..| |].
  - intros l. reflexivity.
  - intros d ->%list_elem_of_singleton. split; [reflexivity|].
    split; [|reflexivity]. exists Examples.abc. split; [reflexivity|].
    discriminate.
Defined.



(* ===================================================================== *)
(** * More on Python strings: splitting and decimal numbers *)
(* ===================================================================== *)

Section py_split.
Import PyStr.

Lemma all_chars_app p s t :
  all_chars p (s +:+ t) = all_chars p s && all_chars p t.
Proof.
  induction s as [|c s IH]; [by rewrite append_nil_l|].
  rewrite append_cons. simpl. by rewrite IH, andb_assoc.
Qed.

Lemma all_chars_impl (p q : ascii → bool) s :
  (∀ c, p c = true → q c = true) →
  all_chars p s = true → all_chars q s = true.
Proof.
  intros Hpq. induction s as [|c s IH]; [done|]. simpl.
  intros [Hc Hs]%andb_true_iff. by rewrite (Hpq c Hc), IH.
Qed.

Lemma contains_app sep s t :
  contains sep (s +:+ t) = contains sep s || contains sep t.
Proof.
  induction s as [|c s IH]; [by rewrite append_nil_l|].
  rewrite append_cons. simpl. by rewrite IH, orb_assoc.
Qed.

(** A character that fails a test every character of [s] passes is not
    in [s]. *)
Lemma contains_all_chars p sep s :
  all_chars p s = true → p sep = false → contains sep s = false.
Proof.
  intros Hs Hsep. induction s as [|c s IH]; [done|]. simpl in *.
  apply andb_true_iff in Hs as [Hc Hs]. rewrite (IH Hs), orb_false_r.
  destruct (Ascii.eqb c sep) eqn:E; [|done].
  apply Ascii.eqb_eq in E as ->. congruence.
Qed.

Lemma split_nonempty sep s : split sep s ≠ [].
Proof.
  destruct s as [|c s]; [done|]. simpl.
  destruct (Ascii.eqb c sep); [done|]. by destruct (split sep s).
Qed.

(** [(s + sep + t).split(sep)] is [s.split(sep) + t.split(sep)]. *)
Lemma split_app_sep sep s t :
  split sep (s +:+ String sep t) = split sep s ++ split sep t.
Proof.
  induction s as [|c s IH].
  - rewrite append_nil_l. simpl. by rewrite Ascii.eqb_refl.
  - rewrite append_cons. simpl. rewrite IH.
    destruct (Ascii.eqb c sep); [done|].
    pose proof (split_nonempty sep s). by destruct (split sep s).
Qed.

Lemma split_no_sep sep s : contains sep s = false → split sep s = [s].
Proof.
  induction s as [|c s IH]; [done|]. simpl.
  intros [Hc Hs]%orb_false_iff. rewrite Hc, (IH Hs). done.
Qed.

End py_split.

Section py_numbers.
Import PyStr.

Lemma pretty_N_char_digit (d : N) :
  (d < 10)%N →
  digit_value (pretty_N_char d) = Some (Z.of_N d)
  ∧ isdigit_char (pretty_N_char d) = true
  ∧ N_of_ascii (pretty_N_char d) = (48 + d)%N.
Proof.
  intros Hd.
  assert (d = 0 ∨ d = 1 ∨ d = 2 ∨ d = 3 ∨ d = 4 ∨ d = 5 ∨ d = 6 ∨ d = 7
          ∨ d = 8 ∨ d = 9)%N as Hcases by lia.
  repeat (destruct Hcases as [->|Hcases]; [done|]). by subst.
Qed.

Lemma isdigit_char_not_space c : isdigit_char c = true → isspace c = false.
Proof. by destruct c as [[] [] [] [] [] [] [] []]. Qed.

(** [str(n)] for a natural number [n]: the last digit after the digits
    of [n // 10]. *)
Lemma pretty_N_unfold (x : N) :
  pretty x
  = pretty_N_go (x `div` 10) (String (pretty_N_char (x `mod` 10)) "").
Proof.
  unfold pretty, pretty_N. destruct (decide (x = 0%N)) as [->|Hx]; [done|].
  apply pretty_N_go_step. lia.
Qed.

Lemma pretty_N_go_digits (x : N) s :
  all_chars isdigit_char s = true →
  all_chars isdigit_char (pretty_N_go x s) = true.
Proof.
  revert s. induction (N.lt_wf_0 x) as [x _ IH]; intros s Hs.
  assert (x = 0 ∨ 0 < x)%N as [->|Hx] by lia; [done|].
  rewrite pretty_N_go_step by done. apply IH.
  { by apply N.div_lt. }
  simpl. rewrite Hs, andb_true_r.
  apply pretty_N_char_digit. by apply N.mod_lt.
Qed.

Lemma pretty_N_digits (x : N) : all_chars isdigit_char (pretty x) = true.
Proof.
  rewrite pretty_N_unfold. apply pretty_N_go_digits. simpl.
  rewrite andb_true_r. apply pretty_N_char_digit. by apply N.mod_lt.
Qed.

Lemma pretty_Z_nonneg (z : Z) : 0 ≤ z → pretty z = pretty (Z.to_N z).
Proof. intros Hz. destruct z; [done|done|lia]. Qed.

(** The decimal form of a number that is not negative is made of
    digits. *)
Lemma str_digits (z : Z) : 0 ≤ z → all_chars isdigit_char (str z) = true.
Proof.
  intros Hz. unfold str. rewrite pretty_Z_nonneg by done.
  apply pretty_N_digits.
Qed.

Lemma str_nonempty (z : Z) : str z ≠ "".
Proof.
  assert (∀ x : N, pretty x ≠ "") as HN.
  { intros x. rewrite pretty_N_unfold.
    generalize (pretty_N_char (x `mod` 10)). generalize (x `div` 10)%N.
    intros y c H. apply (f_equal String.length) in H.
    assert (∀ (y : N) s, (String.length s ≤ String.length (pretty_N_go y s))%nat)
      as Hlen.
    { clear. intros y. induction (N.lt_wf_0 y) as [y _ IH]; intros s.
      assert (y = 0 ∨ 0 < y)%N as [->|Hy] by lia; [done|].
      rewrite pretty_N_go_step by done.
      etrans; [|apply IH; by apply N.div_lt]. simpl. lia. }
    specialize (Hlen y (String c "")). simpl in *. lia. }
  unfold str. destruct z as [|p|p]; [done|apply (HN (Npos p))|].
  unfold pretty, pretty_Z. by rewrite append_cons.
Qed.

(** ** [int(str(n)) == n] *)

Lemma int_digits_go (x : N) :
  (0 < x)%N →
  ∃ k, 0 ≤ k ∧ ∀ acc b s,
    int_digits acc b (pretty_N_go x s)
    = int_digits (acc * 10 ^ k + Z.of_N x) true s.
Proof.
  induction (N.lt_wf_0 x) as [x _ IH]. intros Hx.
  destruct (pretty_N_char_digit (x `mod` 10)) as (Hd & _ & _).
  { by apply N.mod_lt. }
  pose proof (N.div_mod x 10 ltac:(done)) as Hdm.
  destruct (N.eq_0_gt_0_cases (x `div` 10)) as [Hq|Hq].
  - exists 1. split; [done|]. intros acc b s.
    rewrite pretty_N_go_step, Hq, pretty_N_go_0 by done. simpl.
    rewrite Hd, Z.pow_1_r. rewrite Hq in Hdm. f_equal. lia.
  - destruct (IH (x `div` 10)%N) as (k & Hk & Hgo); [by apply N.div_lt|done|].
    exists (k + 1). split; [lia|]. intros acc b s.
    rewrite pretty_N_go_step, Hgo by done. simpl. rewrite Hd. f_equal.
    rewrite Z.pow_add_r by lia. lia.
Qed.

Lemma int_digits_pretty_N (x : N) :
  int_digits 0 false (pretty x) = Some (Z.of_N x).
Proof.
  unfold pretty, pretty_N. destruct (decide (x = 0%N)) as [->|Hx]; [done|].
  destruct (int_digits_go x) as (k & _ & ->); [lia|]. simpl. f_equal; lia.
Qed.

(** [int] of a string of digits with nothing to strip reads the digits. *)
Lemma int_of_digits s :
  all_chars isdigit_char s = true → int s = int_digits 0 false s.
Proof.
  intros Hs. unfold int. rewrite strip_fixed.
  2:{ eapply all_chars_impl; [|done]. intros c Hc.
      by rewrite isdigit_char_not_space. }
  destruct s as [|c r]; [done|]. simpl in Hs.
  apply andb_true_iff in Hs as [Hc _].
  by destruct c as [[] [] [] [] [] [] [] []].
Qed.

Lemma int_str_nonneg (z : Z) : 0 ≤ z → int (str z) = Some z.
Proof.
  intros Hz. rewrite int_of_digits by by apply str_digits.
  unfold str. rewrite pretty_Z_nonneg by done.
  rewrite int_digits_pretty_N. f_equal. lia.
Qed.

(** The round trip through the decimal form. *)
Lemma int_str (z : Z) : int (str z) = Some z.
Proof.
  destruct (decide (0 ≤ z)) as [Hz|Hz]; [by apply int_str_nonneg|].
  destruct z as [|p|p]; [lia|lia|].
  unfold str, pretty, pretty_Z. fold (pretty (Npos p)).
  unfold int. rewrite strip_fixed.
  2:{ rewrite append_cons, append_nil_l. apply every_cons. split; [done|].
      eapply all_chars_impl; [|apply (pretty_N_digits (Npos p))].
      intros c Hc. by rewrite isdigit_char_not_space. }
  rewrite append_cons, append_nil_l.
  change (pretty p) with (pretty (Npos p)).
  rewrite int_digits_pretty_N. simpl. done.
Qed.

End py_numbers.

Section py_decimal_order.
Import PyStr.

Lemma length_go_le (y : N) s :
  (String.length s ≤ String.length (pretty_N_go y s))%nat.
Proof.
  revert s. induction (N.lt_wf_0 y) as [y _ IH]; intros s.
  destruct (N.eq_0_gt_0_cases y) as [->|Hy]; [done|].
  rewrite pretty_N_go_step by done.
  etrans; [|apply IH; by apply N.div_lt]. simpl. lia.
Qed.

Lemma length_go_lt (y : N) s :
  (0 < y)%N → (String.length s < String.length (pretty_N_go y s))%nat.
Proof.
  intros Hy. rewrite pretty_N_go_step by done.
  eapply Nat.lt_le_trans; [|apply length_go_le]. simpl. lia.
Qed.

Lemma compare_lexicographic (q1 q2 r1 r2 : N) (c : comparison) :
  (r1 < 10)%N → (r2 < 10)%N →
  match (q1 ?= q2)%N with
  | Eq => match (r1 ?= r2)%N with Eq => c | o => o end
  | o => o
  end
  = match (10 * q1 + r1 ?= 10 * q2 + r2)%N with Eq => c | o => o end.
Proof.
  intros H1 H2.
  destruct (N.compare_spec q1 q2) as [->|Hq|Hq].
  - destruct (N.compare_spec r1 r2) as [->|Hr|Hr].
    + by rewrite N.compare_refl.
    + assert (10 * q2 + r1 < 10 * q2 + r2)%N as ->%N.compare_lt_iff by lia.
      done.
    + assert (10 * q2 + r2 < 10 * q2 + r1)%N as ->%N.compare_gt_iff by lia.
      done.
  - assert (10 * q1 + r1 < 10 * q2 + r2)%N as ->%N.compare_lt_iff by lia.
    done.
  - assert (10 * q2 + r2 < 10 * q1 + r1)%N as ->%N.compare_gt_iff by lia.
    done.
Qed.

Lemma compare_digit (r1 r2 : N) :
  (r1 < 10)%N → (r2 < 10)%N →
  Ascii.compare (pretty_N_char r1) (pretty_N_char r2) = (r1 ?= r2)%N.
Proof.
  intros H1 H2. unfold Ascii.compare.
  destruct (pretty_N_char_digit r1 H1) as (_ & _ & ->).
  destruct (pretty_N_char_digit r2 H2) as (_ & _ & ->).
  destruct (N.compare_spec r1 r2) as [->|H|H].
  - apply N.compare_refl.
  - apply N.compare_lt_iff. lia.
  - apply N.compare_gt_iff. lia.
Qed.

(** Decimal forms of the same length compare as the numbers do. *)
Lemma compare_go (x y : N) s t :
  String.length s = String.length t →
  String.length (pretty_N_go x s) = String.length (pretty_N_go y t) →
  String.compare (pretty_N_go x s) (pretty_N_go y t)
  = match (x ?= y)%N with Eq => String.compare s t | o => o end.
Proof.
  revert y s t. induction (N.lt_wf_0 x) as [x _ IH]; intros y s t Hst Hlen.
  destruct (N.eq_0_gt_0_cases x) as [->|Hx],
           (N.eq_0_gt_0_cases y) as [->|Hy].
  - done.
  - pose proof (length_go_lt y t Hy). rewrite pretty_N_go_0 in Hlen. lia.
  - pose proof (length_go_lt x s Hx). rewrite pretty_N_go_0 in Hlen. lia.
  - rewrite pretty_N_go_step in Hlen |- * by done.
    rewrite (pretty_N_go_step y) in Hlen |- * by done.
    rewrite IH; [|by apply N.div_lt|simpl; lia|done].
    simpl String.compare.
    rewrite compare_digit by by apply N.mod_lt.
    rewrite compare_lexicographic by by apply N.mod_lt.
    by rewrite <- !N.div_mod by done.
Qed.

Lemma compare_pretty_N (x y : N) :
  String.length (pretty x) = String.length (pretty y) →
  String.compare (pretty x) (pretty y) = (x ?= y)%N.
Proof.
  rewrite !pretty_N_unfold. intros Hlen.
  rewrite compare_go by done. simpl String.compare.
  rewrite compare_digit by by apply N.mod_lt.
  replace (match (x `mod` 10 ?= y `mod` 10)%N with
           | Eq => Eq | Lt => Lt | Gt => Gt end)
    with (match (x `mod` 10 ?= y `mod` 10)%N with Eq => Eq | o => o end)
    by by destruct (_ ?= _)%N.
  rewrite compare_lexicographic by by apply N.mod_lt.
  rewrite <- !N.div_mod by done. by destruct (x ?= y)%N.
Qed.

(** [str(a) <= str(b)] for numbers that are not negative and whose
    decimal forms have the same length. *)
Lemma leb_str (a b : Z) :
  0 ≤ a → 0 ≤ b →
  String.length (str a) = String.length (str b) →
  String.leb (str a) (str b) = (a <=? b).
Proof.
  intros Ha Hb. unfold str. rewrite !pretty_Z_nonneg by done. intros Hlen.
  unfold String.leb. rewrite compare_pretty_N by done.
  destruct (N.compare_spec (Z.to_N a) (Z.to_N b)); symmetry;
    [apply Z.leb_le|apply Z.leb_le|apply Z.leb_gt]; lia.
Qed.

(** ** The number of digits *)

Lemma length_go_upper (k : nat) (x : N) s :
  (x < 10 ^ N.of_nat k)%N →
  (String.length (pretty_N_go x s) ≤ String.length s + k)%nat.
Proof.
  revert x s. induction k as [|k IH]; intros x s Hx.
  { change (10 ^ N.of_nat 0)%N with 1%N in Hx.
    assert (x = 0%N) as -> by lia. rewrite pretty_N_go_0. lia. }
  destruct (N.eq_0_gt_0_cases x) as [->|Hpos];
    [rewrite pretty_N_go_0; lia|].
  rewrite pretty_N_go_step by done.
  etrans; [apply IH|simpl; lia].
  apply N.Div0.div_lt_upper_bound.
  rewrite Nat2N.inj_succ, N.pow_succ_r' in Hx. done.
Qed.

Lemma length_go_lower (k : nat) (x : N) s :
  (10 ^ N.of_nat k ≤ x)%N →
  (String.length s + k < String.length (pretty_N_go x s))%nat.
Proof.
  revert x s. induction k as [|k IH]; intros x s Hx.
  { change (10 ^ N.of_nat 0)%N with 1%N in Hx.
    rewrite Nat.add_0_r. apply length_go_lt. lia. }
  assert (0 < 10 ^ N.of_nat (S k))%N by (apply N.neq_0_lt_0, N.pow_nonzero; lia).
  rewrite pretty_N_go_step by lia.
  eapply Nat.le_lt_trans; [|apply IH].
  { simpl. lia. }
  apply N.div_le_lower_bound; [done|].
  rewrite Nat2N.inj_succ, N.pow_succ_r' in Hx. done.
Qed.

(** [len(str(n)) <= 5] exactly when [n < 100000]. *)
Lemma length_str_5 (z : Z) :
  0 ≤ z →
  (String.length (str z) <=? 5)%nat = (z <? 100000).
Proof.
  intros Hz. unfold str. rewrite pretty_Z_nonneg, pretty_N_unfold by done.
  destruct (z <? 100000) eqn:E.
  - apply Z.ltb_lt in E. apply Nat.leb_le.
    etrans; [apply (length_go_upper 4)|simpl; lia].
    apply N.Div0.div_lt_upper_bound.
    change (10 ^ N.of_nat 4)%N with 10000%N. lia.
  - apply Z.ltb_ge in E. apply Nat.leb_gt.
    eapply Nat.le_lt_trans; [|apply (length_go_lower 4)].
    { simpl. lia. }
    apply N.div_le_lower_bound; [done|].
    change (10 ^ N.of_nat 4)%N with 10000%N. lia.
Qed.

End py_decimal_order.

(* ===================================================================== *)
(** * More on the offset planner *)
(* ===================================================================== *)

Section planner.
Import PyStr Records PostExtractor.

(** ** [range(0, stop, 50)] *)

Lemma range0_lookup stop (k : nat) o :
  range0 stop 50 !! k = Some o →
  o = Z.of_nat k * 50 ∧ Z.of_nat k * 50 < stop.
Proof.
  unfold range0. rewrite list_lookup_fmap.
  intros (i & [-> Hi]%lookup_seq & ->)%fmap_Some. simpl. split; [done|].
  assert (Z.of_nat k < (stop + 50 - 1) / 50) as Hlt by lia.
  pose proof (Z.div_mod (stop + 50 - 1) 50 ltac:(done)).
  pose proof (Z.mod_pos_bound (stop + 50 - 1) 50 ltac:(done)). lia.
Qed.

Lemma elem_of_range0 stop o :
  o ∈ range0 stop 50 ↔ 0 ≤ o < stop ∧ o `mod` 50 = 0.
Proof.
  split.
  - intros [k Hk]%list_elem_of_lookup.
    apply range0_lookup in Hk as [-> Hlt]. split; [lia|].
    apply Z.mod_mul. done.
  - intros [[H0 Hlt] Hmod]. unfold range0. apply list_elem_of_fmap.
    pose proof (Z.div_mod o 50 ltac:(done)) as Hdm. rewrite Hmod in Hdm.
    exists (Z.to_nat (o / 50)). split; [lia|].
    apply elem_of_seq. split; [lia|]. simpl.
    pose proof (Z.div_mod (stop + 50 - 1) 50 ltac:(done)).
    pose proof (Z.mod_pos_bound (stop + 50 - 1) 50 ltac:(done)).
    assert (o / 50 < (stop + 50 - 1) / 50) by lia. lia.
Qed.

(** Every index below [stop] is on one page of the plan. *)
Lemma range0_covers stop i :
  0 ≤ i < stop → ∃ o, o ∈ range0 stop 50 ∧ o ≤ i < o + 50.
Proof.
  intros Hi. exists (50 * (i / 50)).
  pose proof (Z.div_mod i 50 ltac:(done)).
  pose proof (Z.mod_pos_bound i 50 ltac:(done)).
  split; [|lia]. apply elem_of_range0. split; [lia|].
  rewrite Z.mul_comm. by apply Z.mod_mul.
Qed.

Lemma range0_pos stop :
  0 < stop → ∃ rest, range0 stop 50 = 0 :: rest.
Proof.
  intros Hstop. unfold range0.
  assert (0 < (stop + 50 - 1) / 50) as Hq.
  { apply Z.div_str_pos. lia. }
  destruct (Z.to_nat ((stop + 50 - 1) / 50)) as [|n] eqn:E; [lia|].
  simpl. by eexists.
Qed.

(** The pages of a range of offsets cover the range. *)
Lemma offset_range_covers (a b i : Z) :
  a ≤ i < b →
  ∃ k : nat, (k < Z.to_nat (ceil_div (b - a) 50))%nat
             ∧ a + Z.of_nat k * 50 ≤ i < a + Z.of_nat k * 50 + 50.
Proof.
  intros Hi. exists (Z.to_nat ((i - a) / 50)). unfold ceil_div.
  pose proof (Z.div_mod (i - a) 50 ltac:(done)).
  pose proof (Z.mod_pos_bound (i - a) 50 ltac:(done)).
  pose proof (Z.div_mod (- (b - a)) 50 ltac:(done)).
  pose proof (Z.mod_pos_bound (- (b - a)) 50 ltac:(done)).
  assert (0 ≤ (i - a) / 50) by (apply Z.div_pos; lia).
  split; lia.
Qed.

(** ** Reading the fetch mode *)

Lemma not_all s : contains "-" s = true → String.eqb s "all" = false.
Proof.
  intros Hs. destruct (String.eqb_spec s "all") as [->|]; [done|done].
Qed.

Lemma digits_not_word s word :
  all_chars isdigit_char s = true →
  all_chars isdigit_char word = false →
  String.eqb s word = false.
Proof.
  intros Hs Hw. destruct (String.eqb_spec s word) as [->|]; [congruence|done].
Qed.

Lemma dash_form (a b : Z) :
  str a +:+ "-" +:+ str b = str a +:+ String "-" (str b).
Proof. by rewrite append_cons, append_nil_l. Qed.

(** The two sides of [A-B] for numbers that are not negative. *)
Lemma split_dash (a b : Z) :
  0 ≤ a → 0 ≤ b →
  split "-" (str a +:+ "-" +:+ str b) = [str a; str b].
Proof.
  intros Ha Hb. rewrite dash_form, split_app_sep.
  rewrite !split_no_sep; [done|..];
    (eapply contains_all_chars; [by apply str_digits|done]).
Qed.

Lemma contains_dash (a b : Z) : contains "-" (str a +:+ "-" +:+ str b) = true.
Proof.
  rewrite dash_form, contains_app. simpl. by rewrite orb_true_r.
Qed.

Lemma isdigit_dash (a b : Z) : isdigit (str a +:+ "-" +:+ str b) = false.
Proof.
  unfold isdigit. rewrite dash_form, all_chars_app. simpl.
  by rewrite andb_false_r, andb_false_r.
Qed.

Lemma range_side_str word literal (a : Z) :
  0 ≤ a → all_chars isdigit_char word = false →
  range_side word literal (str a) = Some a.
Proof.
  intros Ha Hw. unfold range_side.
  rewrite digits_not_word by (done || by apply str_digits).
  apply int_str.
Qed.

(** [parse_fetch_mode] on [A-B]. *)
Lemma parse_fetch_mode_dash (a b total_count : Z) :
  0 ≤ a → 0 ≤ b →
  parse_fetch_mode (str a +:+ "-" +:+ str b) total_count
  = if (a <=? total_count) && (b <=? total_count)
    then Some ((λ i, Offset (a + Z.of_nat i * 50))
                 <$> seq 0 (Z.to_nat (ceil_div (b - a) 50)))
    else Some [Tag ("id:" +:+ str a +:+ "-" +:+ str b)].
Proof.
  intros Ha Hb. unfold parse_fetch_mode.
  rewrite not_all by apply contains_dash.
  rewrite isdigit_dash, contains_dash, split_dash by done.
  rewrite !range_side_str by done. simpl. done.
Qed.

(** [parse_fetch_mode] on one number. *)
Lemma parse_fetch_mode_number (n total_count : Z) :
  0 ≤ n →
  parse_fetch_mode (str n) total_count
  = Some (if n <? 100000 then [Offset n] else [Tag ("id:" +:+ str n)]).
Proof.
  intros Hn. unfold parse_fetch_mode.
  rewrite digits_not_word by (done || by apply str_digits).
  unfold isdigit. rewrite str_digits by done.
  pose proof (str_nonempty n) as Hne.
  destruct (str n) as [|c r] eqn:E; [done|]. simpl truthy. simpl andb.
  rewrite <- E. unfold is_offset. rewrite int_str.
  rewrite length_str_5 by done. by destruct (n <? 100000).
Qed.

(** ** From the plan to the filter *)

Lemma prefix_append s t : String.prefix s (s +:+ t) = true.
Proof.
  induction s as [|c s IH].
  - rewrite append_nil_l. by destruct t.
  - rewrite append_cons. simpl. by destruct (ascii_dec c c).
Qed.

Lemma plan_filter_id_range (a b count : Z) :
  0 ≤ a → 0 ≤ b →
  plan_filter [Tag ("id:" +:+ str a +:+ "-" +:+ str b)] count
  = inr (RangeFilter (str (Z.min a b)) (str (Z.max a b)),
         Offset <$> range0 count 50).
Proof.
  intros Ha Hb. unfold plan_filter.
  rewrite prefix_append.
  change ("id:" +:+ str a +:+ "-" +:+ str b)
    with ("id" +:+ String ":" (str a +:+ "-" +:+ str b)).
  rewrite split_app_sep.
  rewrite (split_no_sep ":" (str a +:+ "-" +:+ str b)).
  2:{ rewrite dash_form, contains_app. simpl.
      rewrite !(contains_all_chars isdigit_char) by (done || by apply str_digits).
      done. }
  simpl. rewrite contains_dash, split_dash by done. simpl.
  rewrite !int_str. simpl.
  unfold merge_sort. simpl.
  destruct (decide (a ≤ b)) as [Hab|Hab]; simpl.
  - by rewrite Z.min_l, Z.max_r by lia.
  - by rewrite Z.min_r, Z.max_l by lia.
Qed.

Lemma plan_filter_single_id (n count : Z) :
  0 ≤ n →
  plan_filter [Tag ("id:" +:+ str n)] count
  = inr (SingleFilter (str n), Offset <$> range0 count 50).
Proof.
  intros Hn. unfold plan_filter.
  rewrite prefix_append.
  change ("id:" +:+ str n) with ("id" +:+ String ":" (str n)).
  rewrite split_app_sep.
  rewrite (split_no_sep ":" (str n))
    by (eapply contains_all_chars; [by apply str_digits|done]).
  simpl.
  by rewrite (contains_all_chars isdigit_char)
    by (done || by apply str_digits).
Qed.

(** The filter of an ID range on ids of the same length as the
    bounds. *)
Lemma passes_equal_lengths (a b x : Z) :
  0 ≤ a → 0 ≤ b → 0 ≤ x →
  String.length (str x) = String.length (str a) →
  String.length (str x) = String.length (str b) →
  passes (RangeFilter (str a) (str b)) (str x) = (a <=? x) && (x <=? b).
Proof.
  intros Ha Hb Hx Hla Hlb. simpl.
  by rewrite !leb_str by done.
Qed.

End planner.

(* ===================================================================== *)
(** * More on the extraction *)
(* ===================================================================== *)

Section extraction.
Import PyStr Records PostExtractor.

(** ** The records [process_posts] builds *)

Lemma process_posts_records w base_server posts page_number offset_
      save_empty_files f processed :
  process_posts w base_server posts page_number offset_ save_empty_files f
  = inr processed →
  Forall (λ p,
            passes f (id p) = true
            ∧ page p = page_number ∧ offset p = offset_
            ∧ link p = base_server +:+ "/" +:+ service p +:+ "/user/"
                       +:+ user p +:+ "/post/" +:+ id p
            ∧ (save_empty_files = false → post_files p ≠ []))
         processed.
Proof.
  revert processed. induction posts as [|l posts IH]; intros processed; simpl.
  { by intros [= <-]. }
  destruct (post_detail w l) as [d| |e]; [|by apply IH|done].
  destruct (passes f (d_id d)) eqn:Hpass; simpl; [|by apply IH].
  destruct (negb save_empty_files && bool_decide (d_files d = [])) eqn:He;
    [by apply IH|].
  destruct (process_posts _ _ _ _ _ _ _) as [e|rest]; [done|].
  intros [= <-]. constructor; [|by apply IH]. simpl.
  split_and!; try done. intros ->. simpl in He.
  by apply bool_decide_eq_false in He.
Qed.

(** A site whose post details never raise lets [process_posts]
    return. *)
Lemma process_posts_returns w base_server posts page_number offset_
      save_empty_files f :
  (∀ l e, post_detail w l ≠ DetailRaises e) →
  ∃ processed,
    process_posts w base_server posts page_number offset_ save_empty_files f
    = inr processed.
Proof.
  intros Hsite. induction posts as [|l posts [rest IH]]; simpl; [by eexists|].
  destruct (post_detail w l) as [d| |e] eqn:E;
    [|by eexists|by destruct (Hsite l e)].
  rewrite IH. repeat case_match; by eexists.
Qed.

(** ** The generator's inner loop *)

Lemma yield_posts_prefix f found processed :
  (yield_posts f found processed).1.1 `prefix_of` processed.
Proof.
  revert found. induction processed as [|p rest IH]; intros found; simpl.
  { done. }
  destruct f as [|id1 id2|id_range].
  - specialize (IH found). destruct (yield_posts _ _ _) as [[ys fd] e].
    simpl in *. by apply prefix_cons.
  - destruct (_ && _).
    + simpl. apply prefix_cons, prefix_nil.
    + specialize (IH ({[id p]} ∪ found)).
      destruct (yield_posts _ _ _) as [[ys fd] e]. simpl in *.
      by apply prefix_cons.
  - simpl. apply prefix_cons, prefix_nil.
Qed.

Lemma yield_posts_no_filter found processed :
  yield_posts NoFilter found processed = (processed, found, None).
Proof.
  induction processed as [|p rest IH]; simpl; [done|]. by rewrite IH.
Qed.

Lemma yield_posts_range id1 id2 found processed :
  let found_page : gset string := list_to_set (id <$> processed) ∪ found in
  let both :=
    bool_decide (id1 ∈ found_page) && bool_decide (id2 ∈ found_page) in
  match yield_posts (RangeFilter id1 id2) found processed with
  | (ys, found', None) =>
      ys = processed ∧ found' = found_page
      ∧ (processed ≠ [] → both = false)
  | (ys, found', Some e) =>
      e = FoundBoth ∧ processed ≠ [] ∧ both = true
  end.
Proof.
  revert found. induction processed as [|p rest IH]; intros found; simpl.
  { split_and!; [done| |done]. apply set_eq. intros x.
    rewrite elem_of_union, elem_of_empty. tauto. }
  assert (∀ S : gset string,
            {[id p]} ∪ S ∪ found = S ∪ ({[id p]} ∪ found)) as Hset.
  { intros S. apply set_eq. intros x.
    rewrite !elem_of_union. tauto. }
  destruct (bool_decide (id1 ∈ {[id p]} ∪ found)
            && bool_decide (id2 ∈ {[id p]} ∪ found)) eqn:Eb.
  - split_and!; [done|done|].
    apply andb_true_iff in Eb as [H1%bool_decide_eq_true H2%bool_decide_eq_true].
    apply andb_true_iff. split; apply bool_decide_eq_true;
      rewrite Hset; apply elem_of_union; by right.
  - specialize (IH ({[id p]} ∪ found)). simpl in IH.
    rewrite <- Hset in IH.
    destruct (yield_posts _ _ _) as [[ys fd] [e|]].
    + destruct IH as (-> & Hne & Hboth). done.
    + destruct IH as (-> & -> & Hboth). split_and!; [done|done|].
      intros _. destruct rest as [|q rest]; [|by apply Hboth].
      simpl.
      assert ({[id p]} ∪ ∅ ∪ found = {[id p]} ∪ found) as ->; [|done].
      apply set_eq. intros x. rewrite !elem_of_union, elem_of_empty. tauto.
Qed.

(** ** Streaming against collecting *)

(** The generator asks for the same pages as [extract_posts], ends the
    same way, and yields a prefix of what [extract_posts] saves; without
    a filter it yields the same posts. *)
Lemma stream_collect w base_server save_empty_files f found offsets :
  let s := stream_pages w base_server save_empty_files f found offsets in
  let c := collect_pages w base_server save_empty_files f found offsets in
  fetched s = fetched c ∧ ended s = ended c
  ∧ produced s `prefix_of` produced c
  ∧ (f = NoFilter → produced s = produced c).
Proof.
  revert found.
  induction offsets as [|[o|t] offsets IH]; intros found; simpl; [done| |done].
  destruct (fetch_posts w o) as [e|post_data]; [done|].
  destruct (process_posts _ _ _ _ _ _ _) as [e|processed]; [done|].
  destruct f as [|id1 id2|id_range].
  - rewrite yield_posts_no_filter.
    destruct (IH found) as (Hf & He & Hp & Hn).
    destruct processed as [|p rest]; simpl in *.
    + rewrite Hf, He. split_and!; [done|done|done|]. intros _. by apply Hn.
    + rewrite Hf, He, Hn by done. done.
  - pose proof (yield_posts_range id1 id2 found processed) as Hy.
    pose proof (yield_posts_prefix (RangeFilter id1 id2) found processed)
      as Hpre.
    destruct (yield_posts _ _ _) as [[ys fd] [e|]]; simpl in *.
    + destruct Hy as (-> & Hne & Hboth).
      destruct processed as [|p rest]; [done|]. rewrite Hboth. done.
    + destruct Hy as (-> & -> & Hboth).
      destruct processed as [|p rest]; simpl in *.
      * assert ((∅ ∪ found : gset string) = found) as ->.
        { apply set_eq. intros x. rewrite elem_of_union, elem_of_empty.
          tauto. }
        destruct (IH found) as (Hf & He & Hp & _). rewrite Hf, He. done.
      * rewrite Hboth by done.
        match goal with
        | |- context [stream_pages _ _ _ _ ?fd offsets] =>
            destruct (IH fd) as (Hf & He & Hp & _)
        end.
        simpl. rewrite Hf, He. split_and!; [done|done| |done].
        by apply prefix_cons, prefix_app.
  - destruct processed as [|p rest]; simpl.
    + destruct (IH found) as (Hf & He & Hp & _). rewrite Hf, He. done.
    + split_and!; [done|done| |done]. apply prefix_cons, prefix_nil.
Qed.

(** ** What the loops fetch and produce *)

Lemma stream_pages_records w base_server save_empty_files f found offsets p :
  let s := stream_pages w base_server save_empty_files f found offsets in
  p ∈ produced s →
  passes f (id p) = true
  ∧ page p = offset p `div` 50 + 1
  ∧ offset p ∈ fetched s
  ∧ link p = base_server +:+ "/" +:+ service p +:+ "/user/"
             +:+ user p +:+ "/post/" +:+ id p
  ∧ (save_empty_files = false → post_files p ≠ []).
Proof.
  revert found.
  induction offsets as [|[o|t] offsets IH]; intros found; simpl;
    [by intros ?%elem_of_nil| |by intros ?%elem_of_nil].
  destruct (fetch_posts w o) as [e|post_data]; [by intros ?%elem_of_nil|].
  destruct (process_posts _ _ _ _ _ _ _) as [e|processed] eqn:Hproc;
    [by intros ?%elem_of_nil|].
  apply process_posts_records in Hproc. rewrite Forall_forall in Hproc.
  pose proof (yield_posts_prefix f found processed) as Hpre.
  destruct (yield_posts _ _ _) as [[ys fd] e]. simpl in Hpre.
  assert (p ∈ ys →
          passes f (id p) = true ∧ page p = offset p `div` 50 + 1
          ∧ offset p = o
          ∧ link p = base_server +:+ "/" +:+ service p +:+ "/user/"
                     +:+ user p +:+ "/post/" +:+ id p
          ∧ (save_empty_files = false → post_files p ≠ [])) as Hys.
  { intros Hin. destruct Hpre as [k ->].
    destruct (Hproc p) as (? & ? & ? & ? & ?).
    { apply elem_of_app. by left. }
    split_and!; try done. congruence. }
  destruct e as [e|]; simpl.
  - intros Hin. destruct (Hys Hin) as (H1 & H2 & H3 & H4 & H5).
    split; [done|]. split; [done|]. split; [|done].
    rewrite H3. by apply list_elem_of_singleton.
  - intros [Hin|Hin]%elem_of_app.
    + destruct (Hys Hin) as (H1 & H2 & H3 & H4 & H5).
      split; [done|]. split; [done|]. split; [|done].
      rewrite H3. apply elem_of_cons. by left.
    + destruct (IH _ Hin) as (H1 & H2 & H3 & H4 & H5).
      split; [done|]. split; [done|]. split; [|done].
      apply elem_of_cons. by right.
Qed.

(** On a site that never raises, a plan of offsets without a filter is
    fetched page by page to its end. *)
Lemma stream_pages_visits_all w base_server save_empty_files found os :
  (∀ o, ∃ l, fetch_posts w o = inr l) →
  (∀ l e, post_detail w l ≠ DetailRaises e) →
  let s := stream_pages w base_server save_empty_files NoFilter found
                        (Offset <$> os) in
  fetched s = os ∧ ended s = Exhausted.
Proof.
  intros Hpages Hdetails. induction os as [|o os IH]; simpl; [done|].
  destruct (Hpages o) as [post_data ->].
  destruct (process_posts_returns w base_server post_data (o `div` 50 + 1) o
              save_empty_files NoFilter Hdetails) as [processed ->].
  rewrite yield_posts_no_filter. simpl in *.
  destruct IH as [IHf IHe]. split; [by f_equal|done].
Qed.

(** ** The two entry points *)

Lemma extract_streaming_vs_batch w base_server save_empty_files fetch_mode
      count :
  count ≠ 0 →
  let s := extract_posts_streaming w base_server save_empty_files
                                   fetch_mode count in
  let c := extract_posts w base_server save_empty_files fetch_mode count in
  fetched s = fetched c ∧ ended s = ended c
  ∧ produced s `prefix_of` produced c
  ∧ (∀ offsets offsets',
       parse_fetch_mode fetch_mode count = Some offsets →
       plan_filter offsets count = inr (NoFilter, offsets') →
       produced s = produced c).
Proof.
  intros Hcount. unfold extract_posts_streaming, extract_posts.
  assert ((count =? 0) = false) as -> by lia.
  destruct (parse_fetch_mode fetch_mode count) as [offsets|]; [|done].
  destruct (plan_filter offsets count) as [e|[f offsets']] eqn:Hplan; [done|].
  destruct (stream_collect w base_server save_empty_files f ∅ offsets')
    as (Hf & He & Hp & Hn).
  split_and!; [done|done|done|].
  intros ? ? [= <-]. rewrite Hplan. intros [= -> _]. by apply Hn.
Qed.

End extraction.

(* ===================================================================== *)
(** * The float quotient of the offset planner *)
(* ===================================================================== *)

Section float_division.
Import PyStr PyFloat.

(** Rounding the quotient by 50 of a multiple [n * P], for [P] at least
    32: a whole quotient is kept, another one stays strictly between
    the multiples of [P] around it. *)
Lemma round_half_even_50 (q r P : Z) :
  0 ≤ r < 50 → 32 ≤ P →
  let m := round_half_even ((50 * q + r) * P) 50 in
  (r = 0 → m = q * P) ∧ (0 < r → q * P < m < (q + 1) * P).
Proof.
  intros Hr HP. cbv zeta. unfold round_half_even.
  assert ((50 * q + r) * P = 50 * (q * P) + r * P) as -> by ring.
  assert (P ≤ r * P ∨ r = 0) as Hlow by nia.
  assert (r * P ≤ 49 * P) as Hup by nia.
  set (b := r * P) in *.
  pose proof (Z.div_mod (50 * (q * P) + b) 50 ltac:(lia)) as Hdm.
  pose proof (Z.mod_pos_bound (50 * (q * P) + b) 50 ltac:(lia)) as Hmod.
  set (a := q * P) in *.
  assert ((q + 1) * P = a + P) as -> by (unfold a; ring).
  set (t := (50 * a + b) `div` 50) in *.
  set (r' := (50 * a + b) `mod` 50) in *.
  split.
  - intros ->. assert (b = 0) as Hb by (unfold b; ring).
    assert ((2 * r' <? 50) = true) as -> by lia. lia.
  - intros Hpos.
    destruct (2 * r' <? 50) eqn:E1; [lia|].
    destruct (50 <? 2 * r') eqn:E2; [lia|].
    destruct (Z.even t); lia.
Qed.

(** The float nearest to [n / 50], for [n] below [2^53], has an
    exponent of [-5] at most. *)
Lemma nearest_50 (n : Z) :
  0 < n < 2 ^ 53 →
  ∃ e, e ≤ -5
       ∧ nearest n 50 = (round_half_even (n * 2 ^ (- e)) 50, e).
Proof.
  intros Hn.
  assert (0 ≤ Z.log2 n ≤ 52) as Hlog.
  { split; [apply Z.log2_nonneg|].
    assert (Z.log2 n < 53); [|lia]. apply Z.log2_lt_pow2; lia. }
  unfold nearest. change (Z.log2 50) with 5.
  set (e0 := Z.log2 n - 5 - 53).
  match goal with
  | |- context [if ?c then e0 + 1 else e0] =>
      set (e := if c then e0 + 1 else e0)
  end.
  assert (e ≤ -5) as He by (unfold e, e0; case_match; lia).
  exists e. split; [done|]. unfold scaled. simpl.
  rewrite (Z.max_r 0 (- e)) by lia. rewrite (Z.max_l 0 e) by lia.
  change (2 ^ 0) with 1. by rewrite Z.mul_1_r.
Qed.

(** Below [2^53] the ceiling of the float quotient by 50 is the
    ceiling of the exact quotient. *)
Lemma ceil_truediv_50 (d : Z) :
  - 2 ^ 53 < d < 2 ^ 53 →
  ceil (truediv d 50) = ceil_div d 50.
Proof.
  intros Hd. unfold truediv, ceil_div.
  destruct (d =? 0) eqn:E0; [apply Z.eqb_eq in E0; by subst|].
  apply Z.eqb_neq in E0.
  set (n := Z.abs d).
  assert (0 < n < 2 ^ 53) as Hn by lia.
  destruct (nearest_50 n Hn) as (e & He & Hnear).
  set (P := 2 ^ (- e)) in *.
  assert (32 ≤ P) as HP.
  { unfold P. change 32 with (2 ^ 5). apply Z.pow_le_mono_r; lia. }
  pose proof (Z.div_mod n 50 ltac:(lia)) as Hdm.
  pose proof (Z.mod_pos_bound n 50 ltac:(lia)) as Hmod.
  set (q := n `div` 50) in *. set (r := n `mod` 50) in *.
  destruct (round_half_even_50 q r P Hmod HP) as [Hzero Hpos].
  cbv zeta in Hzero, Hpos. rewrite <- Hdm in Hzero, Hpos.
  set (m := round_half_even (n * P) 50) in *. rename Hnear into En.
  assert ((0 <=? e) = false) as He' by lia.
  assert (m `div` P = q ∧ (- m) `div` P = (if r =? 0 then - q else - q - 1))
    as [Hfloor Hceil].
  { destruct (r =? 0) eqn:Er.
    - apply Z.eqb_eq in Er. rewrite (Hzero Er).
      replace (- (q * P)) with (- q * P) by ring.
      rewrite !Z.div_mul by lia. done.
    - apply Z.eqb_neq in Er. specialize (Hpos ltac:(lia)). split.
      + symmetry. apply (Z.div_unique_pos m P q (m - q * P)); lia.
      + symmetry.
        apply (Z.div_unique_pos (- m) P (- q - 1) ((q + 1) * P - m)); lia. }
  destruct (d <? 0) eqn:Eneg.
  - replace (- d) with n by lia. rewrite En. unfold ceil. rewrite He'.
    rewrite Z.opp_involutive. fold P. rewrite Hfloor. done.
  - replace d with n by lia. rewrite En. unfold ceil. rewrite He'.
    fold P. rewrite Hceil.
    destruct (r =? 0) eqn:Er.
    + apply Z.eqb_eq in Er.
      assert (- n = - q * 50) as -> by lia. rewrite Z.div_mul by lia. lia.
    + apply Z.eqb_neq in Er.
      rewrite (Z.div_unique_pos (- n) 50 (- q - 1) (50 - r)) by lia. lia.
Qed.

(** Above the floats that are whole numbers the two ceilings part. *)
Lemma ceil_truediv_50_large :
  ceil (truediv (10 ^ 17 + 1) 50) = 2 * 10 ^ 15
  ∧ ceil_div (10 ^ 17 + 1) 50 = 2 * 10 ^ 15 + 1.
Proof. split; vm_compute; reflexivity. Qed.

End float_division.

(* ===================================================================== *)
(** * Further properties of the offset planner and the extraction *)
(* ===================================================================== *)

(** X15.  The plan of the fetch mode "all" is [range(0, total_count, 50)]:
    exactly the multiples of 50 from 0 below [total_count], in increasing
    order, each once; every index of a post, from 0 to [total_count - 1],
    lies on exactly the page that starts at one of these offsets. *)
Theorem all_plan_covers_every_post (total_count : Z) :
  PostExtractor.parse_fetch_mode "all" total_count
  = Some (PostExtractor.Offset <$> PyStr.range0 total_count 50)
  ∧ (∀ o, o ∈ PyStr.range0 total_count 50
          ↔ 0 ≤ o < total_count ∧ o `mod` 50 = 0)
  ∧ (∀ (k : nat) o, PyStr.range0 total_count 50 !! k = Some o →
                    o = Z.of_nat k * 50)
  ∧ (∀ i, 0 ≤ i < total_count →
          ∃ o, o ∈ PyStr.range0 total_count 50 ∧ o ≤ i < o + 50).
Proof.
  split; [done|]. split; [apply elem_of_range0|].
  split; [|apply range0_covers].
  intros k o Hk. by apply range0_lookup in Hk as [-> _].
Qed.

(** X16.  A range of offsets.  For numbers [A] and [B] that are not
    negative and do not exceed the number of posts, itself below [2^53],
    the plan of the fetch mode ["A-B"] is [A, A + 50, A + 100, ...] with
    [math.ceil((B - A) / 50)] pages (none when [B <= A]), the quotient
    being the float Python computes; every index from [A] to [B - 1]
    lies on one of these pages.  Below [2^53] the ceiling of that float
    is the ceiling of the exact quotient, [PyStr.ceil_div]; for larger
    numbers it need not be, and the division raises [OverflowError]
    beyond the range of floats. *)
Theorem offset_range_plan (a b total_count : Z) :
  0 ≤ a → 0 ≤ b → a ≤ total_count → b ≤ total_count →
  total_count < 2 ^ 53 →
  let num_pages := PyFloat.ceil (PyFloat.truediv (b - a) 50) in
  num_pages = PyStr.ceil_div (b - a) 50
  ∧ PostExtractor.parse_fetch_mode
      (PyStr.str a +:+ "-" +:+ PyStr.str b) total_count
    = Some ((λ k, PostExtractor.Offset (a + Z.of_nat k * 50))
              <$> seq 0 (Z.to_nat num_pages))
  ∧ ∀ i, a ≤ i < b →
         ∃ k : nat, (k < Z.to_nat num_pages)%nat
                    ∧ a + Z.of_nat k * 50 ≤ i < a + Z.of_nat k * 50 + 50.
Proof.
  intros Ha Hb Hat Hbt Hbound. cbv zeta.
  rewrite ceil_truediv_50 by lia.
  split; [done|]. split; [|apply offset_range_covers].
  rewrite parse_fetch_mode_dash by done.
  assert ((a <=? total_count) = true) as -> by lia.
  assert ((b <=? total_count) = true) as -> by lia. done.
Qed.

Lemma offset_range_plan_witness :
  PostExtractor.parse_fetch_mode
    (PyStr.str 50 +:+ "-" +:+ PyStr.str 120) 200
  = Some ((λ k, PostExtractor.Offset (50 + Z.of_nat k * 50))
            <$> seq 0 (Z.to_nat
                         (PyFloat.ceil (PyFloat.truediv (120 - 50) 50)))).
Proof.
  destruct (offset_range_plan 50 120 200) as (_ & Hplan & _); [lia..|].
  exact Hplan.
Defined.

(** X17.  A range of post IDs.  For numbers [A] and [B] that are not
    negative, one of them above the number of posts, the fetch mode
    ["A-B"] is taken for a range of IDs: the plan is the one tag
    ["id:A-B"], from which the extraction derives the filter
    [min(A, B) <= str(x) <= max(A, B)] on the decimal forms and a scan of
    all the pages [range(0, count, 50)]. *)
Theorem id_range_plan (a b total_count : Z) :
  0 ≤ a → 0 ≤ b → total_count < a ∨ total_count < b →
  PostExtractor.parse_fetch_mode
    (PyStr.str a +:+ "-" +:+ PyStr.str b) total_count
  = Some [PostExtractor.Tag ("id:" +:+ PyStr.str a +:+ "-" +:+ PyStr.str b)]
  ∧ PostExtractor.plan_filter
      [PostExtractor.Tag ("id:" +:+ PyStr.str a +:+ "-" +:+ PyStr.str b)]
      total_count
    = inr (PostExtractor.RangeFilter
             (PyStr.str (Z.min a b)) (PyStr.str (Z.max a b)),
           PostExtractor.Offset <$> PyStr.range0 total_count 50).
Proof.
  intros Ha Hb Hab. split; [|by apply plan_filter_id_range].
  rewrite parse_fetch_mode_dash by done.
  assert ((a <=? total_count) && (b <=? total_count) = false) as ->; [|done].
  apply andb_false_iff. destruct Hab; [left|right]; lia.
Qed.

Lemma id_range_plan_witness :
  PostExtractor.plan_filter
    [PostExtractor.Tag
       ("id:" +:+ PyStr.str 200000 +:+ "-" +:+ PyStr.str 100000)] 10
  = inr (PostExtractor.RangeFilter
           (PyStr.str (Z.min 200000 100000)) (PyStr.str (Z.max 200000 100000)),
         PostExtractor.Offset <$> PyStr.range0 10 50).
Proof.
  destruct (id_range_plan 200000 100000 10) as [_ Hfilter];
    [lia|lia|left; lia|].
  exact Hfilter.
Defined.

(** X18.  One number.  A fetch mode that is the decimal form of a number
    [n] is an offset when [n] has at most five digits: the plan is [[n]],
    whether or not [n] is a multiple of 50 or below the number of posts.
    With six digits or more it is a post ID: the plan is the tag
    ["id:n"], from which the extraction derives the filter [x == "n"]
    and a scan of all the pages. *)
Theorem single_number_plan (n total_count : Z) :
  0 ≤ n →
  PostExtractor.parse_fetch_mode (PyStr.str n) total_count
  = Some (if n <? 100000
          then [PostExtractor.Offset n]
          else [PostExtractor.Tag ("id:" +:+ PyStr.str n)])
  ∧ PostExtractor.plan_filter
      [PostExtractor.Tag ("id:" +:+ PyStr.str n)] total_count
    = inr (PostExtractor.SingleFilter (PyStr.str n),
           PostExtractor.Offset <$> PyStr.range0 total_count 50).
Proof.
  intros Hn. split; [by apply parse_fetch_mode_number|].
  by apply plan_filter_single_id.
Qed.

Lemma single_number_plan_witness :
  PostExtractor.parse_fetch_mode (PyStr.str 123456) 10
  = Some (if 123456 <? 100000
          then [PostExtractor.Offset 123456]
          else [PostExtractor.Tag ("id:" +:+ PyStr.str 123456)]).
Proof.
  destruct (single_number_plan 123456 10) as [Hplan _]; [lia|].
  exact Hplan.
Defined.

(** X19.  When the text filter is right.  For bounds [A <= B] and an id
    [x], none negative, whose decimal forms all have the same number of
    digits, the filter of the ID range, which compares the decimal forms
    as text, passes [x] exactly when [A <= x <= B]. *)
Theorem id_range_filter_equal_lengths (a b x : Z) :
  0 ≤ a → 0 ≤ b → 0 ≤ x →
  String.length (PyStr.str x) = String.length (PyStr.str a) →
  String.length (PyStr.str x) = String.length (PyStr.str b) →
  PostExtractor.passes
    (PostExtractor.RangeFilter (PyStr.str a) (PyStr.str b)) (PyStr.str x)
  = (a <=? x) && (x <=? b).
Proof. apply passes_equal_lengths. Qed.

Lemma id_range_filter_equal_lengths_witness :
  PostExtractor.passes
    (PostExtractor.RangeFilter (PyStr.str 9000000) (PyStr.str 9900000))
    (PyStr.str 9500000)
  = (9000000 <=? 9500000) && (9500000 <=? 9900000).
Proof.
  apply (id_range_filter_equal_lengths 9000000 9900000 9500000);
    [lia|lia|lia|reflexivity|reflexivity].
Defined.



(** X21.  The records of an extraction are well formed.  Every post the
    generator yields carries the page number [offset // 50 + 1] of an
    offset that was fetched, and the link
    [{base_server}/{service}/user/{user}/post/{id}]; it has at least one
    file when empty posts are not wanted; and its id passes the filter
    the plan gave. *)
Theorem yielded_records_are_well_formed
    (w : PostExtractor.site) (base_server : string) (save_empty_files : bool)
    (fetch_mode : string) (count : Z) (p : Records.post) :
  let s := PostExtractor.extract_posts_streaming
             w base_server save_empty_files fetch_mode count in
  p ∈ PostExtractor.produced s →
  Records.page p = Records.offset p `div` 50 + 1
  ∧ Records.offset p ∈ PostExtractor.fetched s
  ∧ Records.link p
    = base_server +:+ "/" +:+ Records.service p +:+ "/user/"
      +:+ Records.user p +:+ "/post/" +:+ Records.id p
  ∧ (save_empty_files = false → Records.post_files p ≠ [])
  ∧ ∃ offsets f offsets',
      PostExtractor.parse_fetch_mode fetch_mode count = Some offsets
      ∧ PostExtractor.plan_filter offsets count = inr (f, offsets')
      ∧ PostExtractor.passes f (Records.id p) = true.
Proof.
  unfold PostExtractor.extract_posts_streaming.
  destruct (PostExtractor.parse_fetch_mode fetch_mode count) as [offsets|];
    [|by intros ?%elem_of_nil].
  destruct (PostExtractor.plan_filter offsets count) as [e|[f offsets']] eqn:E;
    [by intros ?%elem_of_nil|].
  intros Hin. apply stream_pages_records in Hin as (H1 & H2 & H3 & H4 & H5).
  split; [done|]. split; [done|]. split; [done|]. split; [done|].
  by exists offsets, f, offsets'.
Qed.

Lemma yielded_records_are_well_formed_witness :
  ∃ p, p ∈ PostExtractor.produced
             (PostExtractor.extract_posts_streaming
                (Examples.site_one "15") "https://kemono.cr" true "0" 10)
       ∧ Records.page p = Records.offset p `div` 50 + 1
       ∧ Records.link p
         = "https://kemono.cr" +:+ "/" +:+ Records.service p +:+ "/user/"
           +:+ Records.user p +:+ "/post/" +:+ Records.id p.
Proof.
  set (p := {| Records.id := "15"; Records.user := "7";
               Records.service := "fanbox"; Records.title := "";
               Records.link := "https://kemono.cr/fanbox/user/7/post/15";
               Records.page := 1; Records.offset := 0;
               Records.post_files := [] |}).
  assert (p ∈ PostExtractor.produced
                (PostExtractor.extract_posts_streaming
                   (Examples.site_one "15") "https://kemono.cr" true "0" 10))
    as Hin.
  { apply list_elem_of_singleton. reflexivity. }
  destruct (yielded_records_are_well_formed _ _ _ _ _ _ Hin)
    as (Hpage & _ & Hlink & _).
  exists p. split; [exact Hin|]. split; [exact Hpage|exact Hlink].
Defined.

(** X22.  "all" visits every page.  On a profile with posts and a site
    that never raises, both extractions with the fetch mode "all" fetch
    the pages [0, 50, 100, ...] below the number of posts, each once and
    in this order, and run to the end of the plan. *)
Theorem all_mode_visits_every_page
    (w : PostExtractor.site) (base_server : string) (save_empty_files : bool)
    (count : Z) :
  0 < count →
  (∀ o, ∃ l, PostExtractor.fetch_posts w o = inr l) →
  (∀ l e, PostExtractor.post_detail w l ≠ PostExtractor.DetailRaises e) →
  let s := PostExtractor.extract_posts_streaming
             w base_server save_empty_files "all" count in
  let c := PostExtractor.extract_posts
             w base_server save_empty_files "all" count in
  PostExtractor.fetched s = PyStr.range0 count 50
  ∧ PostExtractor.ended s = PostExtractor.Exhausted
  ∧ PostExtractor.fetched c = PyStr.range0 count 50
  ∧ PostExtractor.ended c = PostExtractor.Exhausted
  ∧ PostExtractor.produced c = PostExtractor.produced s.
Proof.
  intros Hcount Hpages Hdetails s c.
  destruct (extract_streaming_vs_batch w base_server save_empty_files "all"
              count ltac:(lia)) as (Hf & He & _ & Hn).
  fold s c in Hf, He, Hn.
  destruct (range0_pos count Hcount) as [rest Hrange].
  assert (PostExtractor.plan_filter
            (PostExtractor.Offset <$> PyStr.range0 count 50) count
          = inr (PostExtractor.NoFilter,
                 PostExtractor.Offset <$> PyStr.range0 count 50)) as Hplan.
  { by rewrite Hrange. }
  assert (PostExtractor.fetched s = PyStr.range0 count 50
          ∧ PostExtractor.ended s = PostExtractor.Exhausted) as [Hfs Hes].
  { subst s. unfold PostExtractor.extract_posts_streaming.
    assert (PostExtractor.parse_fetch_mode "all" count
            = Some (PostExtractor.Offset <$> PyStr.range0 count 50))
      as -> by reflexivity.
    rewrite Hplan. by apply stream_pages_visits_all. }
  split; [done|]. split; [done|]. rewrite <- Hf, <- He.
  split; [done|]. split; [done|]. symmetry. by eapply Hn.
Qed.

Lemma all_mode_visits_every_page_witness :
  PostExtractor.fetched
    (PostExtractor.extract_posts_streaming
       (Examples.site_one "15") "https://kemono.cr" true "all" 120)
  = PyStr.range0 120 50.
Proof.
  destruct (all_mode_visits_every_page
              (Examples.site_one "15") "https://kemono.cr" true 120)
    as (Hf & _).
  - lia.
  - intros o. unfold Examples.site_one. simpl.
    destruct (o =? 0); eexists; reflexivity.
  - intros l e. discriminate.
  - exact Hf.
Defined.

(* ===================================================================== *)
(** * More on the extraction worker *)
(* ===================================================================== *)

Section producer_queue.
Import Records World PostExtractor ParallelExtractDownload.

Lemma drop_snoc_min {A} (k : nat) (l : list A) (x : A) :
  drop (k `min` length l) (l ++ [x]) = drop k l ++ [x].
Proof.
  destruct (decide (k ≤ length l)%nat) as [Hk|Hk].
  - rewrite Nat.min_l by done. by apply drop_app_le.
  - rewrite Nat.min_r by lia. rewrite drop_app_length.
    by rewrite drop_ge by lia.
Qed.

(** The records that went into the queue are records of the stream. *)
Lemma extraction_loop_enqueued taken posts n :
  (n ≤ length posts)%nat →
  length (omap (λ i, posts !! i) (enqueued (extraction_loop taken posts n)))
  = length (enqueued (extraction_loop taken posts n)).
Proof.
  intros Hn.
  destruct (extraction_loop_invariant taken posts n Hn) as (Hperm & _).
  assert (∀ i, i ∈ enqueued (extraction_loop taken posts n) →
               is_Some (posts !! i)) as Hin.
  { intros i Hi. apply lookup_lt_is_Some_2.
    assert (i ∈ seq 0 n) as Hs%elem_of_seq; [|lia].
    rewrite <- Hperm. apply elem_of_app. by left. }
  clear Hperm. induction (enqueued _) as [|i l IH]; [done|].
  destruct (Hin i ltac:(left)) as [p Hp]. simpl. rewrite Hp. simpl.
  f_equal. apply IH. intros i' Hi'. apply Hin. by right.
Qed.

(** The queue never holds more than [QUEUE_MAXSIZE] records.  What it
    holds are the records put, in the order of the stream, without the
    first [k] of them, where [k] is at most the number of records the
    download workers took: a record leaves the queue only when a worker
    takes it. *)
Lemma extraction_loop_queue taken posts n :
  (n ≤ length posts)%nat →
  let st := extraction_loop taken posts n in
  (length (queue st) ≤ QUEUE_MAXSIZE)%nat
  ∧ (length (queue st) ≤ length (enqueued st))%nat
  ∧ ∃ k, (k ≤ sum_list_with taken (seq 0 n))%nat
         ∧ (k ≤ length (enqueued st))%nat
         ∧ queue st = drop k (omap (λ i, posts !! i) (enqueued st)).
Proof.
  induction n as [|n IH]; intros Hn.
  { simpl. split; [lia|]. split; [lia|]. by exists 0%nat. }
  destruct (IH ltac:(lia)) as (Hmax & Hlen & k & Hsum & Hk & Hq).
  pose proof (extraction_loop_enqueued taken posts n ltac:(lia)) as Hom.
  rewrite seq_S, sum_list_with_app. cbn [extraction_loop Nat.add].
  destruct (lookup_lt_is_Some_2 posts n ltac:(lia)) as [p Hp]. rewrite Hp.
  cbv zeta. unfold extraction_step, put.
  pose proof (length_drop (queue (extraction_loop taken posts n)) (taken n))
    as Hdrop.
  destruct (_ <? _)%nat eqn:E; cbn [queue enqueued sum_list_with].
  - apply Nat.ltb_lt in E. rewrite !length_app. simpl.
    split; [lia|]. split; [lia|].
    exists ((k + taken n) `min`
              length (omap (λ i, posts !! i)
                        (enqueued (extraction_loop taken posts n))))%nat.
    split; [lia|]. split; [lia|].
    rewrite omap_app. simpl. rewrite Hp. simpl.
    rewrite drop_snoc_min. rewrite Hq at 1. by rewrite drop_drop.
  - split; [lia|]. split; [lia|].
    exists ((k + taken n) `min`
              length (enqueued (extraction_loop taken posts n)))%nat.
    split; [lia|]. split; [lia|].
    rewrite Hq at 1. rewrite drop_drop.
    destruct (decide (k + taken n
                      ≤ length (enqueued (extraction_loop taken posts n)))%nat)
      as [Hle|Hgt].
    + by rewrite Nat.min_l by done.
    + rewrite Nat.min_r by lia. by rewrite !drop_ge by lia.
Qed.

(** Nothing is dropped from a stream of at most [QUEUE_MAXSIZE] records,
    nor when the workers take at least one record off the queue during
    every wait. *)
Lemma extraction_loop_no_drop taken posts n :
  (n ≤ length posts)%nat →
  (n ≤ QUEUE_MAXSIZE)%nat ∨ (∀ k, 1 ≤ taken k)%nat →
  let st := extraction_loop taken posts n in
  dropped st = [] ∧ enqueued st = seq 0 n ∧ printed st = [].
Proof.
  induction n as [|n IH]; intros Hn Hcase; [done|].
  destruct IH as (Hd & He & Hpr); [lia|destruct Hcase; [left; lia|by right]|].
  destruct (extraction_loop_queue taken posts n ltac:(lia))
    as (Hmax & Hlen & _).
  rewrite He, length_seq in Hlen.
  rewrite seq_S. cbn [extraction_loop Nat.add].
  destruct (lookup_lt_is_Some_2 posts n ltac:(lia)) as [p ->].
  cbv zeta. unfold extraction_step, put.
  pose proof (length_drop (queue (extraction_loop taken posts n)) (taken n))
    as Hdrop.
  assert ((length (drop (taken n) (queue (extraction_loop taken posts n)))
           <? QUEUE_MAXSIZE)%nat = true) as ->.
  { apply Nat.ltb_lt. destruct Hcase as [Hsmall|Htaken]; [lia|].
    specialize (Htaken n). unfold QUEUE_MAXSIZE in *. lia. }
  cbn [dropped enqueued printed]. by rewrite Hd, He, Hpr.
Qed.

End producer_queue.

(* ===================================================================== *)
(** * Further properties of the extraction worker *)
(* ===================================================================== *)

(** X23.  The queue between the extraction worker and the download
    workers keeps the order of the stream and gives up a post only to a
    download worker.  When the
    worker is done the queue holds the posts that were put, in the order
    the generator produced them, without the first [k] of them, where
    [k] is at most the number of posts the download workers took off the
    queue during the puts: a post that was put leaves the queue only
    when a download worker takes it, and if the workers take nothing the
    queue holds every post that was put.  The length of the queue is the
    number of posts put less [k], and at no moment is it more than
    [QUEUE_MAXSIZE]. *)
Theorem queue_is_bounded_and_ordered
    (taken : nat → nat) (s : PostExtractor.extraction) :
  let final := ParallelExtractDownload.extraction_worker taken s in
  let put := omap (λ i, PostExtractor.produced s !! i)
                  (ParallelExtractDownload.enqueued final) in
  (∀ n, (n ≤ length (PostExtractor.produced s))%nat →
        (length (ParallelExtractDownload.queue
                   (ParallelExtractDownload.extraction_loop
                      taken (PostExtractor.produced s) n))
         ≤ ParallelExtractDownload.QUEUE_MAXSIZE)%nat)
  ∧ (length (ParallelExtractDownload.queue final)
     ≤ ParallelExtractDownload.QUEUE_MAXSIZE)%nat
  ∧ length put = length (ParallelExtractDownload.enqueued final)
  ∧ (∃ k, (k ≤ sum_list_with taken
                 (seq 0 (length (PostExtractor.produced s))))%nat
          ∧ (k ≤ length put)%nat
          ∧ ParallelExtractDownload.queue final = drop k put
          ∧ length (ParallelExtractDownload.queue final)
            = (length put - k)%nat)
  ∧ ((∀ j, taken j = 0%nat) → ParallelExtractDownload.queue final = put).
Proof.
  cbv zeta. split.
  { intros n Hn. by apply extraction_loop_queue. }
  destruct (extraction_loop_queue taken (PostExtractor.produced s)
              (length (PostExtractor.produced s)) ltac:(done))
    as (Hmax & _ & k & Hsum & Hk & Hq).
  pose proof (extraction_loop_enqueued taken (PostExtractor.produced s)
                (length (PostExtractor.produced s)) ltac:(done)) as Hom.
  simpl in *. split; [done|]. split; [done|]. split.
  - exists k. rewrite Hom. split; [done|]. split; [done|]. split; [done|].
    by rewrite Hq, length_drop, Hom.
  - intros Hnone.
    assert (sum_list_with taken
              (seq 0 (length (PostExtractor.produced s))) = 0%nat) as H0.
    { clear -Hnone. induction (seq 0 _) as [|j l IH]; [done|].
      simpl. by rewrite Hnone. }
    assert (k = 0%nat) as -> by lia. done.
Qed.

(** X24.  When nothing is dropped.  The extraction worker drops no post
    when the stream has at most [QUEUE_MAXSIZE] posts, whatever the
    download workers do, or when the download workers take at least one
    post off the queue during every wait: every post enters the queue,
    in the order of the stream, and no warning is printed. *)
Theorem nothing_dropped_when_workers_keep_up
    (taken : nat → nat) (s : PostExtractor.extraction) :
  (length (PostExtractor.produced s)
   ≤ ParallelExtractDownload.QUEUE_MAXSIZE)%nat
  ∨ (∀ k, 1 ≤ taken k)%nat →
  let final := ParallelExtractDownload.extraction_worker taken s in
  ParallelExtractDownload.dropped final = []
  ∧ ParallelExtractDownload.enqueued final
    = seq 0 (length (PostExtractor.produced s))
  ∧ (ParallelExtractDownload.warning
       ∉ ParallelExtractDownload.printed final)
  ∧ ParallelExtractDownload.total final
    = Z.of_nat (length (PostExtractor.produced s)).
Proof.
  intros Hcase.
  destruct (extraction_loop_no_drop taken (PostExtractor.produced s)
              (length (PostExtractor.produced s)) ltac:(done) Hcase)
    as (Hd & He & Hpr).
  destruct (extraction_loop_invariant taken (PostExtractor.produced s)
              (length (PostExtractor.produced s)) ltac:(done))
    as (_ & Htotal & _).
  simpl. split; [done|]. split; [done|]. split; [|done].
  rewrite Hpr. destruct (PostExtractor.ended s); simpl;
    try apply not_elem_of_nil.
  intros Hin%list_elem_of_singleton. discriminate.
Qed.

Lemma nothing_dropped_when_workers_keep_up_witness :
  ParallelExtractDownload.dropped
    (ParallelExtractDownload.extraction_worker (λ _, 1%nat)
       Examples.eleven_posts) = [].
Proof.
  destruct (nothing_dropped_when_workers_keep_up
              (λ _, 1%nat) Examples.eleven_posts) as (Hd & _).
  - right. intros k. reflexivity.
  - exact Hd.
Defined.

(* ===================================================================== *)
(** * The calls to the site *)
(* ===================================================================== *)

Section api_client.
Import PyStr Records PostExtractor ApiClient.

(** [fetch_loop] over the three attempts, case by case. *)
Lemma fetch_loop_three {A} (answers : Z → api_answer A) url :
  let run := fetch_loop answers url [0; 1; 2] None in
  match answer_outcome (answers 0) with
  | inr v => run = (inr v, [Request url])
  | inl _ =>
      match answer_outcome (answers 1) with
      | inr v => run = (inr v, [Request url; Pause 1; Request url])
      | inl _ =>
          match answer_outcome (answers 2) with
          | inr v =>
              run = (inr v, [Request url; Pause 1; Request url; Pause 2;
                             Request url])
          | inl e =>
              run = (inl (Some e),
                     [Request url; Pause 1; Request url; Pause 2;
                      Request url])
          end
      end
  end.
Proof.
  simpl. destruct (answer_outcome (answers 0)); [|done].
  destruct (answer_outcome (answers 1)); [|done].
  by destruct (answer_outcome (answers 2)).
Qed.

(** One turn of [fetch_post_loop] on an attempt that does not
    succeed: one request, perhaps a pause, and the loop goes on; after
    the last attempt the exception to raise is the one of that
    attempt. *)
Lemma fetch_post_loop_failed {A} (answers : Z → api_answer A) url
      attempt rest last_exc e :
  answer_outcome (answers attempt) = inl e →
  ∃ last_exc' pause,
    fetch_post_loop answers url (attempt :: rest) last_exc
    = ((fetch_post_loop answers url rest last_exc').1,
       Request url :: pause
       ++ (fetch_post_loop answers url rest last_exc').2)
    ∧ (attempt = 3 → last_exc' = Some e)
    ∧ filter (λ ev, is_request ev = true) pause = [].
Proof.
  intros He. cbn [fetch_post_loop]. rewrite He.
  destruct (answers attempt) as [e0|status json].
  - exists (Some e), (if attempt <? 3 then [Pause (attempt + 1)] else []).
    destruct (fetch_post_loop _ _ _ _) as [r evs]. simpl.
    split; [done|]. split; [done|]. by destruct (attempt <? 3).
  - destruct ((status =? 403) && (attempt <? 3)) eqn:E.
    + exists last_exc, [Pause (4 * (attempt + 1))].
      destruct (fetch_post_loop _ _ _ _) as [r evs]. simpl.
      split; [done|]. split; [|done].
      intros ->. by rewrite andb_false_r in E.
    + exists (Some e), (if attempt <? 3 then [Pause (attempt + 1)] else []).
      destruct (fetch_post_loop _ _ _ _) as [r evs]. simpl.
      split; [done|]. split; [done|]. by destruct (attempt <? 3).
Qed.

(** [fetch_post] when none of its four attempts succeeds: it raises
    the exception of the last attempt, after four requests. *)
Lemma fetch_post_all_failed {A} (answers : Z → api_answer A)
      base_api_url service user_id post_id e :
  (∀ k, 0 ≤ k < 3 → ∃ e', answer_outcome (answers k) = inl e') →
  answer_outcome (answers 3) = inl e →
  let run := fetch_post answers base_api_url service user_id post_id in
  run.1 = inl (Some e)
  ∧ length (filter (λ ev, is_request ev = true) run.2) = 4%nat.
Proof.
  intros Hfail H3. unfold fetch_post.
  set (url := base_api_url +:+ _).
  destruct (Hfail 0 ltac:(lia)) as [e0 H0].
  destruct (Hfail 1 ltac:(lia)) as [e1 H1].
  destruct (Hfail 2 ltac:(lia)) as [e2 H2].
  destruct (fetch_post_loop_failed answers url 0 [1; 2; 3] None e0 H0)
    as (l0 & p0 & -> & _ & Hp0).
  destruct (fetch_post_loop_failed answers url 1 [2; 3] l0 e1 H1)
    as (l1 & p1 & -> & _ & Hp1).
  destruct (fetch_post_loop_failed answers url 2 [3] l1 e2 H2)
    as (l2 & p2 & -> & _ & Hp2).
  destruct (fetch_post_loop_failed answers url 3 [] l2 e H3)
    as (l3 & p3 & -> & Hlast & Hp3).
  rewrite (Hlast eq_refl). cbn [fetch_post_loop fst snd]. split; [done|].
  repeat first [ rewrite filter_cons_True by done
               | rewrite filter_app
               | rewrite Hp0 | rewrite Hp1 | rewrite Hp2 | rewrite Hp3 ].
  done.
Qed.

(** [fetch_post] never ends in [raise None], and sends between one and
    four requests. *)
Lemma fetch_post_loop_requests {A} (answers : Z → api_answer A) url
      attempts last_exc :
  (length (filter (λ ev, is_request ev = true)
             (fetch_post_loop answers url attempts last_exc).2)
   ≤ length attempts)%nat.
Proof.
  revert last_exc. induction attempts as [|attempt rest IH]; intros last_exc.
  { done. }
  cbn [fetch_post_loop].
  destruct (match answers attempt with
            | Response status_code _ =>
                (status_code =? 403) && (attempt <? 3)
            | GetFails _ => false
            end).
  - specialize (IH last_exc).
    destruct (fetch_post_loop _ _ _ _) as [r evs]. cbn [snd] in *.
    rewrite filter_cons_True, filter_cons_False by done.
    cbn [length]. lia.
  - destruct (answer_outcome (answers attempt)) as [e|v].
    2:{ cbn [snd]. rewrite filter_cons_True by done. cbn. lia. }
    specialize (IH (Some e)).
    destruct (fetch_post_loop _ _ _ _) as [r evs]. cbn [snd] in *.
    rewrite filter_cons_True, filter_app by done.
    assert (filter (λ ev, is_request ev = true)
              (if attempt <? 3 then [Pause (attempt + 1)] else []) = [])
      as -> by by destruct (attempt <? 3).
    cbn [length app]. lia.
Qed.

Lemma fetch_post_never_raises_none {A} (answers : Z → api_answer A)
      base_api_url service user_id post_id :
  (fetch_post answers base_api_url service user_id post_id).1 ≠ inl None.
Proof.
  unfold fetch_post. set (url := base_api_url +:+ _).
  assert (∀ last_exc,
            (fetch_post_loop answers url [3] last_exc).1 ≠ inl None) as H3.
  { intros last_exc. cbn [fetch_post_loop].
    assert (match answers 3 with
            | Response status_code _ => (status_code =? 403) && (3 <? 3)
            | GetFails _ => false
            end = false) as ->.
    { destruct (answers 3); [done|]. apply andb_false_r. }
    by destruct (answer_outcome (answers 3)). }
  assert (∀ attempt rest,
            (∀ last_exc,
               (fetch_post_loop answers url rest last_exc).1 ≠ inl None) →
            ∀ last_exc,
              (fetch_post_loop answers url (attempt :: rest) last_exc).1
              ≠ inl None) as Hstep.
  { intros attempt rest Hrest last_exc. cbn [fetch_post_loop].
    destruct (match answers attempt with
              | Response status_code _ =>
                  (status_code =? 403) && (attempt <? 3)
              | GetFails _ => false
              end).
    - specialize (Hrest last_exc).
      by destruct (fetch_post_loop _ _ _ _) as [r evs].
    - destruct (answer_outcome (answers attempt)) as [e|v]; [|done].
      specialize (Hrest (Some e)).
      by destruct (fetch_post_loop _ _ _ _) as [r evs]. }
  by do 3 apply Hstep.
Qed.

(** ** The post details of [process_posts] *)

(** A listed post that is not in the cache and whose four attempts all
    fail is left out when the last failure is an [HTTPError], and ends
    [process_posts] otherwise. *)
Lemma process_posts_failed_detail w cached answers base_api_url
      base_server l rest page_number offset_ save_empty_files f e :
  post_detail w = post_detail_of cached answers base_api_url →
  cached l = None →
  (∀ k, 0 ≤ k < 3 → ∃ e', answer_outcome (answers l k) = inl e') →
  answer_outcome (answers l 3) = inl e →
  process_posts w base_server (l :: rest) page_number offset_
                save_empty_files f
  = match e with
    | HTTPError _ =>
        process_posts w base_server rest page_number offset_
                      save_empty_files f
    | OtherError msg => inl (Propagated msg)
    end.
Proof.
  intros Hw Hcache Hfail Hlast. cbn [process_posts].
  rewrite Hw. unfold post_detail_of. rewrite Hcache.
  destruct (fetch_post_all_failed (answers l) base_api_url (l_service l)
              (l_user l) (l_id l) e Hfail Hlast) as [-> _].
  by destruct e.
Qed.

End api_client.

(* ===================================================================== *)
(** * Profile URLs and the configuration *)
(* ===================================================================== *)

Section profile_urls.
Import PyStr PostExtractor ApiClient.

(** The parts of a profile URL. *)
Lemma profile_url_split domain service user_id :
  contains "/" domain = false →
  contains "/" service = false →
  contains "/" user_id = false →
  split "/" ("https://" +:+ domain +:+ "/" +:+ service +:+ "/user/"
             +:+ user_id)
  = ["https:"; ""; domain; service; "user"; user_id].
Proof.
  intros Hd Hs Hu.
  change ("https://" +:+ domain +:+ "/" +:+ service +:+ "/user/"
          +:+ user_id)
    with ("https:" +:+ String "/" ("" +:+ String "/"
            (domain +:+ String "/" (service +:+ String "/"
               ("user" +:+ String "/" user_id))))).
  rewrite !split_app_sep. by rewrite !split_no_sep by done.
Qed.

Lemma profile_url_slash_split domain service user_id :
  contains "/" domain = false →
  contains "/" service = false →
  contains "/" user_id = false →
  split "/" ("https://" +:+ domain +:+ "/" +:+ service +:+ "/user/"
             +:+ user_id +:+ "/")
  = ["https:"; ""; domain; service; "user"; user_id; ""].
Proof.
  intros Hd Hs Hu.
  change ("https://" +:+ domain +:+ "/" +:+ service +:+ "/user/"
          +:+ user_id +:+ "/")
    with ("https:" +:+ String "/" ("" +:+ String "/"
            (domain +:+ String "/" (service +:+ String "/"
               ("user" +:+ String "/" (user_id +:+ String "/" "")))))).
  rewrite !split_app_sep. by rewrite !split_no_sep by done.
Qed.

End profile_urls.

Section configuration.
Import ConfigFile.

Lemma from_dict_to_dict (c : Config) : from_dict (to_dict c) = c.
Proof. destruct c. vm_compute. reflexivity. Qed.

Lemma from_dict_empty : from_dict ∅ = default_config.
Proof. vm_compute. reflexivity. Qed.

End configuration.

Section configuration_keys.
Import ConfigFile.

Lemma field_name_ne key name :
  key ∉ field_names → name ∈ field_names → key ≠ name.
Proof. intros Hkey Hname ->. done. Qed.

(** [from_dict] reads the fields of [Config] and nothing else. *)
Lemma from_dict_ignores data key v :
  key ∉ field_names → from_dict (<[key := v]> data) = from_dict data.
Proof.
  intros Hkey. unfold from_dict, get, get_or.
  rewrite !lookup_insert_ne; [done|..];
    (apply (field_name_ne _ _ Hkey); unfold field_names;
     repeat first [ apply list_elem_of_here | apply list_elem_of_further ]).
Qed.

End configuration_keys.

(* ===================================================================== *)
(** * Properties of the calls to the site and of the configuration *)
(* ===================================================================== *)

(** X25.  [fetch_posts] asks for a page at most three times.  It returns
    the first answer that is neither an exception, nor a status from 400
    to 599, nor unreadable JSON, after a pause of 0.5 s and then 1 s
    between the attempts; when all three attempts fail it raises the
    exception of the third, without a pause after it, and it never ends
    in [raise None].  The URL has no query string for offset 0.
    [fetch_user] runs the same loop: on the same answers it ends the same
    way. *)
Theorem listing_is_tried_three_times
    (A : Type) (answers : Z → ApiClient.api_answer A)
    (base_api_url service user_id : string) (offset : Z) :
  let url := ApiClient.fetch_posts_url base_api_url service user_id offset in
  let run :=
    ApiClient.fetch_posts answers base_api_url service user_id offset in
  (offset = 0 →
   url = base_api_url +:+ "/" +:+ service +:+ "/user/" +:+ user_id
         +:+ "/posts")
  ∧ (ApiClient.fetch_user answers base_api_url service user_id).1 = run.1
  ∧ match run.1 with
    | inr v =>
        ∃ k : nat,
          (k < 3)%nat
          ∧ ApiClient.answer_outcome (answers (Z.of_nat k)) = inr v
          ∧ (∀ j : nat, (j < k)%nat →
               ∃ e, ApiClient.answer_outcome (answers (Z.of_nat j)) = inl e)
          ∧ run.2
            = (seq 0 k ≫= λ j, [ApiClient.Request url;
                                ApiClient.Pause (Z.of_nat j + 1)])
              ++ [ApiClient.Request url]
    | inl last_exc =>
        ∃ e, last_exc = Some e
             ∧ ApiClient.answer_outcome (answers 2) = inl e
             ∧ (∀ j : nat, (j < 3)%nat →
                  ∃ e', ApiClient.answer_outcome (answers (Z.of_nat j))
                        = inl e')
             ∧ run.2
               = [ApiClient.Request url; ApiClient.Pause 1;
                  ApiClient.Request url; ApiClient.Pause 2;
                  ApiClient.Request url]
    end.
Proof.
  intros url run. split.
  { intros ->. done. }
  pose proof (fetch_loop_three answers url) as Hposts.
  pose proof (fetch_loop_three answers
                (base_api_url +:+ "/" +:+ service +:+ "/user/" +:+ user_id
                 +:+ "/profile")) as Huser.
  unfold run, ApiClient.fetch_posts, ApiClient.fetch_user. fold url.
  cbv zeta in Hposts, Huser.
  destruct (ApiClient.answer_outcome (answers 0)) as [e0|v0] eqn:E0.
  2:{ rewrite Hposts, Huser. split; [done|]. exists 0%nat.
      split; [lia|]. split; [done|]. split; [|done]. intros j Hj. lia. }
  destruct (ApiClient.answer_outcome (answers 1)) as [e1|v1] eqn:E1.
  2:{ rewrite Hposts, Huser. split; [done|]. exists 1%nat.
      split; [lia|]. split; [done|]. split; [|done]. intros j Hj.
      assert (j = 0%nat) as -> by lia. by exists e0. }
  destruct (ApiClient.answer_outcome (answers 2)) as [e2|v2] eqn:E2.
  - rewrite Hposts, Huser. split; [done|]. exists e2.
    split; [done|]. split; [done|]. split; [|done]. intros j Hj.
    assert (j = 0 ∨ j = 1 ∨ j = 2)%nat as [->|[->| ->]] by lia;
      by eexists.
  - rewrite Hposts, Huser. split; [done|]. exists 2%nat.
    split; [lia|]. split; [done|]. split; [|done]. intros j Hj.
    assert (j = 0 ∨ j = 1)%nat as [->| ->] by lia; by eexists.
Qed.

(** X26.  [fetch_post] asks for a post at most four times and never ends
    in [raise None].  A 403 before the fourth attempt is waited out (2 s,
    4 s, 6 s) and is not remembered as an error; a post answered with 403
    all four times ends in the [HTTPError] of the fourth answer, after
    12 s of pauses.  Whenever none of the four attempts succeeds, the
    exception raised is the one of the fourth attempt. *)
Theorem post_is_tried_four_times
    (A : Type) (answers : Z → ApiClient.api_answer A)
    (base_api_url service user_id post_id : string) :
  let url := base_api_url +:+ "/" +:+ service +:+ "/user/" +:+ user_id
             +:+ "/post/" +:+ post_id in
  let run :=
    ApiClient.fetch_post answers base_api_url service user_id post_id in
  run.1 ≠ inl None
  ∧ (length (filter (λ ev, ApiClient.is_request ev = true) run.2) ≤ 4)%nat
  ∧ ((∀ k, ∃ json, answers k = ApiClient.Response 403 json) →
     run = (inl (Some (ApiClient.HTTPError 403)),
            [ApiClient.Request url; ApiClient.Pause 4;
             ApiClient.Request url; ApiClient.Pause 8;
             ApiClient.Request url; ApiClient.Pause 12;
             ApiClient.Request url]))
  ∧ (∀ e,
       (∀ k, 0 ≤ k < 3 →
             ∃ e', ApiClient.answer_outcome (answers k) = inl e') →
       ApiClient.answer_outcome (answers 3) = inl e →
       run.1 = inl (Some e)
       ∧ length (filter (λ ev, ApiClient.is_request ev = true) run.2)
         = 4%nat).
Proof.
  intros url run. split; [apply fetch_post_never_raises_none|].
  split; [apply (fetch_post_loop_requests answers url [0; 1; 2; 3] None)|].
  split; [|intros e Hfail Hlast; by apply fetch_post_all_failed].
  intros H403. unfold run, ApiClient.fetch_post. fold url.
  destruct (H403 0) as [j0 H0], (H403 1) as [j1 H1],
           (H403 2) as [j2 H2], (H403 3) as [j3 H3].
  cbn [ApiClient.fetch_post_loop]. rewrite H0, H1, H2, H3. reflexivity.
Qed.

(** X27.  A post whose detail cannot be fetched.  When a listed post is
    not in the cache and none of the four attempts of [fetch_post]
    succeeds, [process_posts] leaves the post out and goes on with the
    rest of the page if the last attempt ended in an [HTTPError] (a
    status from 400 to 599); if it ended in another exception, that
    exception leaves [process_posts] and nothing of the page is
    returned. *)
Theorem unfetchable_post_is_skipped_or_fatal
    (w : PostExtractor.site)
    (cached : PostExtractor.listed → option PostExtractor.detail)
    (answers : PostExtractor.listed → Z
               → ApiClient.api_answer PostExtractor.detail)
    (base_api_url base_server : string)
    (l : PostExtractor.listed) (rest : list PostExtractor.listed)
    (page_number offset : Z) (save_empty_files : bool)
    (f : PostExtractor.id_filter) (e : ApiClient.api_exn) :
  PostExtractor.post_detail w
  = ApiClient.post_detail_of cached answers base_api_url →
  cached l = None →
  (∀ k, 0 ≤ k < 3 →
        ∃ e', ApiClient.answer_outcome (answers l k) = inl e') →
  ApiClient.answer_outcome (answers l 3) = inl e →
  PostExtractor.process_posts w base_server (l :: rest) page_number offset
                              save_empty_files f
  = match e with
    | ApiClient.HTTPError _ =>
        PostExtractor.process_posts w base_server rest page_number offset
                                    save_empty_files f
    | ApiClient.OtherError msg => inl (PostExtractor.Propagated msg)
    end.
Proof. intros Hw Hcache Hfail Hlast. by eapply process_posts_failed_detail. Qed.

Lemma unfetchable_post_is_skipped_or_fatal_witness :
  PostExtractor.process_posts Examples.site_rate_limited "https://kemono.cr"
    [Examples.listed_one] 1 0 true PostExtractor.NoFilter
  = PostExtractor.process_posts Examples.site_rate_limited
      "https://kemono.cr" [] 1 0 true PostExtractor.NoFilter.
Proof.
  apply (unfetchable_post_is_skipped_or_fatal
           Examples.site_rate_limited (λ _, None)
           (λ _ _, ApiClient.Response 403 (inl ""))
           "https://kemono.cr/api/v1" "https://kemono.cr"
           Examples.listed_one [] 1 0 true PostExtractor.NoFilter
           (ApiClient.HTTPError 403));
    [reflexivity|reflexivity| |reflexivity].
  intros k _. exists (ApiClient.HTTPError 403). reflexivity.
Defined.

(** X28.  Reading a profile URL.  For a URL
    [https://{domain}/{service}/user/{user_id}] whose three parts hold no
    slash, [get_artist_info] gives [(service, user_id)]; with a slash at
    the end of the URL it gives [("user", "")] instead.
    [get_base_config] gives the API base [https://{domain}/api/v1], the
    server [https://{domain}] and the directory ["kemono"] or ["coomer"]
    for the two configured domains, and raises [ValueError] for a domain
    that is not configured. *)
Theorem profile_url_is_read
    (d : ApiClient.domains) (domain service user_id : string) :
  PyStr.contains "/" domain = false →
  PyStr.contains "/" service = false →
  PyStr.contains "/" user_id = false →
  let url := "https://" +:+ domain +:+ "/" +:+ service +:+ "/user/"
             +:+ user_id in
  ApiClient.get_artist_info url = Some (service, user_id)
  ∧ ApiClient.get_artist_info
      ("https://" +:+ domain +:+ "/" +:+ service +:+ "/user/"
       +:+ user_id +:+ "/")
    = Some ("user", "")
  ∧ (domain = ApiClient.kemono d →
     ApiClient.get_base_config d url
     = inr ("https://" +:+ domain +:+ "/api/v1", "https://" +:+ domain,
            "kemono"))
  ∧ (domain = ApiClient.coomer d → domain ≠ ApiClient.kemono d →
     ApiClient.get_base_config d url
     = inr ("https://" +:+ domain +:+ "/api/v1", "https://" +:+ domain,
            "coomer"))
  ∧ (domain ∉ ApiClient.kemono d :: ApiClient.coomer d
               :: ApiClient.other_domains d →
     ApiClient.get_base_config d url = inl PostExtractor.ValueError).
Proof.
  intros Hd Hs Hu url.
  unfold ApiClient.get_artist_info, ApiClient.get_base_config.
  rewrite profile_url_slash_split by done.
  unfold url. rewrite profile_url_split by done.
  split; [done|]. split; [done|]. cbn [lookup list_lookup].
  split; [|split].
  - intros Hk. rewrite bool_decide_eq_true_2 by (rewrite Hk; apply list_elem_of_here).
    by rewrite Hk, String.eqb_refl.
  - intros Hc Hk.
    rewrite bool_decide_eq_true_2
      by (rewrite Hc; apply list_elem_of_further, list_elem_of_here).
    apply String.eqb_neq in Hk. rewrite Hk.
    by rewrite Hc, String.eqb_refl.
  - intros Hnot. by rewrite bool_decide_eq_false_2.
Qed.

Lemma profile_url_is_read_witness :
  ApiClient.get_artist_info
    ("https://" +:+ "kemono.cr" +:+ "/" +:+ "fanbox" +:+ "/user/" +:+ "7")
  = Some ("fanbox", "7")
  ∧ ApiClient.get_base_config Examples.domains_example
      ("https://" +:+ "kemono.cr" +:+ "/" +:+ "fanbox" +:+ "/user/" +:+ "7")
    = inr ("https://" +:+ "kemono.cr" +:+ "/api/v1",
           "https://" +:+ "kemono.cr", "kemono").
Proof.
  destruct (profile_url_is_read
              Examples.domains_example "kemono.cr" "fanbox" "7")
    as (Hinfo & _ & Hbase & _); [reflexivity..|].
  split; [exact Hinfo|]. apply Hbase. reflexivity.
Defined.

(** X29.  The configuration survives a round trip.  [Config.from_dict]
    of [to_dict()] of a configuration is that configuration;
    [from_dict] of an empty dictionary is the default configuration
    [Config()]; and a key that is not a field of [Config] does not
    influence [from_dict]. *)
Theorem config_round_trip :
  (∀ c, ConfigFile.from_dict (ConfigFile.to_dict c) = c)
  ∧ ConfigFile.from_dict ∅ = ConfigFile.default_config
  ∧ (∀ data key v,
       key ∉ ConfigFile.field_names →
       ConfigFile.from_dict (<[key := v]> data) = ConfigFile.from_dict data).
Proof.
  split; [apply from_dict_to_dict|]. split; [apply from_dict_empty|].
  apply from_dict_ignores.
Qed.

(* ===================================================================== *)
(** * The posts of a JSON file *)
(* ===================================================================== *)

Section batch_order.
Import PyStr Records BatchFileDownloader BatchDownload.









(** ** Processing the posts *)


End batch_order.

(* ===================================================================== *)
(** * Properties of the batch download *)
(* ===================================================================== *)

